(** * htslib hFILE streams and the libcurl HTTP reader

    A shallow embedding of
    - [test/net/test_httpd.h]: [FifoBuffer], [CurlStream] and the C API
      [curlstream_open] / [curlstream_read] / [curlstream_seek] /
      [curlstream_close] (declared in [htslib/curlstream.h]);
    - [test/net/test_httpd.cc]: the mock server [TestHTTPd];
    - [hfile_net.c]: the network backend of hFILE;
    together with the buffered hFILE layer, whose implementation file is
    not part of the sources at hand and is modelled from the written
    specification. *)

From Stdlib Require Import ZArith Lia Strings.Byte Strings.Ascii.
From stdpp Require Import base option list strings gmap pretty.

Local Open Scope Z_scope.

(** ** Machine integers *)

(** Two's-complement reduction of [z] to a signed integer of [w] bits. *)
Definition wrap_signed (w : Z) (z : Z) : Z :=
  (z + 2 ^ (w - 1)) mod 2 ^ w - 2 ^ (w - 1).

(** [int], [ssize_t] and [off_t] on the LP64 targets the library builds for. *)
Definition to_int (z : Z) : Z := wrap_signed 32 z.
Definition to_ssize_t (z : Z) : Z := wrap_signed 64 z.
Definition to_off_t (z : Z) : Z := wrap_signed 64 z.

Definition INT_MAX : Z := 2 ^ 31 - 1.

(** Values of [<errno.h>] (Linux numbering). *)
Definition EPERM : Z := 1.
Definition ENOENT : Z := 2.
Definition EIO : Z := 5.
Definition EAGAIN : Z := 11.
Definition EACCES : Z := 13.
Definition EINVAL : Z := 22.
Definition ESPIPE : Z := 29.
Definition EPIPE : Z := 32.
Definition ETIMEDOUT : Z := 110.

(** Values of [<unistd.h>]. *)
Definition SEEK_SET : Z := 0.
Definition SEEK_CUR : Z := 1.
Definition SEEK_END : Z := 2.

(** [CURLcode] values used by the reader. *)
Definition CURLE_OK : Z := 0.
Definition CURLE_PARTIAL_FILE : Z := 18.

Abbreviation bytes := (list byte).

(** ** FifoBuffer: the response body queue *)

Module FifoBuffer.

(** [std::deque<std::string> q_] *)
Definition t := list bytes.

Definition empty (q : t) : bool :=
match q with [] => true | _ => false end.

Definition size (q : t) : nat := foldr (fun it ans => (length it + ans)%nat) 0%nat q.

(** add to end of buffer *)
Definition write (q : t) (s : bytes) : t :=
if (0 <? length s)%nat then q ++ [s] else q.

(** consume some from beginning of buffer: the count [neff], the bytes
  copied to the caller and the queue left. *)
Definition readsome (q : t) (n : nat) : nat * bytes * t :=
match q with
| [] => (0%nat, [], q)
| front :: rest =>
    if (n =? 0)%nat then (0%nat, [], q)
    else
      let fs := length front in
      let neff := Nat.min fs n in
      let remainder := if (neff <? fs)%nat then drop neff front else [] in
      let q' := if (0 <? length remainder)%nat then remainder :: rest else rest in
      (neff, take neff front, q')
end.

End FifoBuffer.

(** ** The transport

    libcurl is opaque to the reader.  One transfer is described by what the
    successive calls of [curl_multi_perform] on its handle do: the body
    chunks handed to [writefunction] during the call, the [CURLMcode]
    returned, what [curl_easy_getinfo(CURLINFO_RESPONSE_CODE)] answers
    afterwards, and whether the transfer is still running.  The call after
    which [still_running == 0] carries the [CURLcode] of the [CURLMSG_DONE]
    message. *)

Record perform_ev := {
  pe_body : list bytes;     (* writefunction calls made during the call *)
  pe_mc : bool;             (* curl_multi_perform returned CURLM_OK *)
  pe_info : option Z        (* response code from getinfo; None: getinfo failed *)
}.

Inductive transfer :=
  | Finish (body : list bytes) (info : Z) (result : Z)
  | Progress (e : perform_ev) (rest : transfer).

(** What libcurl answers when a request is set up and run. *)
Record session := {
  s_multi_init : bool;          (* curl_multi_init returned a handle *)
  s_easy_init : bool;           (* curl_easy_init returned a handle *)
  s_add_handle : bool;          (* curl_multi_add_handle returned CURLM_OK *)
  s_setopt_fail : option nat;   (* index of the first failing curl_easy_setopt *)
  s_wire : transfer;
  s_waits : list bool           (* outcomes of the successive block() waits *)
}.

(** [using headers = std::map<std::string,std::string>] *)
Abbreviation headers := (gmap string string).

Record request := {
  rq_url : string;
  rq_headers : headers
}.

(** ** CurlStream *)

Record CurlStream := {
  url_ : string;
  ofs_ : Z;
  h_ : bool;                           (* CURL *h_ is not null *)
  m_ : bool;                           (* CURLM *m_ is not null *)
  response_code_ : Z;
  request_headers_helper_ : list string;
  buf_ : FifoBuffer.t;
  final_msg_ : option Z;               (* final_msg_->data.result *)
  final_read_rc_ : Z;
  wire_ : transfer;                    (* what the handle will still do *)
  waits_ : list bool
}.

Definition set_handles (stm : CurlStream) (h m : bool) : CurlStream :=
  {| url_ := url_ stm; ofs_ := ofs_ stm; h_ := h; m_ := m;
     response_code_ := response_code_ stm;
     request_headers_helper_ := request_headers_helper_ stm;
     buf_ := buf_ stm; final_msg_ := final_msg_ stm;
     final_read_rc_ := final_read_rc_ stm;
     wire_ := wire_ stm; waits_ := waits_ stm |}.

Definition set_response_code (stm : CurlStream) (c : Z) : CurlStream :=
  {| url_ := url_ stm; ofs_ := ofs_ stm; h_ := h_ stm; m_ := m_ stm;
     response_code_ := c;
     request_headers_helper_ := request_headers_helper_ stm;
     buf_ := buf_ stm; final_msg_ := final_msg_ stm;
     final_read_rc_ := final_read_rc_ stm;
     wire_ := wire_ stm; waits_ := waits_ stm |}.

Definition set_request_headers (stm : CurlStream) (l : list string) : CurlStream :=
  {| url_ := url_ stm; ofs_ := ofs_ stm; h_ := h_ stm; m_ := m_ stm;
     response_code_ := response_code_ stm;
     request_headers_helper_ := l;
     buf_ := buf_ stm; final_msg_ := final_msg_ stm;
     final_read_rc_ := final_read_rc_ stm;
     wire_ := wire_ stm; waits_ := waits_ stm |}.

Definition set_buf (stm : CurlStream) (q : FifoBuffer.t) : CurlStream :=
  {| url_ := url_ stm; ofs_ := ofs_ stm; h_ := h_ stm; m_ := m_ stm;
     response_code_ := response_code_ stm;
     request_headers_helper_ := request_headers_helper_ stm;
     buf_ := q; final_msg_ := final_msg_ stm;
     final_read_rc_ := final_read_rc_ stm;
     wire_ := wire_ stm; waits_ := waits_ stm |}.

Definition set_final_msg (stm : CurlStream) (m : option Z) : CurlStream :=
  {| url_ := url_ stm; ofs_ := ofs_ stm; h_ := h_ stm; m_ := m_ stm;
     response_code_ := response_code_ stm;
     request_headers_helper_ := request_headers_helper_ stm;
     buf_ := buf_ stm; final_msg_ := m;
     final_read_rc_ := final_read_rc_ stm;
     wire_ := wire_ stm; waits_ := waits_ stm |}.

Definition set_final_read_rc (stm : CurlStream) (rc : Z) : CurlStream :=
  {| url_ := url_ stm; ofs_ := ofs_ stm; h_ := h_ stm; m_ := m_ stm;
     response_code_ := response_code_ stm;
     request_headers_helper_ := request_headers_helper_ stm;
     buf_ := buf_ stm; final_msg_ := final_msg_ stm;
     final_read_rc_ := rc;
     wire_ := wire_ stm; waits_ := waits_ stm |}.

Definition set_wire (stm : CurlStream) (t : transfer) (ws : list bool) : CurlStream :=
  {| url_ := url_ stm; ofs_ := ofs_ stm; h_ := h_ stm; m_ := m_ stm;
     response_code_ := response_code_ stm;
     request_headers_helper_ := request_headers_helper_ stm;
     buf_ := buf_ stm; final_msg_ := final_msg_ stm;
     final_read_rc_ := final_read_rc_ stm;
     wire_ := t; waits_ := ws |}.

(** The constructor: [ofs_(0), h_(nullptr), m_(nullptr), response_code_(0),
    final_msg_(nullptr), final_read_rc_(1)].  No handle exists yet; the
    transfer placeholder is never consulted before [open] installs one. *)
Definition CurlStream_new : CurlStream :=
  {| url_ := ""; ofs_ := 0; h_ := false; m_ := false;
     response_code_ := 0; request_headers_helper_ := [];
     buf_ := []; final_msg_ := None; final_read_rc_ := 1;
     wire_ := Finish [] 0 CURLE_OK; waits_ := [] |}.

(** [Status]: an int code; [bad()] is [code_ != 0].  The message printed
    on [std::cerr] for negative codes is not modelled. *)
Definition bad (code : Z) : bool := negb (code =? 0).

(** [writefunction], once per chunk the call delivers. *)
Definition deliver (q : FifoBuffer.t) (chunks : list bytes) : FifoBuffer.t :=
  foldl FifoBuffer.write q chunks.

(** [CurlStream::perform] *)
Definition perform (stm : CurlStream) : Z * CurlStream :=
  match final_msg_ stm with
  | Some _ => (0, stm)
  | None =>
      match wire_ stm with
      | Progress e rest =>
          let stm1 := set_wire (set_buf stm (deliver (buf_ stm) (pe_body e)))
                               rest (waits_ stm) in
          if negb (pe_mc e) then (-1, stm1)
          else if response_code_ stm1 =? 0 then
            match pe_info e with
            | None => (-1, stm1)
            | Some c => (0, set_response_code stm1 c)
            end
          else (0, stm1)
      | Finish body info result =>
          let stm1 := set_buf stm (deliver (buf_ stm) body) in
          let stm2 := if response_code_ stm1 =? 0
                      then set_response_code stm1 info else stm1 in
          (0, set_final_msg stm2 (Some result))
      end
  end.

(** [CurlStream::final_status], called once [final_msg_] is known. *)
Definition final_status (stm : CurlStream) : Z :=
  match final_msg_ stm with
  | Some r => if r =? CURLE_OK then 0 else -1
  | None => 0
  end.

(** [CurlStream::block]: the timeout query, the fd sets and [select];
    any of them failing gives [Status(-1)]. *)
Definition block (stm : CurlStream) : Z * CurlStream :=
  match waits_ stm with
  | [] => (0, stm)
  | ok :: ws => (if ok then 0 else -1, set_wire stm (wire_ stm) ws)
  end.

(** [while (final_msg_ == nullptr && cond) { block(); perform(); }] with
    the early returns on a bad status.  The recursion follows the events
    the handle still holds: [t] is [wire_ stm] at every iteration, and a
    [Finish] event sets [final_msg_], which ends the loop. *)
Fixpoint drive (cond : CurlStream -> bool) (t : transfer) (stm : CurlStream)
  : Z * CurlStream :=
  match final_msg_ stm with
  | Some _ => (0, stm)
  | None =>
      if cond stm then
        let '(s, stm1) := block stm in
        if bad s then (s, stm1)
        else
          let '(s, stm2) := perform stm1 in
          if bad s then (s, stm2)
          else
            match t with
            | Progress _ rest => drive cond rest stm2
            | Finish _ _ _ => (0, stm2)
            end
      else (0, stm)
  end.

Definition awaiting_code (stm : CurlStream) : bool := response_code_ stm =? 0.
Definition awaiting_body (stm : CurlStream) : bool := FifoBuffer.empty (buf_ stm).

(** [CurlStream::read].  Returns the [ssize_t] result, the bytes copied
    into the caller's buffer and the stream afterwards. *)
Definition CurlStream_read (stm : CurlStream) (n : nat) : Z * bytes * CurlStream :=
  if final_read_rc_ stm <=? 0 then (final_read_rc_ stm, [], stm)
  else if negb (h_ stm) then (-2, [], stm)
  else if (response_code_ stm <? 200) || (299 <? response_code_ stm)
  then (-2, [], stm)
  else
    let readsome (stm : CurlStream) :=
      let '(neff, out, q) := FifoBuffer.readsome (buf_ stm) n in
      (to_ssize_t (Z.of_nat neff), out, set_buf stm q) in
    if FifoBuffer.empty (buf_ stm) then
      let '(s, stm1) := perform stm in
      if bad s then (s, [], stm1)
      else
        let '(s, stm2) := drive awaiting_body (wire_ stm1) stm1 in
        if bad s then (s, [], stm2)
        else if FifoBuffer.empty (buf_ stm2) then
          let rc := final_status stm2 in
          (rc, [], set_final_read_rc stm2 rc)
        else readsome stm2
    else readsome stm.

(** The response-code test that ends [CurlStream::open]. *)
Definition check_response_code (ofs code : Z) : Z :=
  if (code <? 200) || (299 <? code) then -4
  else if (0 <? ofs) && negb (code =? 206) then -8
  else 0.

(** [RequestHeadersHelper::Init]: one "key: value" line per header. *)
Definition header_lines (h : headers) : list string :=
  (fun kv => fst kv +:+ ": " +:+ snd kv) <$> map_to_list h.

(** [struct CurlStreamBox] *)
Record CurlStreamBox := {
  url : string;
  ofs : Z;
  stm : option CurlStream
}.

(** The errno that [open_helper] derives from the response code of a
    failed open. *)
Definition errno_of_response (ret : Z) : Z :=
  if ret =? 401 then EPERM
  else if ret =? 403 then EACCES
  else if ret =? 404 then ENOENT
  else if ret =? 407 then EPERM
  else if ret =? 408 then ETIMEDOUT
  else if ret =? 410 then ENOENT
  else if ret =? 503 then EAGAIN
  else if ret =? 504 then ETIMEDOUT
  else if (400 <=? ret) && (ret <? 500) then EINVAL else EIO.

Definition first_setopt_fails (ss : session) : bool :=
  match s_setopt_fail ss with Some O => true | _ => false end.

Definition later_setopt_fails (ss : session) : bool :=
  match s_setopt_fail ss with Some (S k) => (k <? 7)%nat | _ => false end.

Section Client.

(** The network the process talks to: issuing a request yields what
  libcurl will do for it and the network afterwards. *)
Variable Net : Type.
Variable connect : Net -> request -> session * Net.

(** Whether the build defines [NDEBUG], which turns [assert] into
  nothing. *)
Variable NDEBUG : bool.

(** Process-wide state: the [need_init] latch of [ensure_curl_init], what
  [curl_global_init] returns when called, [errno], and the network. *)
Record World := {
need_init : bool;
global_init : Z;
errno : Z;
net : Net
}.

Definition set_errno (w : World) (e : Z) : World :=
{| need_init := need_init w; global_init := global_init w;
   errno := e; net := net w |}.

Definition set_net (w : World) (nt : Net) : World :=
{| need_init := need_init w; global_init := global_init w;
   errno := errno w; net := nt |}.

Definition ensure_curl_init (w : World) : Z * World :=
if need_init w then
  (global_init w,
   {| need_init := false; global_init := global_init w;
      errno := errno w; net := net w |})
else (CURLE_OK, w).

(** [CurlStream::open].  [None] stands for the process aborting on
  [assert(response_code_ != 0)] in a build with assertions.  The eight [CURLSETOPT] lines are
  numbered from 0; [request_headers_helper_.Init] runs after the
  first. *)
Definition CurlStream_open (stm : CurlStream) (url : string) (ofs : Z) (w : World)
: option (Z * CurlStream * World) :=
if m_ stm || h_ stm then Some (-2, stm, w)
else
  let request_headers : headers :=
    if ofs =? 0 then ∅
    else {[ "range"%string := ("bytes=" +:+ pretty ofs +:+ "-")%string ]} in
  let '(rc, w1) := ensure_curl_init w in
  if negb (rc =? CURLE_OK) then Some (-1, stm, w1)
  else
    let '(ss, nt) :=
      connect (net w1) {| rq_url := url; rq_headers := request_headers |} in
    let w2 := set_net w1 nt in
    if negb (s_multi_init ss) then Some (-1, stm, w2)
    else if negb (s_easy_init ss) then Some (-1, set_handles stm false true, w2)
    else
      let stm1 := set_wire (set_handles stm true true) (s_wire ss) (s_waits ss) in
      if negb (s_add_handle ss) then Some (-1, set_handles stm1 false true, w2)
      else if first_setopt_fails ss then Some (-1, stm1, w2)
      else
        let stm2 := set_request_headers stm1 (header_lines request_headers) in
        if later_setopt_fails ss then Some (-1, stm2, w2)
        else
          let '(s, stm3) := perform stm2 in
          if bad s then Some (s, stm3, w2)
          else
            let '(s, stm4) := drive awaiting_code (wire_ stm3) stm3 in
            if bad s then Some (s, stm4, w2)
            else
              let s := match final_msg_ stm4 with
                       | Some _ => final_status stm4
                       | None => 0
                       end in
              if bad s then Some (s, set_final_read_rc stm4 (-1), w2)
              else if (response_code_ stm4 =? 0) && negb NDEBUG then None
              else Some (check_response_code ofs (response_code_ stm4), stm4, w2).

(** [open_helper] *)
Definition open_helper (s : CurlStreamBox) (w : World)
: option (Z * CurlStreamBox * World) :=
'(c, st, w1) ← CurlStream_open CurlStream_new (url s) (ofs s) w;
if c =? 0 then
  Some (0, {| url := url s; ofs := ofs s; stm := Some st |}, w1)
else
  Some (c, {| url := url s; ofs := ofs s; stm := None |},
        set_errno w1 (errno_of_response (response_code_ st))).

(** [curlstream_open]: on failure the box is deleted and [*s] is left
  alone, which the result [None] for the box stands for. *)
Definition curlstream_open (u : string) (o : Z) (w : World)
: option (Z * option CurlStreamBox * World) :=
'(c, box, w1) ← open_helper {| url := u; ofs := o; stm := None |} w;
if c =? 0 then Some (0, Some box, w1) else Some (c, None, w1).

(** The tail of [curlstream_read], once [s->stm] points to a stream
  [st]: [int c] receives the [ssize_t] of [CurlStream::read], and
  [errno] is overwritten when [c != 0]. *)
Definition read_stream (s : CurlStreamBox) (st : CurlStream) (n : nat) (w : World)
: Z * bytes * CurlStreamBox * World :=
let '(r, out, st') := CurlStream_read st n in
let c := to_int r in
(c, out, {| url := url s; ofs := ofs s; stm := Some st' |},
 if c =? 0 then w else set_errno w EIO).

(** [curlstream_read]: the result, the bytes copied into [buf], the box
  and the world afterwards.  [None]: the process does not survive the
  call. *)
Definition curlstream_read (s : CurlStreamBox) (n : nat) (w : World)
: option (Z * bytes * CurlStreamBox * World) :=
match stm s with
| Some st => Some (read_stream s st n w)
| None =>
    '(c, s1, w1) ← open_helper s w;
    if c =? 0 then
      st ← stm s1; Some (read_stream s1 st n w1)
    else Some (c, [], s1, w1)
end.

(** [curlstream_seek] *)
Definition curlstream_seek (s : CurlStreamBox) (o : Z) (whence : Z) (w : World)
: Z * CurlStreamBox * World :=
if whence =? SEEK_SET then
  (o, {| url := url s; ofs := o; stm := None |}, w)
else if whence =? SEEK_CUR then
  let o' := to_off_t (ofs s + o) in
  (o', {| url := url s; ofs := o'; stm := None |}, w)
else if whence =? SEEK_END then (-1, s, set_errno w ESPIPE)
else (-1, s, w).

(** [curlstream_close]: the stream and the box are destroyed; nothing
  is reported. *)
Definition curlstream_close (s : CurlStreamBox) (w : World) : World := w.

End Client.

(** ** The mock server of [test_httpd.cc] *)

Definition to_size_t (z : Z) : Z := z mod 2 ^ 64.
Definition ULLONG_MAX : Z := 2 ^ 64 - 1.

Module Str.

Definition is_space (a : ascii) : bool :=
let c := nat_of_ascii a in
(c =? 32)%nat || ((9 <=? c)%nat && (c <=? 13)%nat).

Definition digit_of (a : ascii) : option Z :=
let c := nat_of_ascii a in
if (48 <=? c)%nat && (c <=? 57)%nat then Some (Z.of_nat (c - 48)) else None.

Fixpoint skip_space (s : string) : string :=
match s with
| String a r => if is_space a then skip_space r else s
| EmptyString => s
end.

Fixpoint digits (acc : Z) (s : string) : Z :=
match s with
| String a r =>
    match digit_of a with
    | Some d => digits (10 * acc + d) r
    | None => acc
    end
| EmptyString => acc
end.

(** [strtoull(s, nullptr, 10)] *)
Definition strtoull (s : string) : Z :=
let s := skip_space s in
let '(neg, s) :=
  match s with
  | String "-" r => (true, r)
  | String "+" r => (false, r)
  | _ => (false, s)
  end in
let v := digits 0 s in
if ULLONG_MAX <? v then ULLONG_MAX
else if neg then to_size_t (- v) else v.

(** [std::string::find(c)] and [rfind(c)] *)
Fixpoint find (c : ascii) (s : string) : option nat :=
match s with
| EmptyString => None
| String a r => if Ascii.eqb a c then Some O else S <$> find c r
end.

Fixpoint rfind (c : ascii) (s : string) : option nat :=
match s with
| EmptyString => None
| String a r =>
    match rfind c r with
    | Some i => Some (S i)
    | None => if Ascii.eqb a c then Some O else None
    end
end.

(** [s.substr(pos)] *)
Definition substr_from (pos : nat) (s : string) : string :=
String.substring pos (String.length s - pos) s.

Fixpoint strip_prefix (p s : string) : option string :=
match p, s with
| EmptyString, _ => Some s
| String a p', String b s' => if Ascii.eqb a b then strip_prefix p' s' else None
| String _ _, EmptyString => None
end.

End Str.

(** [get_range_header]: the bounds [(lo, hi)] when it returns true. *)
Definition get_range_header (h : headers) (sz : Z) : option (Z * Z) :=
  rangehdr ← h !! "range"%string;
  if (String.length rangehdr <? 8)%nat
     || negb (String.eqb (String.substring 0 6 rangehdr) "bytes=")
  then None
  else
    dashpos ← Str.find "-" rangehdr;
    if negb (bool_decide (Str.rfind "-" rangehdr = Some dashpos)) || (dashpos <? 7)%nat
    then None
    else
      let lo := Str.strtoull (String.substring 6 (dashpos - 6) rangehdr) in
      if (dashpos <? String.length rangehdr - 1)%nat then
        let hi := Str.strtoull (Str.substr_from (dashpos + 1) rangehdr) in
        if lo <=? hi then Some (lo, hi) else None
      else Some (lo, to_size_t (sz - 1)).

(** [class TestHTTPd]; [disk] is the file system its [open] reads. *)
Record TestHTTPd := {
  files_ : gmap string string;
  disk : gmap string bytes;
  requests_to_fail_ : nat;
  truncate_response_ : Z
}.

(** What the server queues: the status, the length announced to
    [MHD_create_response_from_callback] and the bytes its content reader
    hands out before it ends the response. *)
Record response := {
  rs_code : Z;
  rs_declared : Z;
  rs_body : bytes
}.

Definition empty_response (code : Z) : response :=
  {| rs_code := code; rs_declared := 0; rs_body := [] |}.

(** [TestHTTPd::OnRequest] for the path [path] and the request headers [h]. *)
Definition OnRequest (d : TestHTTPd) (path : string) (h : headers)
  : response * TestHTTPd :=
  match requests_to_fail_ d with
  | O =>
      match files_ d !! path ≫= fun f => disk d !! f with
      | Some content =>
          let st_size := Z.of_nat (length content) in
          let served := {| files_ := files_ d; disk := disk d;
                           requests_to_fail_ := requests_to_fail_ d;
                           truncate_response_ := -1 |} in
          match get_range_header h st_size with
          | Some (lo, hi) =>
              if lo <? st_size then
                let len := to_size_t (hi - lo + 1) in
                let actual_response_length :=
                  if 0 <=? truncate_response_ d
                  then Z.min (to_size_t (truncate_response_ d)) len else len in
                ({| rs_code := 206; rs_declared := len;
                    rs_body := take (Z.to_nat actual_response_length)
                                    (drop (Z.to_nat lo) content) |}, served)
              else (empty_response 416, d)
          | None =>
              let actual_response_length :=
                if 0 <=? truncate_response_ d
                then Z.min (truncate_response_ d) st_size else st_size in
              ({| rs_code := 200; rs_declared := st_size;
                  rs_body := take (Z.to_nat actual_response_length) content |}, served)
          end
      | None => (empty_response 404, d)
      end
  | S k =>
      (empty_response 500,
       {| files_ := files_ d; disk := disk d;
          requests_to_fail_ := k; truncate_response_ := truncate_response_ d |})
  end.

(** [TruncateNextResponse] and [FailNextRequests] *)
Definition TruncateNextResponse (d : TestHTTPd) (offset : Z) : TestHTTPd :=
  {| files_ := files_ d; disk := disk d;
     requests_to_fail_ := requests_to_fail_ d;
     truncate_response_ := to_ssize_t offset |}.

Definition FailNextRequests (d : TestHTTPd) (n : nat) : TestHTTPd :=
  {| files_ := files_ d; disk := disk d;
     requests_to_fail_ := n; truncate_response_ := truncate_response_ d |}.

(** *** libcurl talking to the mock server

    As the note at the head of the reader says, libcurl checks the body
    received against the announced length and ends the transfer with
    [CURLE_PARTIAL_FILE] when they differ. *)
Definition transfer_result (r : response) : Z :=
  if Z.of_nat (length (rs_body r)) =? rs_declared r
  then CURLE_OK else CURLE_PARTIAL_FILE.

(** A transfer [t] carries a response with status [code], body [b] and
    final result [res], whatever the pace at which libcurl hands it over:
    every call succeeds, reports either no status yet or [code], and the
    chunks delivered add up to [b]. *)
Fixpoint carries (t : transfer) (code : Z) (b : bytes) (res : Z) : Prop :=
  match t with
  | Finish body info result =>
      info = code /\ result = res /\ concat body = b
  | Progress e rest =>
      pe_mc e = true /\
      (pe_info e = Some 0 \/ pe_info e = Some code) /\
      exists b', b = concat (pe_body e) ++ b' /\ carries rest code b' res
  end.

(** One such pace: the status line first, then the body in chunks of
    [k] bytes, one per call. *)
Fixpoint chunks_of (fuel k : nat) (b : bytes) : list bytes :=
  match fuel, b with
  | S f, _ :: _ => take k b :: chunks_of f k (drop k b)
  | _, _ => []
  end.

Definition steady (k : nat) (r : response) : transfer :=
  Progress {| pe_body := []; pe_mc := true; pe_info := Some (rs_code r) |}
    (foldr (fun c t => Progress {| pe_body := [c]; pe_mc := true;
                                   pe_info := Some (rs_code r) |} t)
           (Finish [] (rs_code r) (transfer_result r))
           (chunks_of (length (rs_body r)) (S k) (rs_body r))).

Definition CURLE_COULDNT_CONNECT : Z := 7.

(** The server listens on [http://localhost:8378]. *)
Definition TEST_HTTPD_URL : string := "http://localhost:8378".

Record Httpd_net := {
  server : TestHTTPd;
  requests : list request      (* the requests received, oldest first *)
}.

Definition fresh_session (t : transfer) : session :=
  {| s_multi_init := true; s_easy_init := true; s_add_handle := true;
     s_setopt_fail := None; s_wire := t; s_waits := [] |}.

(** Issuing a request against the mock server; [pace] is how libcurl
    hands a response over. *)
Definition connect_httpd (pace : response -> transfer)
    (nt : Httpd_net) (rq : request) : session * Httpd_net :=
  match Str.strip_prefix TEST_HTTPD_URL (rq_url rq) with
  | Some path =>
      let '(r, d) := OnRequest (server nt) path (rq_headers rq) in
      (fresh_session (pace r),
       {| server := d; requests := requests nt ++ [rq] |})
  | None => (fresh_session (Finish [] 0 CURLE_COULDNT_CONNECT), nt)
  end.

(** ** The buffered hFILE layer *)

(** Error kinds of the buffered layer, as errno values. *)
Definition ENOTSUP : Z := 95.
Definition EOF : Z := -1.

Inductive hmode := RD | WR.

(** [memcpy(buf + pos, data, length data)] *)
Definition splice (buf : bytes) (pos : nat) (data : bytes) : bytes :=
  take pos buf ++ data ++ drop (pos + length data) buf.

Section hFILE_layer.

(** [Env] is the world outside the stream (files, memory, network,
  [errno]); [B] is the private state of the stream's backend. *)
Variables Env B : Type.
Variable errno_of : Env -> Z.

(** Modelled from the spec: the backend capability record
  [struct hFILE_backend] of [hfile_internal.h], with the function
  pointers [read], [write], [seek], [flush], [close] in this order;
  [close] is mandatory, the others may be null, meaning unsupported.
  A read hands back its [ssize_t] result and the bytes it stored at the
  start of the area it was given; [None] for a read means that the call
  does not return. *)
Record hFILE_backend := {
read : option (B -> nat -> Env -> option (Z * bytes * B * Env));
write : option (B -> bytes -> Env -> Z * B * Env);
seek : option (B -> Z -> Z -> Env -> Z * B * Env);
flush : option (B -> Env -> Z * B * Env);
close : B -> Env -> Z * Env
}.

(** Modelled from the spec: the stream record [hFILE] of [hfile.c].
  [buffer] has a fixed capacity; the valid bytes occupy the indices
  [begin, end_); [offset] is the absolute position of the byte at
  index [begin]; [err] is the sticky error, 0 when healthy. *)
Record hFILE := {
buffer : bytes;
begin : nat;
end_ : nat;
mode : hmode;
at_eof : bool;
err : Z;
offset : Z;
backend : hFILE_backend;
bstate : B
}.

Definition capacity (f : hFILE) : nat := length (buffer f).

(** The valid bytes, [buffer[begin .. end_)]. *)
Definition window (f : hFILE) : bytes :=
take (end_ f - begin f) (drop (begin f) (buffer f)).

Definition with_window (f : hFILE) (buf : bytes) (b e : nat) (off : Z) : hFILE :=
{| buffer := buf; begin := b; end_ := e; mode := mode f;
   at_eof := at_eof f; err := err f; offset := off;
   backend := backend f; bstate := bstate f |}.

Definition with_err (f : hFILE) (e : Z) : hFILE :=
{| buffer := buffer f; begin := begin f; end_ := end_ f; mode := mode f;
   at_eof := at_eof f; err := e; offset := offset f;
   backend := backend f; bstate := bstate f |}.

Definition with_eof (f : hFILE) : hFILE :=
{| buffer := buffer f; begin := begin f; end_ := end_ f; mode := mode f;
   at_eof := true; err := err f; offset := offset f;
   backend := backend f; bstate := bstate f |}.

Definition with_bstate (f : hFILE) (b : B) : hFILE :=
{| buffer := buffer f; begin := begin f; end_ := end_ f; mode := mode f;
   at_eof := at_eof f; err := err f; offset := offset f;
   backend := backend f; bstate := b |}.

(** Modelled from the spec: [hfile_init], the part of [hopen] that
  allocates the stream and its buffer of [cap] bytes. *)
Definition hfile_init (cap : nat) (m : hmode) (bk : hFILE_backend) (b : B) : hFILE :=
{| buffer := replicate cap x00; begin := 0; end_ := 0; mode := m;
   at_eof := false; err := 0; offset := 0; backend := bk; bstate := b |}.

(** Modelled from the spec: [htell], the caller's logical offset:
  [offset + (end - begin)] in write mode, where the window holds bytes
  not yet delivered; [offset] in read mode, where [offset] advances by
  the amount consumed. *)
Definition htell (f : hFILE) : Z :=
match mode f with
| WR => offset f + Z.of_nat (end_ f - begin f)
| RD => offset f
end.

(** Modelled from the spec: [herrno], the sticky error. *)
Definition herrno (f : hFILE) : Z := err f.

(** Consuming [k] buffered bytes in read mode. *)
Definition advance (f : hFILE) (k : nat) : hFILE :=
with_window f (buffer f) (begin f + k) (end_ f) (offset f + Z.of_nat k).

(** Modelled from the spec: the buffer refill contract of read mode,
  [refill_buffer] of [hfile.c].  "When begin == end: set offset +=
  (end - begin); begin = end = 0; call backend.read(buffer, capacity);
  on return r > 0 set end = r; on r == 0 set at_eof; on r < 0 set
  err." *)
Definition refill (rd : B -> nat -> Env -> option (Z * bytes * B * Env))
  (f : hFILE) (env : Env) : option (Z * hFILE * Env) :=
let f0 := with_window f (buffer f) 0 0
            (offset f + Z.of_nat (end_ f - begin f)) in
'(r, out, b, env') ← rd (bstate f) (capacity f) env;
let f1 := with_bstate f0 b in
if 0 <? r then
  Some (r, with_window f1 (splice (buffer f1) 0 out) 0 (Z.to_nat r) (offset f1), env')
else if r =? 0 then Some (0, with_eof f1, env')
else Some (r, with_err f1 (errno_of env'), env').

(** Modelled from the spec: [hread] of [hfile.c].  "Returns k bytes
  copied into dst, 0 <= k <= n.  Returns 0 only at true end-of-stream.
  On first miss the buffer is refilled from the backend with a single
  backend read; short reads are permitted.  Returns -1 on error; err is
  set."  An errored stream fails again; a write-mode stream or a
  backend without [read] fails as unsupported. *)
Definition hread (f : hFILE) (n : nat) (env : Env)
: option (Z * bytes * hFILE * Env) :=
if negb (err f =? 0) then Some (-1, [], f, env)
else
  match mode f, read (backend f) with
  | RD, Some rd =>
      let k0 := Nat.min n (end_ f - begin f) in
      let out0 := take k0 (window f) in
      let f1 := advance f k0 in
      if (k0 =? n)%nat then Some (Z.of_nat n, out0, f1, env)
      else
        '(r, f2, env') ← refill rd f1 env;
        if r <? 0 then Some (-1, [], f2, env')
        else
          let k1 := Nat.min (n - k0) (end_ f2 - begin f2) in
          Some (Z.of_nat (k0 + k1), out0 ++ take k1 (window f2),
                advance f2 k1, env')
  | _, _ => Some (-1, [], with_err f ENOTSUP, env)
  end.

(** Modelled from the spec: the loop of [hpeek].  "If the current
  buffered region is smaller, it must slide remaining bytes to
  buffer[0] and issue further backend reads until satisfied, EOF, or
  error.  Peek must never return more than capacity."  Each round that
  continues has stored at least one more byte, so [capacity] rounds
  are all the loop can make; [fuel] counts them. *)
Fixpoint peek_fill (fuel : nat)
  (rd : B -> nat -> Env -> option (Z * bytes * B * Env))
  (f : hFILE) (n : nat) (env : Env) : option (Z * hFILE * Env) :=
if (n <=? end_ f - begin f)%nat then Some (0, f, env)
else if (capacity f <=? end_ f - begin f)%nat then Some (0, f, env)
else
  match fuel with
  | O => Some (0, f, env)
  | S fuel' =>
      let len := (end_ f - begin f)%nat in
      let slid := with_window f (splice (buffer f) 0 (window f)) 0 len (offset f) in
      '(r, out, b, env') ← rd (bstate f) (capacity f - len)%nat env;
      let f1 := with_bstate slid b in
      if 0 <? r then
        peek_fill fuel' rd
          (with_window f1 (splice (buffer f1) len out) 0 (len + Z.to_nat r)
                       (offset f1))
          n env'
      else if r =? 0 then Some (0, with_eof f1, env')
      else Some (r, with_err f1 (errno_of env'), env')
  end.

(** Modelled from the spec: [hpeek] of [hfile.c].  "Like hread but does
  not advance the logical offset.  Must satisfy k <= n and k <=
  capacity." *)
Definition hpeek (f : hFILE) (n : nat) (env : Env)
: option (Z * bytes * hFILE * Env) :=
if negb (err f =? 0) then Some (-1, [], f, env)
else
  match mode f, read (backend f) with
  | RD, Some rd =>
      '(r, f1, env') ← peek_fill (capacity f) rd f n env;
      if r <? 0 then Some (-1, [], f1, env')
      else
        let k := Nat.min n (end_ f1 - begin f1) in
        Some (Z.of_nat k, take k (window f1), f1, env')
  | _, _ => Some (-1, [], with_err f ENOTSUP, env)
  end.

(** Modelled from the spec: [hgetc], "equivalent to hread of one byte";
  the byte as an int, or [EOF]. *)
Definition hgetc (f : hFILE) (env : Env) : option (Z * hFILE * Env) :=
'(r, out, f', env') ← hread f 1 env;
match out with
| c :: _ => if r =? 1 then Some (Z.of_N (Byte.to_N c), f', env')
            else Some (EOF, f', env')
| [] => Some (EOF, f', env')
end.

(** Modelled from the spec: draining the pending bytes of a write-mode
  stream with backend writes, [flush_buffer] of [hfile.c].  A write
  may accept only a part; one that accepts nothing or fails ends the
  drain with the stream in error.  Every round that continues has
  removed a pending byte; [fuel] counts the rounds. *)
Fixpoint drain (fuel : nat) (wr : B -> bytes -> Env -> Z * B * Env)
  (pending : bytes) (b : B) (env : Env) : Z * bytes * B * Env :=
match pending, fuel with
| [], _ => (0, [], b, env)
| _, O => (-1, pending, b, env)
| _, S fuel' =>
    let '(r, b', env') := wr b pending env in
    if 0 <? r then drain fuel' wr (drop (Z.to_nat r) pending) b' env'
    else (-1, pending, b', env')
end.

Definition flush_buffer (f : hFILE) (env : Env) : Z * hFILE * Env :=
match mode f with
| RD => (0, f, env)
| WR =>
    match window f with
    | [] => (0, with_window f (buffer f) 0 0 (offset f), env)
    | pending =>
        match write (backend f) with
        | None => (-1, with_err f ENOTSUP, env)
        | Some wr =>
            let '(r, rest, b, env') :=
              drain (length pending) wr pending (bstate f) env in
            let written := (length pending - length rest)%nat in
            let f1 := with_bstate f b in
            if r <? 0 then
              (-1, with_err (with_window f1 (buffer f1) (begin f1 + written)
                               (end_ f1) (offset f1 + Z.of_nat written))
                            (if errno_of env' =? 0 then EIO else errno_of env'),
               env')
            else
              (0, with_window f1 (buffer f1) 0 0
                    (offset f1 + Z.of_nat written), env')
        end
    end
end.

(** Staging one byte: it is stored at index [end_]; "a backend write is
  issued when the buffer is full". *)
Definition stage (f : hFILE) (c : byte) (env : Env) : Z * hFILE * Env :=
let f1 := with_window f (splice (buffer f) (end_ f) [c]) (begin f)
            (S (end_ f)) (offset f) in
if (capacity f1 <=? end_ f1)%nat then flush_buffer f1 env
else (0, f1, env).

Fixpoint stage_all (f : hFILE) (data : bytes) (env : Env) : Z * hFILE * Env :=
match data with
| [] => (0, f, env)
| c :: rest =>
    let '(r, f1, env1) := stage f c env in
    if r <? 0 then (r, f1, env1) else stage_all f1 rest env1
end.

(** Modelled from the spec: [hwrite] of [hfile.c].  "Returns n on
  success, -1 on error.  Data is staged in the buffer; a backend write
  is issued when the buffer is full, or on hflush, hseek, or hclose."
  An errored stream fails again; a read-mode stream or a backend
  without [write] fails as unsupported. *)
Definition hwrite (f : hFILE) (src : bytes) (env : Env) : Z * hFILE * Env :=
if negb (err f =? 0) then (-1, f, env)
else
  match mode f, write (backend f) with
  | WR, Some _ =>
      let '(r, f1, env1) := stage_all f src env in
      if r <? 0 then (-1, f1, env1) else (Z.of_nat (length src), f1, env1)
  | _, _ => (-1, with_err f ENOTSUP, env)
  end.

(** Modelled from the spec: [hputc], the byte written or [EOF]. *)
Definition hputc (c : byte) (f : hFILE) (env : Env) : Z * hFILE * Env :=
let '(r, f1, env1) := hwrite f [c] env in
if r =? 1 then (Z.of_N (Byte.to_N c), f1, env1) else (EOF, f1, env1).

(** Modelled from the spec: [hflush] of [hfile.c].  "Drains any pending
  writes to the backend."  A backend without [flush] makes it fail as
  unsupported. *)
Definition hflush (f : hFILE) (env : Env) : Z * hFILE * Env :=
if negb (err f =? 0) then (EOF, f, env)
else
  match flush (backend f) with
  | None => (EOF, with_err f ENOTSUP, env)
  | Some fl =>
      let '(r, f1, env1) := flush_buffer f env in
      if r <? 0 then (EOF, f1, env1)
      else
        let '(r, b, env2) := fl (bstate f1) env1 in
        if r <? 0 then (EOF, with_err (with_bstate f1 b) (errno_of env2), env2)
        else (0, with_bstate f1 b, env2)
  end.

(** Modelled from the spec: [hclose] of [hfile.c].  "Flushes writes,
  calls backend close, releases memory.  Returns non-zero if either
  flush or close failed."  The stream is gone afterwards.  The result
  comes with the two statuses it is made of. *)
Definition hclose_parts (f : hFILE) (env : Env) : Z * Z * Env :=
let '(r1, f1, env1) := flush_buffer f env in
let '(r2, env2) := close (backend f1) (bstate f1) env1 in
(r1, r2, env2).

Definition hclose (f : hFILE) (env : Env) : Z * Env :=
let '(r1, r2, env2) := hclose_parts f env in
(if (r1 <? 0) || (r2 <? 0) then EOF else 0, env2).

End hFILE_layer.

(** ** The network backend, [hfile_net.c] *)

Section hfile_net.

Variable Net : Type.
Variable connect : Net -> request -> session * Net.
Variable NDEBUG : bool.

Abbreviation World' := (World Net).

(** [hFILE_net] is an [hFILE] whose private state is [CURLSTREAM netfp]. *)
Definition net_read (netfp : CurlStreamBox) (nbytes : nat) (w : World')
: option (Z * bytes * CurlStreamBox * World') :=
curlstream_read Net connect NDEBUG netfp nbytes w.

Definition net_seek (netfp : CurlStreamBox) (offset whence : Z) (w : World')
: Z * CurlStreamBox * World' :=
curlstream_seek Net netfp offset whence w.

Definition net_close (netfp : CurlStreamBox) (w : World') : Z * World' :=
(0, curlstream_close Net netfp w).

(** [{ net_read, NULL, net_seek, NULL, net_close }] *)
Definition net_backend : hFILE_backend World' CurlStreamBox :=
{| read := Some net_read; write := None; seek := Some net_seek;
   flush := None; close := net_close |}.

(** [hopen_net]; the buffer has [cap] bytes.  The outer [None]: the
  process does not survive the call; the inner one: NULL is returned. *)
Definition hopen_net (cap : nat) (filename : string) (m : hmode) (w : World')
: option (option (hFILE World' CurlStreamBox) * World') :=
'(c, netfp, w1) ← curlstream_open Net connect NDEBUG filename 0 w;
match netfp with
| Some box => Some (Some (hfile_init World' CurlStreamBox cap m net_backend box), w1)
| None => Some (None, w1)
end.

(** A caller that reads [n] bytes at a time until the result is no
  longer positive, as [hfile_dropall] of [http_tests.cc] does, here
  directly on the backend's read.  It yields the last result and the
  bytes gathered; [fuel] bounds the number of reads. *)
Fixpoint read_all (fuel : nat) (s : CurlStreamBox) (n : nat) (w : World')
: option (Z * bytes * CurlStreamBox * World') :=
match fuel with
| O => None
| S fuel' =>
    '(c, out, s1, w1) ← net_read s n w;
    if 0 <? c then
      '(c', rest, s2, w2) ← read_all fuel' s1 n w1;
      Some (c', out ++ rest, s2, w2)
    else Some (c, [], s1, w1)
end.

End hfile_net.

(** ** The file backend *)

Module Fd.

(** Modelled from the spec: the file backend, which "wraps a POSIX file
  descriptor; read/write/seek delegate directly; close closes the
  descriptor".  The world is the file system; the private state is the
  open file and its position. *)
Record Files := {
fs : gmap string bytes;
fs_errno : Z
}.

Record fd := {
fd_path : string;
fd_pos : nat
}.

Definition content (env : Files) (d : fd) : bytes :=
default [] (fs env !! fd_path d).

Definition fd_read (d : fd) (n : nat) (env : Files)
: option (Z * bytes * fd * Files) :=
let out := take n (drop (fd_pos d) (content env d)) in
Some (Z.of_nat (length out), out,
      {| fd_path := fd_path d; fd_pos := fd_pos d + length out |}, env).

Definition fd_write (d : fd) (data : bytes) (env : Files) : Z * fd * Files :=
let old := content env d in
let padded := old ++ replicate (fd_pos d - length old) x00 in
(Z.of_nat (length data),
 {| fd_path := fd_path d; fd_pos := fd_pos d + length data |},
 {| fs := <[fd_path d := splice padded (fd_pos d) data]> (fs env);
    fs_errno := fs_errno env |}).

Definition fd_seek (d : fd) (off whence : Z) (env : Files) : Z * fd * Files :=
let target :=
  if whence =? SEEK_SET then off
  else if whence =? SEEK_CUR then Z.of_nat (fd_pos d) + off
  else if whence =? SEEK_END then Z.of_nat (length (content env d)) + off
  else -1 in
if target <? 0 then (-1, d, {| fs := fs env; fs_errno := EINVAL |})
else (target, {| fd_path := fd_path d; fd_pos := Z.to_nat target |}, env).

Definition fd_flush (d : fd) (env : Files) : Z * fd * Files := (0, d, env).

Definition fd_close (d : fd) (env : Files) : Z * Files := (0, env).

Definition fd_backend : hFILE_backend Files fd :=
{| read := Some fd_read; write := Some fd_write; seek := Some fd_seek;
   flush := Some fd_flush; close := fd_close |}.

(** Modelled from the spec: [hopen] of a local path; "r" needs the file
  to exist, "w" creates or empties it. *)
Definition hopen_file (cap : nat) (path : string) (m : hmode) (env : Files)
: option (hFILE Files fd) * Files :=
let d := {| fd_path := path; fd_pos := 0 |} in
match m with
| RD =>
    match fs env !! path with
    | Some _ => (Some (hfile_init Files fd cap RD fd_backend d), env)
    | None => (None, {| fs := fs env; fs_errno := ENOENT |})
    end
| WR =>
    (Some (hfile_init Files fd cap WR fd_backend d),
     {| fs := <[path := []]> (fs env); fs_errno := fs_errno env |})
end.

End Fd.

(** ** The [mem:] backend *)

Module Mem.

(** Modelled from the spec: the memory backend.  The world is the
  caller's two variables: the block [*pmbuffer] points to (empty for a
  null pointer) and [*pmlength].  "Write mode: writes append; the
  backend reallocates *pmbuffer as needed (doubling growth) and updates
  *pmlength to the allocated capacity during writing; on close,
  *pmlength is set to the final written size.  Read mode: reads bytes
  from *pmbuffer[0 .. *pmlength); seek supported." *)
Record Memory := {
mbuffer : bytes;
mlength : nat;
mem_errno : Z
}.

Record mem := {
mem_mode : hmode;
mem_pos : nat;      (* bytes written or read so far *)
mem_cap : nat       (* size of the block the backend has allocated *)
}.

(** Doubling [cap] until it holds [needed] bytes. *)
Fixpoint grow (fuel cap needed : nat) : nat :=
if (needed <=? cap)%nat then cap
else
  match fuel with
  | O => needed
  | S fuel' => grow fuel' (2 * cap) needed
  end.

(** [realloc] to [n] bytes: the old bytes that fit are kept. *)
Definition resize (block : bytes) (n : nat) : bytes :=
take n (block ++ replicate n x00).

Definition mem_write (b : mem) (data : bytes) (env : Memory) : Z * mem * Memory :=
let needed := (mem_pos b + length data)%nat in
let cap := if (needed <=? mem_cap b)%nat then mem_cap b
           else grow needed (Nat.max 1 (mem_cap b)) needed in
let block := if (needed <=? mem_cap b)%nat then mbuffer env
             else resize (mbuffer env) cap in
(Z.of_nat (length data),
 {| mem_mode := mem_mode b; mem_pos := needed; mem_cap := cap |},
 {| mbuffer := splice block (mem_pos b) data; mlength := cap;
    mem_errno := mem_errno env |}).

Definition mem_read (b : mem) (n : nat) (env : Memory)
: option (Z * bytes * mem * Memory) :=
let out := take n (drop (mem_pos b) (take (mlength env) (mbuffer env))) in
Some (Z.of_nat (length out), out,
      {| mem_mode := mem_mode b; mem_pos := mem_pos b + length out;
         mem_cap := mem_cap b |}, env).

Definition mem_seek (b : mem) (off whence : Z) (env : Memory) : Z * mem * Memory :=
let target :=
  if whence =? SEEK_SET then off
  else if whence =? SEEK_CUR then Z.of_nat (mem_pos b) + off
  else if whence =? SEEK_END then Z.of_nat (mlength env) + off
  else -1 in
if (target <? 0) || (Z.of_nat (mlength env) <? target)
then (-1, b, {| mbuffer := mbuffer env; mlength := mlength env;
                mem_errno := EINVAL |})
else (target, {| mem_mode := mem_mode b; mem_pos := Z.to_nat target;
                 mem_cap := mem_cap b |}, env).

Definition mem_close (b : mem) (env : Memory) : Z * Memory :=
match mem_mode b with
| WR => (0, {| mbuffer := mbuffer env; mlength := mem_pos b;
               mem_errno := mem_errno env |})
| RD => (0, env)
end.

Definition mem_backend : hFILE_backend Memory mem :=
{| read := Some mem_read; write := Some mem_write; seek := Some mem_seek;
   flush := None; close := mem_close |}.

(** Modelled from the spec: [hopen] of a [mem:] URL, given the two
  caller variables the URL points to. *)
Definition hopen_mem (cap : nat) (m : hmode) (env : Memory)
: hFILE Memory mem * Memory :=
(hfile_init Memory mem cap m mem_backend
   {| mem_mode := m; mem_pos := 0; mem_cap := 0 |}, env).

End Mem.

(** ** Auxiliary notions for the statements *)

(** The request a new session at offset [o] sends: a [range] header
    exactly when [o] is not zero. *)
Definition request_at (u : string) (o : Z) : request :=
  {| rq_url := u;
     rq_headers := if o =? 0 then ∅
                   else {[ "range"%string := ("bytes=" +:+ pretty o +:+ "-")%string ]} |}.

(** A network that answers the successive requests with sessions fixed
    in advance, whatever is asked. *)
Definition connect_canned (nt : list session) (rq : request) : session * list session :=
  match nt with
  | ss :: rest => (ss, rest)
  | [] => (fresh_session (Finish [] 0 CURLE_COULDNT_CONNECT), [])
  end.

(** The queue never holds an empty chunk. *)
Definition fifo_ok (q : FifoBuffer.t) : Prop := Forall (fun c => c <> []) q.

(** A stream in the course of receiving a response of status [code]
    whose final result will be [res]: [rem] is the part of the body not
    yet handed to the caller, held by the queue and, while the transfer
    runs, by the events still to come. *)
Definition receiving (st : CurlStream) (code : Z) (rem : bytes) (res : Z) : Prop :=
  fifo_ok (buf_ st) /\
  Forall (fun ok => ok = true) (waits_ st) /\
  match final_msg_ st with
  | Some r => r = res /\ response_code_ st = code /\ rem = concat (buf_ st)
  | None =>
      (response_code_ st = code \/ response_code_ st = 0) /\
      exists b', carries (wire_ st) code b' res /\ rem = concat (buf_ st) ++ b'
  end.

(** ** Auxiliary notions for the buffered layer *)

Section hFILE_notions.

Variables Env B : Type.
Variable errno_of : Env -> Z.

(** The indices of a stream are in order and within the buffer. *)
Definition wf (f : hFILE Env B) : Prop :=
(begin Env B f <= end_ Env B f <= capacity Env B f)%nat.

(** What a backend read owes its caller: it returns no more than it was
  asked for, the bytes it stored are as many as it returns, and a
  failure leaves a non-zero [errno]. *)
Definition read_ok (rd : B -> nat -> Env -> option (Z * bytes * B * Env)) : Prop :=
forall b n env r out b' env',
  rd b n env = Some (r, out, b', env') ->
  r <= Z.of_nat n /\
  (0 < r -> length out = Z.to_nat r) /\
  (r < 0 -> errno_of env' <> 0).

(** A caller's read-side operations and the record of a run of them:
  for each call, the offset [htell] reports before it, the result, the
  bytes received, and the offset reported after it. *)
Inductive rop := Read (n : nat) | Peek (n : nat).

Record step_log := {
lg_op : rop;
lg_tell_before : Z;
lg_result : Z;
lg_bytes : bytes;
lg_tell_after : Z
}.

Fixpoint run_ops (f : hFILE Env B) (ops : list rop) (env : Env)
: option (list step_log * hFILE Env B * Env) :=
match ops with
| [] => Some ([], f, env)
| op :: rest =>
    '(r, out, f1, env1) ←
      match op with
      | Read n => hread Env B errno_of f n env
      | Peek n => hpeek Env B errno_of f n env
      end;
    '(logs, f2, env2) ← run_ops f1 rest env1;
    Some ({| lg_op := op; lg_tell_before := htell Env B f; lg_result := r;
             lg_bytes := out; lg_tell_after := htell Env B f1 |} :: logs,
          f2, env2)
end.

(** The bytes the [hread] calls of a run returned, in order. *)
Fixpoint bytes_read (logs : list step_log) : bytes :=
match logs with
| [] => []
| l :: rest =>
    match lg_op l with
    | Read _ => lg_bytes l ++ bytes_read rest
    | Peek _ => bytes_read rest
    end
end.

(** Successive [hread] calls of the sizes [ns]; each result with the
  bytes received. *)
Fixpoint hread_seq (f : hFILE Env B) (ns : list nat) (env : Env)
: option (list (Z * bytes) * hFILE Env B * Env) :=
match ns with
| [] => Some ([], f, env)
| n :: rest =>
    '(r, out, f1, env1) ← hread Env B errno_of f n env;
    '(rs, f2, env2) ← hread_seq f1 rest env1;
    Some ((r, out) :: rs, f2, env2)
end.

(** Successive [hgetc] calls, [k] of them. *)
Fixpoint hgetc_seq (f : hFILE Env B) (k : nat) (env : Env)
: option (list Z * hFILE Env B * Env) :=
match k with
| O => Some ([], f, env)
| S k' =>
    '(c, f1, env1) ← hgetc Env B errno_of f env;
    '(cs, f2, env2) ← hgetc_seq f1 k' env1;
    Some (c :: cs, f2, env2)
end.

(** Successive [hputc] calls, one per byte of [cs]. *)
Fixpoint hputc_seq (f : hFILE Env B) (cs : bytes) (env : Env)
: list Z * hFILE Env B * Env :=
match cs with
| [] => ([], f, env)
| c :: rest =>
    let '(r, f1, env1) := hputc Env B errno_of c f env in
    let '(rs, f2, env2) := hputc_seq f1 rest env1 in
    (r :: rs, f2, env2)
end.

(** Successive [hwrite] calls, one per element of [ds]. *)
Fixpoint hwrite_seq (f : hFILE Env B) (ds : list bytes) (env : Env)
: list Z * hFILE Env B * Env :=
match ds with
| [] => ([], f, env)
| d :: rest =>
    let '(r, f1, env1) := hwrite Env B errno_of f d env in
    let '(rs, f2, env2) := hwrite_seq f1 rest env1 in
    (r :: rs, f2, env2)
end.

End hFILE_notions.

(** Reads of the sizes [ns] that follow the byte sequence [rest]: each
    returns a prefix of what is left, of at most the size asked for,
    reports its length, and is empty only if nothing is left or nothing
    was asked for. *)
Fixpoint reads_follow (rest : bytes) (ns : list nat) (rs : list (Z * bytes)) : Prop :=
  match ns, rs with
  | [], [] => True
  | n :: ns', (r, out) :: rs' =>
      r = Z.of_nat (length out) /\ (length out <= n)%nat /\
      out = take (length out) rest /\
      ((0 < n)%nat -> rest <> [] -> out <> []) /\
      reads_follow (drop (length out) rest) ns' rs'
  | _, _ => False
  end.

(** The value of a byte as [hputc] and [hgetc] report it. *)
Definition byte_value (c : byte) : Z := Z.of_N (Byte.to_N c).

(** The 256 byte values in increasing order. *)
Definition all_bytes : bytes :=
  (fun i => default x00 (Byte.of_nat i)) <$> seq 0 256.

(** A read-mode stream on the file [path] that still has the bytes
    [rest] to deliver: those of its window, then those of the file from
    the descriptor's position on. *)
Definition serving (f : hFILE Fd.Files Fd.fd) (env : Fd.Files) (path : string)
    (rest : bytes) : Prop :=
  mode Fd.Files Fd.fd f = RD /\ err Fd.Files Fd.fd f = 0 /\ wf Fd.Files Fd.fd f /\
  backend Fd.Files Fd.fd f = Fd.fd_backend /\
  (0 < capacity Fd.Files Fd.fd f)%nat /\
  Fd.fd_path (bstate Fd.Files Fd.fd f) = path /\
  window Fd.Files Fd.fd f
    ++ drop (Fd.fd_pos (bstate Fd.Files Fd.fd f)) (default [] (Fd.fs env !! path))
  = rest.

(** A backend that takes whatever it is given to write: [good b env W]
    says that it has stored exactly the bytes [W] so far. *)
Definition sink_ok {Env B : Type} (wr : B -> bytes -> Env -> Z * B * Env)
    (good : B -> Env -> bytes -> Prop) : Prop :=
  forall b env W data,
    good b env W -> data <> [] ->
    exists b' env',
      wr b data env = (Z.of_nat (length data), b', env') /\ good b' env' (W ++ data).

(** A healthy write-mode stream through which the bytes [W] have gone:
    the backend has stored the first of them and the window holds the
    others, with room left. *)
Definition staging {Env B : Type} (wr : B -> bytes -> Env -> Z * B * Env)
    (good : B -> Env -> bytes -> Prop) (f : hFILE Env B) (env : Env) (W : bytes) : Prop :=
  mode Env B f = WR /\ err Env B f = 0 /\ begin Env B f = 0%nat /\
  (end_ Env B f < capacity Env B f)%nat /\
  write Env B (backend Env B f) = Some wr /\
  exists W0, good (bstate Env B f) env W0 /\ W0 ++ window Env B f = W.

(** What the file backend has stored for a descriptor opened for
    writing on [path]. *)
Definition fd_stored (path : string) (d : Fd.fd) (env : Fd.Files) (W : bytes) : Prop :=
  Fd.fs env !! path = Some W /\ Fd.fd_path d = path /\ Fd.fd_pos d = length W.

(** What the memory backend has stored, [env0] being the caller's
    variables when the stream was opened: nothing yet, the variables
    untouched; or [W] at the start of a block it has allocated, whose
    size [*pmlength] holds. *)
Definition mem_stored (env0 : Mem.Memory) (b : Mem.mem) (env : Mem.Memory) (W : bytes)
  : Prop :=
  Mem.mem_mode b = WR /\ Mem.mem_pos b = length W /\
  take (length W) (Mem.mbuffer env) = W /\
  (Mem.mem_cap b = 0%nat /\ env = env0 /\ W = []
   \/ (length W <= Mem.mem_cap b)%nat /\
      Mem.mem_cap b = length (Mem.mbuffer env) /\
      Mem.mlength env = Mem.mem_cap b).

(** ** Sample data for the concrete runs *)

Module Sample.

(** An 8-byte file, "ABCDEFGH", served as [/f]. *)
Definition F8 : bytes := [x41; x42; x43; x44; x45; x46; x47; x48].

Definition httpd : TestHTTPd :=
{| files_ := {[ "/f"%string := "data/f"%string ]};
   disk := {[ "data/f"%string := F8 ]};
   requests_to_fail_ := 0;
   truncate_response_ := -1 |}.

Definition url_f : string := "http://localhost:8378/f".

Definition world (d : TestHTTPd) : World Httpd_net :=
{| need_init := true; global_init := CURLE_OK; errno := 0;
   net := {| server := d; requests := [] |} |}.

(** libcurl handing the body over two bytes per call. *)
Definition connect := connect_httpd (steady 1).

(** A world whose network is a list of canned sessions. *)
Definition canned (l : list session) : World (list session) :=
{| need_init := true; global_init := CURLE_OK; errno := 0; net := l |}.

(** A transfer in which one call of [curl_multi_perform] fails after
  the status line has arrived, and the next delivers "AB". *)
Definition flaky : session :=
fresh_session
  (Progress {| pe_body := []; pe_mc := true; pe_info := Some 200 |}
     (Progress {| pe_body := []; pe_mc := false; pe_info := Some 200 |}
        (Progress {| pe_body := [[x41; x42]]; pe_mc := true; pe_info := Some 200 |}
           (Finish [] 200 CURLE_OK)))).

(** A stream whose transfer has completed and whose queue is drained. *)
Definition drained : CurlStream :=
set_final_msg (set_response_code (set_handles CurlStream_new true true) 200)
              (Some CURLE_OK).

(** A box without a session, as [curlstream_seek] leaves it. *)
Definition box_at (o : Z) : CurlStreamBox :=
{| url := url_f; ofs := o; stm := None |}.

(** A file system that holds the 8-byte file as [f]. *)
Definition files : Fd.Files :=
{| Fd.fs := {[ "f"%string := F8 ]}; Fd.fs_errno := 0 |}.

(** The file opened for reading with a buffer of 4 bytes. *)
Definition file_stream : hFILE Fd.Files Fd.fd :=
hfile_init Fd.Files Fd.fd 4 RD Fd.fd_backend {| Fd.fd_path := "f"; Fd.fd_pos := 0 |}.

(** The caller's variables as the [mem:] test of [test/hfile.c] sets
  them before opening for writing: a null [mbuffer] and an [mlength]
  that says nothing about it (999999 there, 99 here). *)
Definition caller : Mem.Memory :=
{| Mem.mbuffer := []; Mem.mlength := 99; Mem.mem_errno := 0 |}.

(** "hello, world!\n" *)
Definition hello : bytes :=
[x68; x65; x6c; x6c; x6f; x2c; x20; x77; x6f; x72; x6c; x64; x21; x0a].

End Sample.

Arguments read {Env B} _.
Arguments write {Env B} _.
Arguments seek {Env B} _.
Arguments flush {Env B} _.
Arguments close {Env B} _.
Arguments buffer {Env B} _.
Arguments begin {Env B} _.
Arguments end_ {Env B} _.
Arguments mode {Env B} _.
Arguments at_eof {Env B} _.
Arguments err {Env B} _.
Arguments offset {Env B} _.
Arguments backend {Env B} _.
Arguments bstate {Env B} _.
Arguments capacity {Env B} f.
Arguments window {Env B} f.
Arguments with_window {Env B} f buf b e off.
Arguments with_err {Env B} f e.
Arguments with_eof {Env B} f.
Arguments with_bstate {Env B} f b.
Arguments hfile_init {Env B} cap m bk b.
Arguments htell {Env B} f.
Arguments herrno {Env B} f.
Arguments advance {Env B} f k.
Arguments refill {Env B} errno_of rd f env.
Arguments hread {Env B} errno_of f n env.
Arguments peek_fill {Env B} errno_of fuel rd f n env.
Arguments hpeek {Env B} errno_of f n env.
Arguments hgetc {Env B} errno_of f env.
Arguments drain {Env B} fuel wr pending b env.
Arguments flush_buffer {Env B} errno_of f env.
Arguments stage {Env B} errno_of f c env.
Arguments stage_all {Env B} errno_of f data env.
Arguments hwrite {Env B} errno_of f src env.
Arguments hputc {Env B} errno_of c f env.
Arguments hflush {Env B} errno_of f env.
Arguments hclose_parts {Env B} errno_of f env.
Arguments hclose {Env B} errno_of f env.
Arguments wf {Env B} f.
Arguments read_ok {Env B} errno_of rd.
Arguments run_ops {Env B} errno_of f ops env.
Arguments hread_seq {Env B} errno_of f ns env.
Arguments hgetc_seq {Env B} errno_of f k env.
Arguments hputc_seq {Env B} errno_of f cs env.
Arguments hwrite_seq {Env B} errno_of f ds env.

(** ** Uses of the queue in sequence *)

(** One use of the queue: [write] of a chunk, or [readsome] of up to
    [n] bytes. *)
Inductive fifo_op :=
  | FWrite (s : bytes)
  | FRead (n : nat).

(** The uses [ops] applied in order to the queue [q]: the bytes the
    [readsome] calls copied out, one after the other, and the queue
    left. *)
Fixpoint fifo_run (q : FifoBuffer.t) (ops : list fifo_op) : bytes * FifoBuffer.t :=
  match ops with
  | [] => ([], q)
  | FWrite s :: rest => fifo_run (FifoBuffer.write q s) rest
  | FRead n :: rest =>
      let '(_, out, q1) := FifoBuffer.readsome q n in
      let '(outs, q2) := fifo_run q1 rest in
      (out ++ outs, q2)
  end.

(** The bytes the [write] calls among [ops] were given, in order. *)
Fixpoint fifo_written (ops : list fifo_op) : bytes :=
  match ops with
  | [] => []
  | FWrite s :: rest => s ++ fifo_written rest
  | FRead _ :: rest => fifo_written rest
  end.

(** ** Response headers: [trim] and [headerfunction] *)

(** trim from start: the characters before the first one that is not
    whitespace are erased. *)
Fixpoint ltrim (s : string) : string :=
  match s with
  | String a r => if Str.is_space a then ltrim r else s
  | EmptyString => s
  end.

(** trim from end: the characters after the last one that is not
    whitespace are erased. *)
Fixpoint rtrim (s : string) : string :=
  match s with
  | EmptyString => EmptyString
  | String a r =>
      match rtrim r with
      | EmptyString => if Str.is_space a then EmptyString else String a EmptyString
      | r' => String a r'
      end
  end.

(** trim from both ends *)
Definition trim (s : string) : string := ltrim (rtrim s).

(** [::tolower] in the "C" locale. *)
Definition tolower (a : ascii) : ascii :=
  let c := nat_of_ascii a in
  if (65 <=? c)%nat && (c <=? 90)%nat then ascii_of_nat (c + 32) else a.

(** [std::transform(k.begin(), k.end(), k.begin(), ::tolower)] *)
Fixpoint lowercase (s : string) : string :=
  match s with
  | String a r => String (tolower a) (lowercase r)
  | EmptyString => EmptyString
  end.

(** [headerfunction], for CURLOPT_HEADERFUNCTION.  [ptr] is the header
    line, of [size * nmemb] bytes; the result is the count returned to
    libcurl and the header map afterwards.  [size - 1] is computed only
    once the key is known not to be empty, when [size] is at least 1. *)
Definition headerfunction (ptr : string) (h : headers) : Z * headers :=
  let size := String.length ptr in
  let sep := default size (Str.find ":" ptr) in
  let k := trim (String.substring 0 sep ptr) in
  (Z.of_nat size,
   if (0 <? String.length k)%nat && (sep <? size - 1)%nat then
     let v := trim (String.substring (sep + 1) (size - sep - 1) ptr) in
     if (0 <? String.length v)%nat then <[lowercase k := v]> h else h
   else h).

(** Whether a string is made of whitespace only, begins with
    whitespace, ends with whitespace. *)
Fixpoint all_space (s : string) : bool :=
  match s with
  | String a r => Str.is_space a && all_space r
  | EmptyString => true
  end.

Definition head_space (s : string) : bool :=
  match s with
  | String a _ => Str.is_space a
  | EmptyString => false
  end.

Fixpoint last_space (s : string) : bool :=
  match s with
  | EmptyString => false
  | String a EmptyString => Str.is_space a
  | String _ r => last_space r
  end.

(** What [headerfunction] keeps true of the header map: the keys are in
    lower case and not empty, the values are trimmed and not empty. *)
Definition headers_ok (h : headers) : Prop :=
  forall k v, h !! k = Some v ->
    lowercase k = k /\ k <> EmptyString /\ trim v = v /\ v <> EmptyString.

(** ** The mock server over several requests, and its content reader *)

(** The server answering the requests [reqs], each a path with its
    headers, one after the other. *)
Fixpoint serve (d : TestHTTPd) (reqs : list (string * headers))
  : list response * TestHTTPd :=
  match reqs with
  | [] => ([], d)
  | (path, h) :: rest =>
      let '(r, d1) := OnRequest d path h in
      let '(rs, d2) := serve d1 rest in
      (r :: rs, d2)
  end.

Definition MHD_CONTENT_READER_END_WITH_ERROR : Z := -2.

Module TestHTTPd_Response.

(** [class TestHTTPd_Response]: the file behind the descriptor [fd_],
    by its content, and the part of it to hand out, [len_] bytes from
    [ofs_] on. *)
Record t := {
fd_ : bytes;
ofs_ : Z;
len_ : Z
}.

(** The constructor, [TestHTTPd_Response(fd, ofs, len)]. *)
Definition new (fd : bytes) (ofs len : Z) : t :=
{| fd_ := fd; ofs_ := ofs; len_ := len |}.

(** [TestHTTPd_Response::ContentReaderCallback]: the [int] returned and
    the bytes stored in [buf].  [lseek] fails for an offset that is
    negative as an [off_t]; [read] on a regular file returns the bytes
    there are from the position on, up to the count asked for. *)
Definition ContentReaderCallback (r : t) (pos max : Z) : Z * bytes :=
if len_ r <=? pos then (MHD_CONTENT_READER_END_WITH_ERROR, [])
else if to_off_t (to_size_t (ofs_ r + pos)) <? 0
then (MHD_CONTENT_READER_END_WITH_ERROR, [])
else
  let count := Z.min (len_ r - pos) max in
  let data := take (Z.to_nat count)
                   (drop (Z.to_nat (to_size_t (ofs_ r + pos))) (fd_ r)) in
  (to_int (Z.of_nat (length data)), data).

End TestHTTPd_Response.

(** libmicrohttpd sending a response announced with [size] bytes
    through the callback: it calls the callback at the position reached
    so far, offering the room its buffer has (the successive rooms are
    [rooms]), until [size] bytes were handed out; a negative answer ends
    the response at once.  The result is the body sent. *)
Fixpoint send_body (r : TestHTTPd_Response.t) (size pos : Z) (rooms : list Z)
  : bytes :=
  match rooms with
  | [] => []
  | max :: rooms' =>
      if size <=? pos then []
      else
        let '(k, data) := TestHTTPd_Response.ContentReaderCallback r pos max in
        if k <? 0 then [] else data ++ send_body r size (pos + k) rooms'
  end.

(** ** The stream over its life *)

(** [CurlStream::~CurlStream]: [assert(m_ != nullptr)] when [h_] is
    set, then the handles are released.  [None] stands for the process
    aborting on the assertion, in a build that has assertions. *)
Definition CurlStream_delete (NDEBUG : bool) (stm : CurlStream) : option unit :=
  if h_ stm && negb (m_ stm) && negb NDEBUG then None else Some tt.

(** The stream after successive [read] calls of the sizes [ns]. *)
Fixpoint CurlStream_reads (stm : CurlStream) (ns : list nat) : CurlStream :=
  match ns with
  | [] => stm
  | n :: rest => CurlStream_reads (CurlStream_read stm n).2 rest
  end.

(** The final status a read reports for a transfer that ended with
    the result [res]: what [final_status] makes of it. *)
Definition end_status (res : Z) : Z := if res =? CURLE_OK then 0 else -1.

(** ** The wait of [CurlStream::block] *)

(** The timeout [CurlStream::block] gives to [select], as
    [(tv_sec, tv_usec)], from the number of milliseconds
    [curl_multi_timeout] stored in [curl_timeo] (-1 when libcurl has
    no timeout to suggest).  The division and the remainder are taken
    of a number that is not negative, where C and [Z] agree. *)
Definition block_timeout (curl_timeo : Z) : Z * Z :=
  let tv_sec := 1 in
  let tv_usec := 0 in
  if 0 <=? curl_timeo then
    let tv_sec := curl_timeo / 1000 in
    if 1 <? tv_sec then (1, tv_usec)
    else (tv_sec, (curl_timeo mod 1000) * 1000)
  else (tv_sec, tv_usec).

(** ** More sample data *)

(** A stream whose transfer has completed with two bytes, "AB", still
    queued. *)
Definition buffered_stream : CurlStream := set_buf Sample.drained [[x41; x42]].

(** A process in which [curl_global_init] fails. *)
Definition uninitialised_world : World Httpd_net :=
  {| need_init := true; global_init := 2; errno := 0;
     net := {| server := Sample.httpd; requests := [] |} |}.

(** * Properties of the HTTP reader *)

Lemma wrap_signed_small w z :
  0 < w -> - 2 ^ (w - 1) <= z < 2 ^ (w - 1) -> wrap_signed w z = z.
Proof.
  intros Hw Hz. unfold wrap_signed.
  assert (2 ^ w = 2 * 2 ^ (w - 1)) as ->.
  { replace w with (Z.succ (w - 1)) at 1 by lia. rewrite Z.pow_succ_r; lia. }
  rewrite Z.mod_small; lia.
Qed.

Lemma to_int_small z : - 2 ^ 31 <= z < 2 ^ 31 -> to_int z = z.
Proof. intros. apply wrap_signed_small; lia. Qed.

Lemma to_ssize_t_small z : - 2 ^ 63 <= z < 2 ^ 63 -> to_ssize_t z = z.
Proof. intros. apply wrap_signed_small; lia. Qed.

Lemma to_off_t_small z : - 2 ^ 63 <= z < 2 ^ 63 -> to_off_t z = z.
Proof. intros. apply wrap_signed_small; lia. Qed.

Section ClientFacts.

Context {Net : Type}.
Variable connect : Net -> request -> session * Net.
Variable NDEBUG : bool.

Lemma ensure_curl_init_frame (w : World Net) :
errno Net (ensure_curl_init Net w).2 = errno Net w /\
net Net (ensure_curl_init Net w).2 = net Net w.
Proof. unfold ensure_curl_init. by destruct (need_init Net w). Qed.

(** A session that is opened leaves [errno] alone and, once libcurl is
  initialised, has sent exactly the request for its offset. *)
Lemma CurlStream_open_frame st u o (w : World Net) c st' w' :
CurlStream_open Net connect NDEBUG st u o w = Some (c, st', w') ->
errno Net w' = errno Net w /\
(m_ st || h_ st = false ->
 (ensure_curl_init Net w).1 = CURLE_OK ->
 net Net w' = (connect (net Net w) (request_at u o)).2).
Proof.
unfold CurlStream_open, request_at.
destruct (ensure_curl_init_frame w) as [He Hn].
destruct (ensure_curl_init Net w) as [rc w1]; simpl in *.
destruct (m_ st || h_ st) eqn:Hmh.
{ intros [= <- <- <-]. split; [done | intros [=]]. }
destruct (negb (rc =? CURLE_OK)) eqn:Hrc.
{ intros [= <- <- <-]. split; [done |].
  intros _ ->. by rewrite Z.eqb_refl in Hrc. }
rewrite <- Hn.
destruct (connect (net Net w1) _) as [ss nt]; simpl.
repeat case_match; intros; simplify_eq; simpl; by rewrite ?He.
Qed.

Lemma read_stream_frame s st n (w : World Net) :
net Net (read_stream Net s st n w).2 = net Net w /\
url (read_stream Net s st n w).1.2 = url s /\
ofs (read_stream Net s st n w).1.2 = ofs s.
Proof.
unfold read_stream. destruct (CurlStream_read st n) as [[r out] st'].
simpl. by case_match.
Qed.

(** Reading from a box without a session opens one first. *)
Lemma curlstream_read_reopen u o n (w : World Net) :
curlstream_read Net connect NDEBUG {| url := u; ofs := o; stm := None |} n w =
  ('(c, st, w1) ← CurlStream_open Net connect NDEBUG CurlStream_new u o w;
   if c =? 0
   then Some (read_stream Net {| url := u; ofs := o; stm := Some st |} st n w1)
   else Some (c, [], {| url := u; ofs := o; stm := None |},
              set_errno Net w1 (errno_of_response (response_code_ st)))).
Proof.
unfold curlstream_read, open_helper; simpl.
destruct (CurlStream_open _ _ _ _ _ _ _) as [[[c st] w1]|]; [|done].
simpl. destruct (c =? 0) eqn:Hc; simpl; by rewrite ?Hc.
Qed.

Lemma curlstream_read_reopen_request u o n (w : World Net) c out s1 w1 :
(ensure_curl_init Net w).1 = CURLE_OK ->
curlstream_read Net connect NDEBUG {| url := u; ofs := o; stm := None |} n w
  = Some (c, out, s1, w1) ->
net Net w1 = (connect (net Net w) (request_at u o)).2 /\ ofs s1 = o.
Proof.
intros Hinit. rewrite curlstream_read_reopen.
destruct (CurlStream_open _ _ _ _ _ _ _) as [[[c' st] w2]|] eqn:Hopen; [|done].
apply CurlStream_open_frame in Hopen as [_ Hnet].
specialize (Hnet eq_refl Hinit).
simpl. destruct (c' =? 0); simpl.
- intros [= Heq].
  pose proof (read_stream_frame {| url := u; ofs := o; stm := Some st |} st n w2)
    as (Hn & _ & Ho).
  rewrite Heq in Hn, Ho. simpl in *. by rewrite Hn.
- by intros [= <- <- <- <-].
Qed.


Lemma perform_status st : (perform st).1 = 0 \/ (perform st).1 = -1.
Proof.
unfold perform. repeat case_match; simpl; auto.
Qed.

Lemma block_status st : (block st).1 = 0 \/ (block st).1 = -1.
Proof. unfold block. repeat case_match; simpl; auto. Qed.

Lemma drive_status cond t st : (drive cond t st).1 = 0 \/ (drive cond t st).1 = -1.
Proof.
revert st. induction t as [body info result | e rest IH]; intros st; simpl.
- destruct (final_msg_ st); [auto|]. destruct (cond st); [|auto].
  pose proof (block_status st) as Hb. destruct (block st) as [s1 st1].
  pose proof (perform_status st1) as Hp. destruct (perform st1) as [s2 st2].
  simpl in *. destruct Hb as [-> | ->]; simpl; auto.
  destruct Hp as [-> | ->]; simpl; auto.
- destruct (final_msg_ st); [auto|]. destruct (cond st); [|auto].
  pose proof (block_status st) as Hb. destruct (block st) as [s1 st1].
  pose proof (perform_status st1) as Hp. destruct (perform st1) as [s2 st2].
  simpl in *. destruct Hb as [-> | ->]; simpl; auto.
  destruct Hp as [-> | ->]; simpl; auto.
Qed.

(** What [CurlStream::open] can return on a fresh stream, and what each
  value says about the response code. *)
Lemma CurlStream_open_codes st u o (w : World Net) c st' w' :
m_ st || h_ st = false ->
CurlStream_open Net connect NDEBUG st u o w = Some (c, st', w') ->
let code := response_code_ st' in
(c = 0 \/ c = -1 \/ c = -4 \/ c = -8) /\
(c = 0 -> 200 <= code <= 299 /\ (0 < o -> code = 206)) /\
(c = -4 -> ~ 200 <= code <= 299) /\
(c = -8 -> 200 <= code <= 299 /\ 0 < o /\ code <> 206).
Proof.
intros Hmh. unfold CurlStream_open. rewrite Hmh.
destruct (ensure_curl_init Net w) as [rc w1].
destruct (negb (rc =? CURLE_OK)); [intros [= <- <- <-]; simpl; lia|].
destruct (connect _ _) as [ss nt].
destruct (negb (s_multi_init ss)); [intros [= <- <- <-]; simpl; lia|].
destruct (negb (s_easy_init ss)); [intros [= <- <- <-]; simpl; lia|].
destruct (negb (s_add_handle ss)); [intros [= <- <- <-]; simpl; lia|].
destruct (first_setopt_fails ss); [intros [= <- <- <-]; simpl; lia|].
destruct (later_setopt_fails ss); [intros [= <- <- <-]; simpl; lia|].
match goal with |- context [perform ?x] =>
  pose proof (perform_status x) as Hp; destruct (perform x) as [s3 st3] end.
simpl in Hp. destruct Hp as [-> | ->]; simpl; [|intros [= <- <- <-]; simpl; lia].
pose proof (drive_status awaiting_code (wire_ st3) st3) as Hd.
destruct (drive awaiting_code (wire_ st3) st3) as [s4 st4].
simpl in Hd. destruct Hd as [-> | ->]; simpl; [|intros [= <- <- <-]; simpl; lia].
assert (Hfs : match final_msg_ st4 with Some _ => final_status st4 | None => 0 end = 0
              \/ match final_msg_ st4 with Some _ => final_status st4 | None => 0 end = -1).
{ unfold final_status. repeat case_match; auto. }
destruct Hfs as [-> | ->]; simpl; [|intros [= <- <- <-]; simpl; lia].
destruct ((response_code_ st4 =? 0) && negb NDEBUG); [done|].
intros [= <- <- <-]. unfold check_response_code.
repeat case_match; lia.
Qed.


(** C4. A failed open sets [errno] from the response code: 401 and 407
  give EPERM, 403 EACCES, 404 and 410 ENOENT, 408 and 504 ETIMEDOUT,
  503 EAGAIN, every other 4xx (416 among them) EINVAL, and all
  remaining codes EIO.  A 416 response always is such a failure. *)
Theorem open_helper_errno (s : CurlStreamBox) (w : World Net)
  (c : Z) (s' : CurlStreamBox) (w' : World Net) :
open_helper Net connect NDEBUG s w = Some (c, s', w') ->
exists st w1,
  CurlStream_open Net connect NDEBUG CurlStream_new (url s) (ofs s) w
    = Some (c, st, w1) /\
  let code := response_code_ st in
  let e := errno Net w' in
  (c = 0 -> stm s' = Some st /\ e = errno Net w) /\
  (c <> 0 ->
     stm s' = None /\
     (code = 401 \/ code = 407 -> e = EPERM) /\
     (code = 403 -> e = EACCES) /\
     (code = 404 \/ code = 410 -> e = ENOENT) /\
     (code = 408 \/ code = 504 -> e = ETIMEDOUT) /\
     (code = 503 -> e = EAGAIN) /\
     (400 <= code < 500 ->
        code <> 401 -> code <> 403 -> code <> 404 ->
        code <> 407 -> code <> 408 -> code <> 410 -> e = EINVAL) /\
     (code = 416 -> e = EINVAL) /\
     (~ 400 <= code < 500 -> code <> 503 -> code <> 504 -> e = EIO)) /\
  (code = 416 -> c = -4 \/ c = -1).
Proof.
unfold open_helper.
destruct (CurlStream_open _ _ _ _ _ _ _) as [[[c' st] w1]|] eqn:Hopen; [|done].
pose proof Hopen as Hfr. apply CurlStream_open_frame in Hfr as [Herr _].
apply CurlStream_open_codes in Hopen as (Hc & H0 & H4 & H8); [|done].
simpl. destruct (c' =? 0) eqn:Hc0.
- apply Z.eqb_eq in Hc0 as ->. intros [= <- <- <-].
  exists st, w1. simpl. split; [done|]. split_and!; try done. lia.
- apply Z.eqb_neq in Hc0. intros [= <- <- <-].
  exists st, w1. simpl. split; [done|]. split_and!; try done; [|lia].
  intros _. unfold errno_of_response.
  split_and!; try done; intros; repeat case_match; lia.
Qed.


End ClientFacts.

Section StreamFacts.

(** Whatever [block] and [perform] preserve, the loop preserves. *)
Lemma drive_preserves (P : CurlStream -> Prop) :
(forall st, P st -> P (block st).2) ->
(forall st, P st -> P (perform st).2) ->
forall cond t st, P st -> P (drive cond t st).2.
Proof.
intros Hb Hp cond t.
induction t as [body info result | e rest IH]; intros st HP; simpl;
  destruct (final_msg_ st); try done; destruct (cond st); try done;
  specialize (Hb st HP); destruct (block st) as [s1 st1]; simpl in Hb;
  destruct (bad s1); try done;
  specialize (Hp st1 Hb); destruct (perform st1) as [s2 st2]; simpl in Hp;
  destruct (bad s2); try done.
by apply IH.
Qed.

Lemma fifo_ok_write q s : fifo_ok q -> fifo_ok (FifoBuffer.write q s).
Proof.
unfold fifo_ok, FifoBuffer.write. intros Hq.
destruct s as [|c s]; simpl; [done|].
apply Forall_app. split; [done|]. by constructor.
Qed.

Lemma fifo_ok_deliver chunks : forall q, fifo_ok q -> fifo_ok (deliver q chunks).
Proof.
unfold deliver. induction chunks as [|c chunks IH]; intros q Hq; simpl; [done|].
apply IH. by apply fifo_ok_write.
Qed.

Lemma perform_fifo_ok st : fifo_ok (buf_ st) -> fifo_ok (buf_ (perform st).2).
Proof.
unfold perform. intros Hq.
repeat case_match; simpl; try done; by apply fifo_ok_deliver.
Qed.

Lemma block_fifo_ok st : fifo_ok (buf_ st) -> fifo_ok (buf_ (block st).2).
Proof. unfold block. by repeat case_match. Qed.

Lemma perform_final_read_rc st r :
final_read_rc_ st = r -> final_read_rc_ (perform st).2 = r.
Proof. unfold perform. by repeat case_match. Qed.

Lemma block_final_read_rc st r :
final_read_rc_ st = r -> final_read_rc_ (block st).2 = r.
Proof. unfold block. by repeat case_match. Qed.

Lemma readsome_fifo_ok q n :
fifo_ok q -> fifo_ok (FifoBuffer.readsome q n).2.
Proof.
unfold FifoBuffer.readsome, fifo_ok. intros Hq.
destruct q as [|front rest]; [done|].
destruct (n =? 0)%nat; [done|]. simpl.
apply Forall_cons in Hq as [Hf Hr].
case_match; [|done]. constructor; [|done].
intros Heq. rewrite Heq in *. simpl in *. done.
Qed.

(** A non-empty, well-formed queue yields at least one byte to a
  request for at least one. *)
Lemma readsome_progress q n :
fifo_ok q -> q <> [] -> (0 < n)%nat ->
(0 < (FifoBuffer.readsome q n).1.1 <= n)%nat.
Proof.
unfold FifoBuffer.readsome, fifo_ok. intros Hq Hne Hn.
destruct q as [|front rest]; [done|].
apply Forall_cons in Hq as [Hf Hr].
destruct (Nat.eqb_spec n 0); [lia|].
destruct front as [|c front]; [done|].
cbv zeta. cbn [fst snd]. rewrite length_cons. lia.
Qed.

(** C9. Once a read has returned the final status of the transfer, 0
  for a completed body or -1 for a transfer that ended in error, or
  the -2 of a stream that cannot be read, every later read returns
  the same value and leaves the stream as it is: nothing is asked of
  the transport and no byte is delivered.  A read of at least one
  byte returns 0 only in this way.  The -1 of a failed perform or
  wait is not recorded. *)
Theorem CurlStream_read_latched (st : CurlStream) (n : nat)
  (r : Z) (out : bytes) (st' : CurlStream) :
CurlStream_read st n = (r, out, st') ->
(final_read_rc_ st' <= 0 ->
   r = final_read_rc_ st' /\ out = [] /\
   forall m, CurlStream_read st' m = (r, [], st')) /\
(fifo_ok (buf_ st) -> (0 < n)%nat -> Z.of_nat n < 2 ^ 63 ->
   (r = 0 -> final_read_rc_ st' = 0) /\
   (r = -2 -> out = [] /\ st' = st /\
              forall m, CurlStream_read st' m = (-2, [], st'))).
Proof.
assert (Hlatch : forall s, final_read_rc_ s <= 0 ->
          forall m, CurlStream_read s m = (final_read_rc_ s, [], s)).
{ intros s Hs m. unfold CurlStream_read.
  by rewrite (proj2 (Z.leb_le _ _) Hs). }
assert (Hsome : forall s, fifo_ok (buf_ s) -> buf_ s <> [] ->
          (0 < n)%nat -> Z.of_nat n < 2 ^ 63 ->
          forall neff o q, FifoBuffer.readsome (buf_ s) n = (neff, o, q) ->
          0 < to_ssize_t (Z.of_nat neff)).
{ intros s Hq Hne Hn Hb neff o q Hrs.
  pose proof (readsome_progress (buf_ s) n Hq Hne Hn) as Hpr.
  rewrite Hrs in Hpr. simpl in Hpr.
  rewrite to_ssize_t_small; lia. }
unfold CurlStream_read at 1.
destruct (final_read_rc_ st <=? 0) eqn:Hrc.
{ intros [= <- <- <-]. apply Z.leb_le in Hrc. split.
  - intros _. split_and!; try done. by apply Hlatch.
  - intros _ _ _. split; [lia|].
    intros Heq. split_and!; try done. intros m. rewrite <- Heq. by apply Hlatch. }
apply Z.leb_gt in Hrc.
destruct (negb (h_ st)) eqn:Hh.
{ intros [= <- <- <-]. split; [lia|]. intros _ _ _. split; [done|].
  intros _. split_and!; try done. intros m. unfold CurlStream_read.
  rewrite (proj2 (Z.leb_gt _ _) Hrc), Hh. done. }
destruct ((response_code_ st <? 200) || (299 <? response_code_ st)) eqn:Hcode.
{ intros [= <- <- <-]. split; [lia|]. intros _ _ _. split; [done|].
  intros _. split_and!; try done. intros m. unfold CurlStream_read.
  rewrite (proj2 (Z.leb_gt _ _) Hrc), Hh, Hcode. done. }
destruct (FifoBuffer.empty (buf_ st)) eqn:Hempty.
- pose proof (perform_status st) as Hps.
  pose proof (perform_final_read_rc st _ eq_refl) as Hprc.
  pose proof (perform_fifo_ok st) as Hpq.
  destruct (perform st) as [s1 st1]. simpl in *.
  destruct Hps as [-> | ->]; simpl;
    [|intros [= <- <- <-]; split; [lia|]; intros; split_and!; lia].
  pose proof (drive_status awaiting_body (wire_ st1) st1) as Hds.
  pose proof (drive_preserves (fun s => final_read_rc_ s = final_read_rc_ st)
                (fun s => block_final_read_rc s _)
                (fun s => perform_final_read_rc s _)
                awaiting_body (wire_ st1) st1 Hprc) as Hdrc.
  pose proof (drive_preserves (fun s => fifo_ok (buf_ s))
                block_fifo_ok perform_fifo_ok
                awaiting_body (wire_ st1) st1) as Hdq.
  destruct (drive awaiting_body (wire_ st1) st1) as [s2 st2]. simpl in *.
  destruct Hds as [-> | ->]; simpl;
    [|intros [= <- <- <-]; split; [lia|]; intros; split_and!; lia].
  destruct (FifoBuffer.empty (buf_ st2)) eqn:Hempty2.
  + intros [= <- <- <-]. simpl.
    assert (final_status st2 = 0 \/ final_status st2 = -1) as Hfs.
    { unfold final_status. repeat case_match; auto. }
    split.
    * intros _. split_and!; try done.
      intros m. unfold CurlStream_read. simpl.
      destruct Hfs as [-> | ->]; done.
    * intros _ _ _. split_and!; lia.
  + destruct (FifoBuffer.readsome (buf_ st2) n) as [[neff o] q] eqn:Hrs.
    intros [= <- <- <-]. simpl. split; [lia|].
    intros Hq Hn Hb.
    assert (buf_ st2 <> []) as Hne by (by destruct (buf_ st2)).
    pose proof (Hsome st2 (Hdq (Hpq Hq)) Hne Hn Hb _ _ _ Hrs). lia.
- destruct (FifoBuffer.readsome (buf_ st) n) as [[neff o] q] eqn:Hrs.
  intros [= <- <- <-]. simpl. split; [lia|].
  intros Hq Hn Hb.
  assert (buf_ st <> []) as Hne by (by destruct (buf_ st)).
  pose proof (Hsome st Hq Hne Hn Hb _ _ _ Hrs). lia.
Qed.

End StreamFacts.

Section Receiving.

Lemma concat_write q s : concat (FifoBuffer.write q s) = concat q ++ s.
Proof.
unfold FifoBuffer.write. destruct s; simpl.
- by rewrite app_nil_r.
- by rewrite concat_app; simpl; rewrite app_nil_r.
Qed.

Lemma concat_deliver chunks : forall q,
concat (deliver q chunks) = concat q ++ concat chunks.
Proof.
unfold deliver. induction chunks as [|c chunks IH]; intros q; simpl.
- by rewrite app_nil_r.
- by rewrite IH, concat_write, <- app_assoc.
Qed.

Lemma block_receiving st code rem res :
receiving st code rem res ->
(block st).1 = 0 /\ receiving (block st).2 code rem res /\
wire_ (block st).2 = wire_ st /\ final_msg_ (block st).2 = final_msg_ st /\
response_code_ (block st).2 = response_code_ st /\
buf_ (block st).2 = buf_ st /\
h_ (block st).2 = h_ st /\ final_read_rc_ (block st).2 = final_read_rc_ st.
Proof.
intros (Hq & Hw & Hm). unfold block.
destruct (waits_ st) as [|ok ws] eqn:Hws; simpl.
- split_and!; try done. unfold receiving. by rewrite Hws.
- apply Forall_cons in Hw as [-> Hw]. split_and!; try done.
Qed.

Lemma perform_receiving st code rem res :
receiving st code rem res -> code <> 0 ->
(perform st).1 = 0 /\ receiving (perform st).2 code rem res /\
h_ (perform st).2 = h_ st /\
final_read_rc_ (perform st).2 = final_read_rc_ st /\
(final_msg_ st = None ->
 match wire_ st with
 | Progress _ rest => wire_ (perform st).2 = rest /\ final_msg_ (perform st).2 = None
 | Finish _ _ _ => final_msg_ (perform st).2 <> None
 end).
Proof.
intros (Hq & Hw & Hm) Hcode. unfold perform.
destruct (final_msg_ st) as [r|] eqn:Hfm.
{ simpl. split_and!; try done. unfold receiving. by rewrite Hfm. }
destruct Hm as (Hrc & b' & Hcar & ->).
destruct (wire_ st) as [body info result | e rest] eqn:Hwire; simpl in Hcar.
- destruct Hcar as (-> & -> & <-). simpl.
  destruct (response_code_ st =? 0) eqn:Hz; simpl;
    (split_and!; try done; unfold receiving; simpl;
     split_and!; [by apply fifo_ok_deliver | done | done | |
                  by rewrite concat_deliver]); [done|].
  apply Z.eqb_neq in Hz. by destruct Hrc.
- destruct Hcar as (Hmc & Hinfo & b'' & -> & Hcar). rewrite Hmc. simpl.
  assert (forall c, (c = code \/ c = 0) ->
            receiving (set_response_code
              (set_wire (set_buf st (deliver (buf_ st) (pe_body e))) rest (waits_ st)) c)
              code (concat (buf_ st) ++ concat (pe_body e) ++ b'') res) as Hset.
  { intros c Hc. unfold receiving; simpl. rewrite Hfm.
    split_and!; [by apply fifo_ok_deliver | done | done |].
    exists b''. split; [done|]. by rewrite concat_deliver, <- app_assoc. }
  destruct (response_code_ st =? 0) eqn:Hz.
  + destruct Hinfo as [-> | ->]; simpl; split_and!; try done; apply Hset; auto.
  + simpl. split_and!; try done.
    unfold receiving; simpl. rewrite Hfm.
    split_and!; [by apply fifo_ok_deliver | done | done |].
    exists b''. split; [done|]. by rewrite concat_deliver, <- app_assoc.
Qed.

(** The loop on a stream that is receiving: it ends with status 0 and
  either the transfer finished or the condition it was waiting on
  turned false. *)
Lemma drive_receiving cond code rem res : code <> 0 ->
forall t st, t = wire_ st -> receiving st code rem res ->
let st' := (drive cond t st).2 in
(drive cond t st).1 = 0 /\ receiving st' code rem res /\
h_ st' = h_ st /\ final_read_rc_ st' = final_read_rc_ st /\
(final_msg_ st' <> None \/ cond st' = false).
Proof.
intros Hcode t.
induction t as [body info result | e rest IH]; intros st Ht Hrec; simpl.
- destruct (final_msg_ st) eqn:Hfm; [simpl; rewrite Hfm; split_and!; auto|].
  destruct (cond st) eqn:Hc; [|simpl; split_and!; auto].
  destruct (block_receiving _ _ _ _ Hrec) as (Hb & Hrec1 & Hw1 & Hf1 & _ & _ & Hh1 & Hr1).
  destruct (block st) as [s1 st1]; simpl in *. subst s1. simpl.
  destruct (perform_receiving _ _ _ _ Hrec1 Hcode) as (Hp & Hrec2 & Hh2 & Hr2 & Hstep).
  rewrite Hf1, Hfm, Hw1, <- Ht in Hstep. specialize (Hstep eq_refl).
  destruct (perform st1) as [s2 st2]; simpl in *. subst s2. simpl.
  split_and!; try done; try congruence. by left.
- destruct (final_msg_ st) eqn:Hfm; [simpl; rewrite Hfm; split_and!; auto|].
  destruct (cond st) eqn:Hc; [|simpl; split_and!; auto].
  destruct (block_receiving _ _ _ _ Hrec) as (Hb & Hrec1 & Hw1 & Hf1 & _ & _ & Hh1 & Hr1).
  destruct (block st) as [s1 st1]; simpl in *. subst s1. simpl.
  destruct (perform_receiving _ _ _ _ Hrec1 Hcode) as (Hp & Hrec2 & Hh2 & Hr2 & Hstep).
  rewrite Hf1, Hfm, Hw1, <- Ht in Hstep. specialize (Hstep eq_refl) as [Hw2 Hf2].
  destruct (perform st1) as [s2 st2]; simpl in *. subst s2. simpl.
  destruct (IH st2 (eq_sym Hw2) Hrec2) as (Hd & Hrec3 & Hh3 & Hr3 & Hend).
  split_and!; try done; congruence.
Qed.

Lemma readsome_spec q n :
fifo_ok q -> q <> [] -> (0 < n)%nat ->
exists k q',
  FifoBuffer.readsome q n = (k, take k (concat q), q') /\
  (0 < k <= n)%nat /\ (k <= length (concat q))%nat /\
  concat q' = drop k (concat q) /\ fifo_ok q'.
Proof.
intros Hq Hne Hn. pose proof (readsome_fifo_ok q n Hq) as Hq'.
unfold FifoBuffer.readsome in *.
destruct q as [|front rest]; [done|].
apply Forall_cons in Hq as [Hf Hr].
destruct (Nat.eqb_spec n 0); [lia|].
cbv zeta in *. cbn [snd] in Hq'.
assert (0 < length front)%nat by (destruct front; [done | simpl; lia]).
exists (Nat.min (length front) n). eexists. split.
{ simpl concat. rewrite take_app_le by lia. reflexivity. }
split_and!; [lia | lia | | | exact Hq'].
- simpl. rewrite length_app. lia.
- simpl. destruct (Nat.ltb_spec (Nat.min (length front) n) (length front)) as [Hlt|Hge].
  + rewrite (proj2 (Nat.ltb_lt _ _)) by (rewrite length_drop; lia).
    simpl. rewrite drop_app_le by lia. done.
  + simpl. rewrite drop_app_ge by lia.
    replace (Nat.min (length front) n - length front)%nat with 0%nat by lia. done.
Qed.

Lemma perform_response_code st c :
c <> 0 -> response_code_ st = c -> response_code_ (perform st).2 = c.
Proof.
intros Hc Hst. unfold perform.
repeat case_match; simpl in *; try done; lia.
Qed.

Lemma block_response_code st c :
response_code_ st = c -> response_code_ (block st).2 = c.
Proof. unfold block. by repeat case_match. Qed.

(** One read from a stream that is receiving a 2xx response whose
  transfer ends in error: it yields the next bytes of the body while
  there are any, and -1 once there are none. *)
Lemma CurlStream_read_receiving st code rem res n :
receiving st code rem res -> response_code_ st = code ->
200 <= code <= 299 -> h_ st = true -> 0 < final_read_rc_ st ->
res <> CURLE_OK -> (0 < n)%nat -> Z.of_nat n < 2 ^ 63 ->
exists st',
  (rem = [] /\ CurlStream_read st n = (-1, [], st')) \/
  (rem <> [] /\ exists k, (0 < k <= n)%nat /\
     CurlStream_read st n = (Z.of_nat k, take k rem, st') /\
     receiving st' code (drop k rem) res /\ response_code_ st' = code /\
     h_ st' = true /\ final_read_rc_ st' = final_read_rc_ st).
Proof.
intros Hrec Hcode H2xx Hh Hrc Hres Hn Hb.
assert (code <> 0) as Hc0 by lia.
assert (Hserve : forall s, receiving s code rem res -> response_code_ s = code ->
          h_ s = true -> final_read_rc_ s = final_read_rc_ st -> buf_ s <> [] ->
          rem <> [] /\ exists k, (0 < k <= n)%nat /\
            (let '(neff, out, q) := FifoBuffer.readsome (buf_ s) n in
             (to_ssize_t (Z.of_nat neff), out, set_buf s q))
            = (Z.of_nat k, take k rem, set_buf s (FifoBuffer.readsome (buf_ s) n).2) /\
            receiving (set_buf s (FifoBuffer.readsome (buf_ s) n).2)
                      code (drop k rem) res).
{ intros s (Hq & Hw & Hm) Hsc Hsh Hsr Hne.
  destruct (readsome_spec (buf_ s) n Hq Hne Hn) as (k & q' & Hrs & Hk & Hkl & Hcat & Hq').
  rewrite Hrs. simpl.
  assert (concat (buf_ s) <> []) as Hcne.
  { intros Heq. rewrite Heq in Hkl. simpl in Hkl. lia. }
  destruct (final_msg_ s) as [r|] eqn:Hfm.
  - destruct Hm as (-> & _ & ->). split; [done|].
    exists k. split; [done|]. split.
    + rewrite to_ssize_t_small by lia. done.
    + unfold receiving; simpl. rewrite Hfm. split_and!; done.
  - destruct Hm as (Hcd & b' & Hcar & ->). split.
    { intros Heq. apply app_eq_nil in Heq as [? _]. done. }
    exists k. split; [done|]. split.
    + rewrite to_ssize_t_small by lia. by rewrite take_app_le.
    + unfold receiving; simpl. rewrite Hfm. split_and!; try done.
      exists b'. split; [done|]. by rewrite drop_app_le, Hcat. }
unfold CurlStream_read.
rewrite (proj2 (Z.leb_gt _ _) Hrc), Hh, Hcode. simpl.
replace ((code <? 200) || (299 <? code)) with false
  by (symmetry; apply orb_false_iff; split; [apply Z.ltb_ge | apply Z.ltb_ge]; lia).
destruct (FifoBuffer.empty (buf_ st)) eqn:Hempty.
- destruct (perform_receiving _ _ _ _ Hrec Hc0) as (Hp & Hrec1 & Hh1 & Hr1 & _).
  pose proof (perform_response_code st code Hc0 Hcode) as Hc1.
  destruct (perform st) as [s1 st1]; simpl in *. subst s1. simpl.
  destruct (drive_receiving awaiting_body code rem res Hc0 (wire_ st1) st1 eq_refl Hrec1)
    as (Hd & Hrec2 & Hh2 & Hr2 & Hend).
  pose proof (drive_preserves (fun s => response_code_ s = code)
                (fun s => block_response_code s code)
                (fun s => perform_response_code s code Hc0)
                awaiting_body (wire_ st1) st1 Hc1) as Hc2.
  destruct (drive awaiting_body (wire_ st1) st1) as [s2 st2]; simpl in *.
  subst s2. simpl.
  destruct (FifoBuffer.empty (buf_ st2)) eqn:Hempty2.
  + assert (buf_ st2 = []) as Hnil by (by destruct (buf_ st2)).
    destruct Hend as [Hfin | Hcond]; [|unfold awaiting_body in Hcond; congruence].
    destruct Hrec2 as (_ & _ & Hm).
    destruct (final_msg_ st2) as [r|] eqn:Hfm; [|done].
    destruct Hm as (-> & _ & ->). rewrite Hnil.
    eexists. left. split; [done|].
    unfold final_status. rewrite Hfm.
    rewrite (proj2 (Z.eqb_neq _ _) Hres). done.
  + assert (buf_ st2 <> []) as Hne by (by destruct (buf_ st2)).
    destruct (Hserve st2 Hrec2 Hc2 ltac:(congruence) ltac:(congruence) Hne)
      as (Hrem & k & Hk & Heq & Hrec3).
    eexists. right. split; [done|]. exists k. split; [done|].
    split; [exact Heq|]. split_and!; simpl; try done; congruence.
- assert (buf_ st <> []) as Hne by (by destruct (buf_ st)).
  destruct (Hserve st Hrec Hcode Hh eq_refl Hne) as (Hrem & k & Hk & Heq & Hrec3).
  eexists. right. split; [done|]. exists k. split; [done|].
  split; [exact Heq|]. split_and!; simpl; done.
Qed.

End Receiving.

Section Truncation.

Context {Net : Type}.
Variable connect : Net -> request -> session * Net.
Variable NDEBUG : bool.

(** Opening a session whose transfer carries a response: either the
  transfer has already ended in error when the status is examined, and
  the open fails with -1, or the stream is left receiving it. *)
Lemma CurlStream_open_receiving u o (w : World Net) t nt code body res :
(ensure_curl_init Net w).1 = CURLE_OK ->
connect (net Net w) (request_at u o) = (fresh_session t, nt) ->
carries t code body res -> code <> 0 ->
exists c st w1,
  CurlStream_open Net connect NDEBUG CurlStream_new u o w = Some (c, st, w1) /\
  net Net w1 = nt /\ errno Net w1 = errno Net w /\
  (c = -1 /\ res <> CURLE_OK \/
   c = check_response_code o code /\
   receiving st code body res /\ response_code_ st = code /\
   h_ st = true /\ final_read_rc_ st = 1 /\
   (final_msg_ st = None \/ res = CURLE_OK)).
Proof.
intros Hinit Hconn Hcar Hcode.
unfold CurlStream_open, request_at in *.
destruct (ensure_curl_init_frame w) as [He Hn].
destruct (ensure_curl_init Net w) as [rc w1]; simpl in *. subst rc. simpl.
rewrite <- Hn in Hconn. rewrite Hconn. simpl.
set (st2 := set_request_headers _ _).
assert (receiving st2 code body res) as Hrec.
{ unfold receiving; simpl. split_and!; [by constructor | by constructor | by right |].
  by exists body. }
destruct (perform_receiving _ _ _ _ Hrec Hcode) as (Hp & Hrec1 & Hh1 & Hr1 & _).
destruct (perform st2) as [s3 st3]; simpl in *. subst s3. simpl.
destruct (drive_receiving awaiting_code code body res Hcode (wire_ st3) st3 eq_refl Hrec1)
  as (Hd & Hrec2 & Hh2 & Hr2 & Hend).
destruct (drive awaiting_code (wire_ st3) st3) as [s4 st4]; simpl in *. subst s4. simpl.
pose proof Hrec2 as (_ & _ & Hm).
destruct (final_msg_ st4) as [r|] eqn:Hfm.
- destruct Hm as (-> & Hc4 & _). unfold final_status. rewrite Hfm.
  destruct (res =? CURLE_OK) eqn:Hres; simpl.
  + apply Z.eqb_eq in Hres. rewrite Hc4, (proj2 (Z.eqb_neq _ _) Hcode). simpl.
    eexists _, _, _. split; [done|]. split_and!; try done.
    right. split_and!; try done; [congruence | congruence | by right].
  + apply Z.eqb_neq in Hres.
    eexists _, _, _. split; [done|]. split_and!; try done. by left.
- destruct Hm as (Hc4 & _). simpl.
  destruct Hend as [? | Hcond]; [done|].
  unfold awaiting_code in Hcond. apply Z.eqb_neq in Hcond.
  destruct Hc4 as [Hc4 | ?]; [|done].
  rewrite Hc4, (proj2 (Z.eqb_neq _ _) Hcode). simpl.
  eexists _, _, _. split; [done|]. split_and!; try done.
  right. split_and!; try done; [congruence | congruence | by left].
Qed.

(** Reading to the end of a response whose transfer ends in error: all
  the bytes that arrived, then -1 with EIO, and nothing more is asked
  of the network. *)
Lemma read_all_receiving code res n u o :
200 <= code <= 299 -> res <> CURLE_OK -> (0 < n)%nat -> Z.of_nat n < 2 ^ 31 ->
forall fuel st rem (w : World Net),
  receiving st code rem res -> response_code_ st = code ->
  h_ st = true -> 0 < final_read_rc_ st ->
  (length rem < fuel)%nat ->
  exists st' w',
    read_all Net connect NDEBUG fuel {| url := u; ofs := o; stm := Some st |} n w
      = Some (-1, rem, {| url := u; ofs := o; stm := Some st' |}, w') /\
    errno Net w' = EIO /\ net Net w' = net Net w.
Proof.
intros H2xx Hres Hn Hb.
induction fuel as [|fuel IH]; intros st rem w Hrec Hcode Hh Hrc Hfuel; [lia|].
simpl. unfold net_read, curlstream_read; simpl. unfold read_stream.
destruct (CurlStream_read_receiving st code rem res n Hrec Hcode H2xx Hh Hrc Hres Hn
            ltac:(lia)) as (st' & [(-> & Hread) | (Hne & k & Hk & Hread & Hrec' & Hc' & Hh' & Hr')]).
- rewrite Hread. simpl. rewrite to_int_small by lia. simpl.
  eexists _, _. split; [done|]. done.
- rewrite Hread. simpl. rewrite to_int_small by lia.
  replace (0 <? Z.of_nat k) with true by (symmetry; apply Z.ltb_lt; lia).
  replace (Z.of_nat k =? 0) with false by (symmetry; apply Z.eqb_neq; lia).
  assert (length (drop k rem) < fuel)%nat as Hlen.
  { rewrite length_drop. destruct rem; [done|]. simpl in *. lia. }
  destruct (IH st' (drop k rem) (set_errno Net w EIO) Hrec' Hc' Hh' ltac:(lia) Hlen)
    as (st'' & w'' & Hall & He & Hnet).
  rewrite Hall. simpl. rewrite take_drop.
  eexists _, _. split; [done|]. done.
Qed.

End Truncation.

Section MockServer.

Lemma strip_prefix_app p s : Str.strip_prefix p (p +:+ s) = Some s.
Proof.
induction p as [|a p IH]; simpl; [by destruct s|].
by rewrite Ascii.eqb_refl.
Qed.

Lemma chunks_of_concat k : forall fuel b,
(length b <= fuel)%nat -> concat (chunks_of fuel (S k) b) = b.
Proof.
induction fuel as [|fuel IH]; intros b Hlen.
- destruct b; [done | simpl in Hlen; lia].
- destruct b as [|c b]; [done|].
  cbn [chunks_of concat]. rewrite IH.
  + apply take_drop.
  + rewrite length_drop. simpl in *. lia.
Qed.

Lemma steady_carries k r :
carries (steady k r) (rs_code r) (rs_body r) (transfer_result r).
Proof.
unfold steady. simpl. split_and!; [done | by right |].
exists (rs_body r). split; [done|].
pose proof (chunks_of_concat k (length (rs_body r)) (rs_body r) (le_n _)) as Hcs.
set (cs := chunks_of _ _ _) in *. clearbody cs. rewrite <- Hcs. clear Hcs.
induction cs as [|c cs IH]; simpl; [done|].
split_and!; [done | by right |].
exists (concat cs). split; [by rewrite app_nil_r | done].
Qed.

(** The first response of a server told to truncate at [t]. *)
Lemma OnRequest_truncated d path file F t :
files_ d !! path = Some file -> disk d !! file = Some F ->
requests_to_fail_ d = 0%nat -> truncate_response_ d = t ->
0 <= t < Z.of_nat (length F) ->
(OnRequest d path ∅).1 =
  {| rs_code := 200; rs_declared := Z.of_nat (length F);
     rs_body := take (Z.to_nat t) F |} /\
transfer_result (OnRequest d path ∅).1 = CURLE_PARTIAL_FILE.
Proof.
intros Hf Hd Hfail Ht Hrange. unfold OnRequest.
rewrite Hfail, Hf. simpl. rewrite Hd.
assert (get_range_header ∅ (Z.of_nat (length F)) = None) as -> by done.
rewrite Ht. replace (0 <=? t) with true by (symmetry; apply Z.leb_le; lia).
rewrite Z.min_l by lia. simpl. split; [done|].
unfold transfer_result. simpl. rewrite length_take.
replace (Z.of_nat (Z.to_nat t `min` length F) =? Z.of_nat (length F)) with false
  by (symmetry; apply Z.eqb_neq; lia).
done.
Qed.

End MockServer.

Section TruncatedResponse.

Variable pace : response -> transfer.
Variable NDEBUG : bool.

Hypothesis pace_carries :
forall r, carries (pace r) (rs_code r) (rs_body r) (transfer_result r).

(** C1. The reader does not re-open a session after a truncated
  response.  When the mock server cuts the first response of an
  N-byte resource at [t < N], one request is sent, without a range
  header; unless the transfer has already ended in error when the
  status is examined, in which case the open itself fails with -1,
  the open succeeds and a caller reading to the end receives the
  first [t] bytes and then -1 with errno EIO, no further request
  being made. *)
Theorem truncated_response_surfaces (d : TestHTTPd) (path file : string) (F : bytes)
  (t : Z) (n : nat) (w : World Httpd_net) :
files_ d !! path = Some file -> disk d !! file = Some F ->
requests_to_fail_ d = 0%nat -> truncate_response_ d = t ->
0 <= t < Z.of_nat (length F) ->
(0 < n)%nat -> Z.of_nat n < 2 ^ 31 ->
(ensure_curl_init Httpd_net w).1 = CURLE_OK -> server (net Httpd_net w) = d ->
let u := (TEST_HTTPD_URL +:+ path)%string in
exists c obox w1,
  curlstream_open Httpd_net (connect_httpd pace) NDEBUG u 0 w = Some (c, obox, w1) /\
  requests (net Httpd_net w1) = requests (net Httpd_net w) ++ [request_at u 0] /\
  (c = -1 /\ obox = None \/
   c = 0 /\ exists box, obox = Some box /\
     forall fuel, (Z.to_nat t < fuel)%nat ->
       exists box' w2,
         read_all Httpd_net (connect_httpd pace) NDEBUG fuel box n w1
           = Some (-1, take (Z.to_nat t) F, box', w2) /\
         errno Httpd_net w2 = EIO /\
         net Httpd_net w2 = net Httpd_net w1).
Proof.
intros Hf Hd Hfail Ht Hrange Hn Hb Hinit Hsrv u.
destruct (OnRequest_truncated d path file F t Hf Hd Hfail Ht Hrange) as [Hresp Hres].
assert (connect_httpd pace (net Httpd_net w) (request_at u 0)
        = (fresh_session (pace (OnRequest d path ∅).1),
           {| server := (OnRequest d path ∅).2;
              requests := requests (net Httpd_net w) ++ [request_at u 0] |})) as Hconn.
{ unfold connect_httpd, request_at, u. cbn [rq_url rq_headers].
  rewrite strip_prefix_app, Hsrv. change (0 =? 0) with true. cbv iota.
  by destruct (OnRequest d path ∅). }
pose proof (pace_carries (OnRequest d path ∅).1) as Hcar.
rewrite Hres in Hcar. rewrite Hresp in Hcar at 2 3. simpl in Hcar.
destruct (CurlStream_open_receiving (connect_httpd pace) NDEBUG u 0 w _ _ _ _ _
            Hinit Hconn Hcar ltac:(lia))
  as (c & st & w1 & Hopen & Hnet & Herr & Hcases).
unfold curlstream_open, open_helper. simpl. rewrite Hopen. simpl.
destruct Hcases as [(-> & _) | (-> & Hrec & Hcode & Hh & Hrc & Hfin)].
- simpl. eexists _, _, _. split; [done|]. simpl. rewrite Hnet. simpl.
  split; [done|]. by left.
- simpl. eexists _, _, _. split; [done|]. rewrite Hnet. simpl.
  split; [done|]. right. split; [done|].
  eexists. split; [done|]. intros fuel Hfuel.
  destruct (read_all_receiving (connect_httpd pace) NDEBUG 200 CURLE_PARTIAL_FILE
              n u 0 ltac:(lia) ltac:(done) Hn Hb fuel st _ w1 Hrec Hcode Hh
              ltac:(lia) ltac:(rewrite length_take; lia))
    as (st' & w2 & Hall & He & Hn2).
  eexists _, _. split; [exact Hall | by rewrite Hn2, Hnet].
Qed.

End TruncatedResponse.

(** A run of the truncation test: the file of 8 bytes is cut after 3;
    the open succeeds, the reads deliver "ABC" and then fail with -1 and
    EIO, and the only request sent is the first one. *)
Lemma truncated_read_is_not_invisible :
  let w := Sample.world (TruncateNextResponse Sample.httpd 3) in
  (curlstream_open Httpd_net Sample.connect false Sample.url_f 0 w
   ≫= fun '(c, obox, w1) =>
     box ← obox;
     '(c', out, _, w2) ← read_all Httpd_net Sample.connect false 10 box 100 w1;
     Some (c, c', out, errno Httpd_net w2, requests (net Httpd_net w2)))
  = Some (0, -1, [x41; x42; x43], EIO, [request_at Sample.url_f 0])
  /\ [x41; x42; x43] <> Sample.F8.
Proof. split; [vm_compute; reflexivity | discriminate]. Qed.

Lemma truncated_response_surfaces_witness :
  exists c obox w1,
    curlstream_open Httpd_net Sample.connect false Sample.url_f 0
      (Sample.world (TruncateNextResponse Sample.httpd 3)) = Some (c, obox, w1) /\
    requests (net Httpd_net w1) = [] ++ [request_at Sample.url_f 0] /\
    (c = -1 /\ obox = None \/
     c = 0 /\ exists box, obox = Some box /\
       forall fuel, (Z.to_nat 3 < fuel)%nat ->
         exists box' w2,
           read_all Httpd_net Sample.connect false fuel box 100 w1
             = Some (-1, take (Z.to_nat 3) Sample.F8, box', w2) /\
           errno Httpd_net w2 = EIO /\
           net Httpd_net w2 = net Httpd_net w1).
Proof.
  apply (truncated_response_surfaces (steady 1) false (steady_carries 1)
           (TruncateNextResponse Sample.httpd 3) "/f" "data/f" Sample.F8 3 100
           (Sample.world (TruncateNextResponse Sample.httpd 3)));
    try (vm_compute; reflexivity); try (simpl; lia).
Defined.

(** ** Concrete runs *)



(** A request at the very end of the file is answered with 416, and the
    read that made it fails with -4 and EINVAL: it is not an end of
    stream. *)
Lemma range_416_is_not_eof :
  (OnRequest Sample.httpd "/f" (rq_headers (request_at Sample.url_f 8))).1
    = empty_response 416 /\
  Z.of_nat (length Sample.F8) = 8 /\
  (curlstream_read Httpd_net Sample.connect false (Sample.box_at 8) 100
     (Sample.world Sample.httpd)
   ≫= fun '(c, out, s', w') => Some (c, out, stm s', errno Httpd_net w'))
  = Some (-4, [], None, EINVAL).
Proof. split_and!; vm_compute; reflexivity. Qed.

Lemma open_helper_errno_witness :
  exists s' w',
    open_helper Httpd_net Sample.connect false (Sample.box_at 8)
      (Sample.world Sample.httpd) = Some (-4, s', w') /\
    errno Httpd_net w' = EINVAL /\ stm s' = None.
Proof.
  eexists _, _. split; [vm_compute; reflexivity|].
  edestruct (open_helper_errno Sample.connect false (Sample.box_at 8)
               (Sample.world Sample.httpd)) as (st & w1 & Hopen & _ & Hfail & _).
  { vm_compute. reflexivity. }
  destruct (Hfail ltac:(lia)) as (Hstm & _ & _ & _ & _ & _ & _ & H416 & _).
  split; [|exact Hstm]. apply H416.
  vm_compute in Hopen. injection Hopen as <- _. reflexivity.
Defined.



(** A read that fails because one call of [curl_multi_perform] failed
    returns -1, and the next read returns two bytes. *)
Lemma failed_perform_is_not_latched :
  ('(c, st, _) ← CurlStream_open (list session) connect_canned false CurlStream_new
                   "http://h/f" 0 (Sample.canned [Sample.flaky]);
   let '(r1, out1, st1) := CurlStream_read st 100 in
   let '(r2, out2, _) := CurlStream_read st1 100 in
   Some (c, r1, out1, r2, out2))
  = Some (0, -1, [], 2, [x41; x42]).
Proof. vm_compute. reflexivity. Qed.

Lemma CurlStream_read_latched_witness :
  exists st',
    CurlStream_read Sample.drained 4 = (0, [], st') /\
    final_read_rc_ st' = 0 /\
    forall m, CurlStream_read st' m = (0, [], st').
Proof.
  eexists. split; [vm_compute; reflexivity|].
  edestruct (CurlStream_read_latched Sample.drained 4) as [Hlatch Hzero].
  { vm_compute. reflexivity. }
  split; [reflexivity|]. apply Hlatch. simpl. lia.
Defined.

(** * Properties of the buffered layer *)

Lemma length_splice (buf : bytes) pos data :
  (pos + length data <= length buf)%nat ->
  length (splice buf pos data) = length buf.
Proof.
  intros H. unfold splice.
  rewrite !length_app, length_take, length_drop. lia.
Qed.

Lemma take_splice_end (buf : bytes) pos data :
  (pos <= length buf)%nat ->
  take (pos + length data) (splice buf pos data) = take pos buf ++ data.
Proof.
  intros H. unfold splice. rewrite app_assoc.
  apply take_app_length'. rewrite length_app, length_take. lia.
Qed.

Section hFILE_facts.

Context {Env B : Type}.
Variable errno_of : Env -> Z.

Implicit Types f : hFILE Env B.

Lemma window_length f : wf f -> length (window f) = (end_ f - begin f)%nat.
Proof.
unfold wf, window, capacity. intros H.
rewrite length_take, length_drop. lia.
Qed.

Lemma window_advance f k :
wf f -> (k <= end_ f - begin f)%nat ->
window (advance f k) = drop k (window f) /\ wf (advance f k).
Proof.
unfold wf, window, advance, capacity; simpl. intros H Hk. split; [|lia].
replace (end_ f - begin f)%nat with (k + (end_ f - (begin f + k)))%nat by lia.
by rewrite <- take_drop_commute, drop_drop.
Qed.

(** What a refill of an empty window does. *)
Lemma refill_spec rd f env r f2 env2 :
read_ok errno_of rd -> begin f = end_ f -> (end_ f <= capacity f)%nat ->
refill errno_of rd f env = Some (r, f2, env2) ->
mode f2 = mode f /\ backend f2 = backend f /\ offset f2 = offset f /\
capacity f2 = capacity f /\
exists got b',
  rd (bstate f) (capacity f) env = Some (r, got, b', env2) /\ bstate f2 = b' /\
  (0 < r /\ err f2 = err f /\ window f2 = got /\ wf f2
   \/ r = 0 /\ err f2 = err f /\ window f2 = [] /\ wf f2
   \/ r < 0 /\ err f2 <> 0).
Proof.
intros Hrd Hbe Hcap. unfold refill.
destruct (rd (bstate f) (capacity f) env) as [[[[r0 got] b'] env']|] eqn:Hcall;
  [|done].
destruct (Hrd _ _ _ _ _ _ _ Hcall) as (Hle & Hlen & Hneg).
simpl. rewrite Hbe, Nat.sub_diag, Z.add_0_r.
destruct (0 <? r0) eqn:Hpos; [apply Z.ltb_lt in Hpos|apply Z.ltb_ge in Hpos].
- intros [= <- <- <-]. simpl.
  assert (length got <= capacity f)%nat as Hgot by (rewrite Hlen; lia).
  unfold capacity in *. simpl.
  split_and!; try done.
  { by rewrite length_splice. }
  exists got, b'. split_and!; try done. left.
  unfold wf, window, capacity. simpl. split_and!; try done.
  + rewrite drop_0, Nat.sub_0_r, <- (Hlen Hpos).
    apply (take_splice_end (buffer f) 0 got). lia.
  + lia.
  + rewrite length_splice by done. lia.
- destruct (r0 =? 0) eqn:Hz; [apply Z.eqb_eq in Hz; subst r0|apply Z.eqb_neq in Hz].
  + intros [= <- <- <-]. simpl. split_and!; try done.
    exists got, b'. split_and!; try done. right. left.
    unfold wf, window; simpl. split_and!; try done. lia.
  + intros [= <- <- <-]. simpl. split_and!; try done.
    exists got, b'. split_and!; try done. right. right.
    split; [lia|]. apply Hneg. lia.
Qed.

(** What [hread] does on a healthy read-mode stream: it serves the
  request from the window, or, the window falling short, hands over
  the window and what one backend read adds. *)
Lemma hread_spec rd f n env r out f' env' :
wf f -> err f = 0 -> mode f = RD -> read (backend f) = Some rd ->
read_ok errno_of rd ->
hread errno_of f n env = Some (r, out, f', env') ->
backend f' = backend f /\ mode f' = RD /\ capacity f' = capacity f /\
((n <= length (window f))%nat /\ r = Z.of_nat n /\ out = take n (window f) /\
 window f' = drop n (window f) /\ wf f' /\ err f' = 0 /\ env' = env /\
 bstate f' = bstate f /\ offset f' = offset f + Z.of_nat n
 \/
 (length (window f) < n)%nat /\
 exists r0 got b',
   rd (bstate f) (capacity f) env = Some (r0, got, b', env') /\ bstate f' = b' /\
   (0 < r0 /\ err f' = 0 /\ wf f' /\
    (let k1 := Nat.min (n - length (window f)) (Z.to_nat r0) in
     r = Z.of_nat (length (window f) + k1) /\
     out = window f ++ take k1 got /\ window f' = drop k1 got /\
     offset f' = offset f + Z.of_nat (length (window f) + k1))
    \/ r0 = 0 /\ err f' = 0 /\ wf f' /\ r = Z.of_nat (length (window f)) /\
       out = window f /\ window f' = [] /\
       offset f' = offset f + Z.of_nat (length (window f))
    \/ r0 < 0 /\ r = -1 /\ out = [] /\ err f' <> 0)).
Proof.
intros Hwf Herr Hmode Hcap Hrd. unfold hread.
rewrite Herr, Hmode, Hcap. simpl.
pose proof (window_length f Hwf) as Hwl. rewrite <- Hwl.
destruct (Nat.eqb_spec (Nat.min n (length (window f))) n) as [Hfit|Hmiss].
- intros [= <- <- <- <-].
  assert (n <= length (window f))%nat as Hn by lia.
  rewrite Nat.min_l by done.
  destruct (window_advance f n Hwf ltac:(lia)) as [Hw Hwf'].
  split_and!; try done. left. split_and!; try done.
- assert (length (window f) < n)%nat as Hn by lia.
  rewrite Nat.min_r by lia.
  destruct (window_advance f (length (window f)) Hwf ltac:(lia)) as [Hw Hwf1].
  set (f1 := advance f (length (window f))) in *.
  destruct (refill errno_of rd f1 env) as [[[r0 f2] env2]|] eqn:Hrf; [|done].
  apply refill_spec in Hrf as (Hm2 & Hb2 & Ho2 & Hc2 & got & b' & Hcall & Hbs & Hcases);
    [|done|unfold f1, advance; simpl; unfold wf in Hwf; lia
     |unfold f1, advance, capacity; simpl; unfold wf, capacity in Hwf; lia].
  simpl.
  destruct Hcases as [(Hpos & He2 & Hw2 & Hwf2) | [(-> & He2 & Hw2 & Hwf2) | (Hneg & He2)]].
  + replace (r0 <? 0) with false by (symmetry; apply Z.ltb_ge; lia).
    pose proof (window_length f2 Hwf2) as Hwl2.
    assert (length got = Z.to_nat r0) as Hgl.
    { destruct (Hrd _ _ _ _ _ _ _ Hcall) as (_ & Hl & _). by apply Hl. }
    intros [= <- <- <- <-].
    destruct (window_advance f2 (Nat.min (n - length (window f)) (end_ f2 - begin f2)) Hwf2
                ltac:(lia)) as [Hw3 Hwf3].
    split_and!; try done; [unfold capacity, f1 in *; simpl in *; congruence .. |].
    right. split; [done|]. exists r0, got, b'. split_and!; try done.
    left. rewrite <- Hwl2, Hw2, Hgl in *. split_and!; try done.
    * simpl. unfold f1 in He2; simpl in He2. congruence.
    * by rewrite take_ge by lia.
    * simpl. rewrite Ho2. unfold f1; simpl. lia.
  + simpl. intros [= <- <- <- <-].
    pose proof (window_length f2 Hwf2) as Hwl2. rewrite Hw2 in Hwl2. simpl in Hwl2.
    rewrite <- Hwl2, Nat.min_0_r.
    destruct (window_advance f2 0 Hwf2 ltac:(lia)) as [Hw3 Hwf3].
    split_and!; try done; [unfold capacity, f1 in *; simpl in *; congruence .. |].
    right. split; [done|]. exists 0, got, b'. split_and!; try done.
    right. left. split_and!; try done.
    * simpl. unfold f1 in He2; simpl in He2. congruence.
    * f_equal. lia.
    * rewrite take_0, app_nil_r. by rewrite take_ge by lia.
    * by rewrite Hw3, Hw2.
    * simpl. rewrite Ho2. unfold f1; simpl. lia.
  + replace (r0 <? 0) with true by (symmetry; apply Z.ltb_lt; lia).
    intros [= <- <- <- <-].
    split_and!; try done; [unfold capacity, f1 in *; simpl in *; congruence .. |].
    right. split; [done|]. exists r0, got, b'. split_and!; try done.
    right. right. done.
Qed.

(** What the loop of [hpeek] does: it leaves mode, backend and offset
  alone and only adds bytes after the ones the window holds. *)
Lemma peek_fill_spec rd n :
read_ok errno_of rd ->
forall fuel f env r f1 env1,
  wf f -> peek_fill errno_of fuel rd f n env = Some (r, f1, env1) ->
  mode f1 = mode f /\ backend f1 = backend f /\ offset f1 = offset f /\
  capacity f1 = capacity f /\
  (0 <= r /\ err f1 = err f /\ wf f1 /\ window f `prefix_of` window f1
   \/ r < 0 /\ err f1 <> 0).
Proof.
intros Hrd. induction fuel as [|fuel IH]; intros f env r f1 env1 Hwf; simpl.
- repeat case_match; intros [= <- <- <-]; split_and!; try done; left; done.
- destruct (n <=? end_ f - begin f)%nat;
    [intros [= <- <- <-]; split_and!; try done; left; done|].
  destruct (capacity f <=? end_ f - begin f)%nat;
    [intros [= <- <- <-]; split_and!; try done; left; done|].
  pose proof (window_length f Hwf) as Hwl.
  set (len := (end_ f - begin f)%nat) in *.
  assert (len <= capacity f)%nat as Hlen by (unfold wf in Hwf; lia).
  assert (length (splice (buffer f) 0 (window f)) = capacity f) as Hsl.
  { apply length_splice. simpl. rewrite Hwl. done. }
  assert (take len (splice (buffer f) 0 (window f)) = window f) as Hslw.
  { unfold splice. simpl. by apply take_app_length'. }
  destruct (rd (bstate f) (capacity f - len)%nat env) as [[[[r0 got] b] env']|] eqn:Hcall;
    [|done].
  destruct (Hrd _ _ _ _ _ _ _ Hcall) as (Hle & Hgl & Hneg).
  simpl.
  destruct (0 <? r0) eqn:Hpos; [apply Z.ltb_lt in Hpos|apply Z.ltb_ge in Hpos].
  + intros Hrec. apply IH in Hrec.
    * destruct Hrec as (Hm & Hb & Ho & Hc & Hcases). simpl in *.
      unfold capacity in *; simpl in *.
      rewrite length_splice in Hc by (rewrite Hsl, Hgl by done; lia).
      split_and!; try done; [congruence|].
      destruct Hcases as [(H0 & He & Hwf1 & Hpre) | ?]; [left|by right].
      split_and!; try done.
      etrans; [|exact Hpre]. unfold window at 2; simpl.
      rewrite drop_0, Nat.sub_0_r, <- (Hgl Hpos).
      rewrite take_splice_end by lia. rewrite Hslw. by apply prefix_app_r.
    * unfold wf, capacity; simpl.
      rewrite length_splice by (rewrite Hsl, Hgl by done; lia). lia.
  + destruct (r0 =? 0) eqn:Hz; [apply Z.eqb_eq in Hz; subst r0|apply Z.eqb_neq in Hz].
    * intros [= <- <- <-]. unfold capacity; simpl.
      split_and!; try done. left. split_and!; try done.
      -- unfold wf, capacity; simpl. lia.
      -- unfold window at 2; simpl. by rewrite drop_0, Nat.sub_0_r, Hslw.
    * intros [= <- <- <-]. unfold capacity; simpl.
      split_and!; try done. right. split; [lia|]. apply Hneg. lia.
Qed.

(** The number of rounds given to the loop is enough: more would not
  change its outcome. *)
Lemma peek_fill_fuel rd n :
read_ok errno_of rd ->
forall fuel f env,
  wf f -> (capacity f - (end_ f - begin f) <= fuel)%nat ->
  peek_fill errno_of (S fuel) rd f n env = peek_fill errno_of fuel rd f n env.
Proof.
intros Hrd. induction fuel as [|fuel IH]; intros f env Hwf Hroom.
- simpl. destruct (n <=? end_ f - begin f)%nat; [done|].
  destruct (Nat.leb_spec (capacity f) (end_ f - begin f)); [done|lia].
- cbn [peek_fill].
  destruct (n <=? end_ f - begin f)%nat; [done|].
  destruct (Nat.leb_spec (capacity f) (end_ f - begin f)) as [|Hlt]; [done|].
  pose proof (window_length f Hwf) as Hwl.
  set (len := (end_ f - begin f)%nat) in *.
  assert (length (splice (buffer f) 0 (window f)) = capacity f) as Hsl.
  { apply length_splice. simpl. rewrite Hwl. unfold capacity in *. lia. }
  destruct (rd (bstate f) (capacity f - len)%nat env) as [[[[r0 got] b] env']|] eqn:Hcall;
    [|done].
  destruct (Hrd _ _ _ _ _ _ _ Hcall) as (Hle & Hgl & Hneg).
  cbn [mbind option_bind].
  destruct (0 <? r0) eqn:Hpos; [apply Z.ltb_lt in Hpos|done].
  apply IH.
  + unfold wf, capacity; simpl.
    rewrite length_splice by (rewrite Hsl, Hgl by done; lia). lia.
  + unfold capacity; simpl.
    rewrite length_splice by (rewrite Hsl, Hgl by done; lia).
    unfold capacity in *. lia.
Qed.

(** What [hpeek] does on a healthy read-mode stream. *)
Lemma hpeek_spec rd f n env r out f1 env1 :
wf f -> err f = 0 -> mode f = RD -> read (backend f) = Some rd ->
read_ok errno_of rd ->
hpeek errno_of f n env = Some (r, out, f1, env1) ->
mode f1 = RD /\ backend f1 = backend f /\ offset f1 = offset f /\
capacity f1 = capacity f /\
(err f1 = 0 /\ wf f1 /\ window f `prefix_of` window f1 /\
 r = Z.of_nat (Nat.min n (length (window f1))) /\
 out = take (Nat.min n (length (window f1))) (window f1)
 \/ r = -1 /\ out = [] /\ err f1 <> 0).
Proof.
intros Hwf Herr Hmode Hcap Hrd. unfold hpeek.
rewrite Herr, Hmode, Hcap. simpl.
destruct (peek_fill errno_of (capacity f) rd f n env) as [[[r0 f2] env2]|] eqn:Hpf;
  [|done].
apply peek_fill_spec in Hpf as (Hm & Hb & Ho & Hc & Hcases); [|done..].
simpl.
destruct Hcases as [(H0 & He & Hwf2 & Hpre) | (Hneg & He)].
- replace (r0 <? 0) with false by (symmetry; apply Z.ltb_ge; lia).
  intros [= <- <- <- <-]. rewrite <- (window_length f2 Hwf2).
  split_and!; try congruence. left. split_and!; try done. congruence.
- replace (r0 <? 0) with true by (symmetry; apply Z.ltb_lt; lia).
  intros [= <- <- <- <-]. split_and!; try congruence. by right.
Qed.

Lemma peek_fill_frame rd n :
forall fuel f env r f1 env1,
  peek_fill errno_of fuel rd f n env = Some (r, f1, env1) ->
  mode f1 = mode f /\ offset f1 = offset f /\ backend f1 = backend f.
Proof.
induction fuel as [|fuel IH]; intros f env r f1 env1; simpl.
- repeat case_match; by intros [= <- <- <-].
- destruct (n <=? end_ f - begin f)%nat; [by intros [= <- <- <-]|].
  destruct (capacity f <=? end_ f - begin f)%nat; [by intros [= <- <- <-]|].
  destruct (rd _ _ _) as [[[[r0 got] b] env']|]; [|done]. simpl.
  destruct (0 <? r0).
  + intros Hrec. by apply IH in Hrec as (? & ? & ?).
  + destruct (r0 =? 0); by intros [= <- <- <-].
Qed.

(** [hpeek] leaves the offset that [htell] reports where it was,
  whatever the stream and whatever the backend does. *)
Lemma hpeek_htell f n env r out f1 env1 :
hpeek errno_of f n env = Some (r, out, f1, env1) ->
htell f1 = htell f /\ backend f1 = backend f.
Proof.
unfold hpeek.
destruct (negb (err f =? 0)); [by intros [= <- <- <- <-]|].
destruct (mode f) eqn:Hmode; [|by intros [= <- <- <- <-]; unfold htell; simpl; rewrite Hmode].
destruct (read (backend f)) as [rd|];
  [|by intros [= <- <- <- <-]; unfold htell; simpl; rewrite Hmode].
destruct (peek_fill errno_of (capacity f) rd f n env) as [[[r0 f2] env2]|] eqn:Hpf;
  [|done].
apply peek_fill_frame in Hpf as (Hm & Ho & Hb). simpl.
destruct (r0 <? 0); intros [= <- <- <- <-]; (split; [|done]);
  unfold htell; by rewrite Hm, Hmode, Ho.
Qed.

Lemma hread_backend f n env r out f1 env1 :
hread errno_of f n env = Some (r, out, f1, env1) -> backend f1 = backend f.
Proof.
unfold hread.
destruct (negb (err f =? 0)); [by intros [= <- <- <- <-]|].
destruct (mode f); [|by intros [= <- <- <- <-]].
destruct (read (backend f)) as [rd|]; [|by intros [= <- <- <- <-]].
destruct (_ =? n)%nat; [by intros [= <- <- <- <-]|].
unfold refill.
destruct (rd _ _ _) as [[[[r0 got] b] env']|]; [|done]. simpl.
destruct (0 <? r0); simpl; [destruct (r0 <? 0); by intros [= <- <- <- <-]|].
destruct (r0 =? 0); simpl; [by intros [= <- <- <- <-]|].
destruct (r0 <? 0); by intros [= <- <- <- <-].
Qed.

(** On a stream in error every read-side call fails and hands nothing
  over. *)
Lemma run_ops_dead ops : forall f env logs f' env',
err f <> 0 -> run_ops errno_of f ops env = Some (logs, f', env') ->
bytes_read logs = [].
Proof.
induction ops as [|op ops IH]; intros f env logs f' env' Herr; simpl.
- by intros [= <- <- <-].
- assert (match op with
          | Read n => hread errno_of f n env
          | Peek n => hpeek errno_of f n env
          end = Some (-1, [], f, env)) as ->.
  { apply Z.eqb_neq in Herr. unfold hread, hpeek. destruct op; by rewrite Herr. }
  simpl. destruct (run_ops errno_of f ops env) as [[[logs1 f2] env2]|] eqn:Hrun; [|done].
  simpl. intros [= <- <- <-]. simpl.
  rewrite (IH _ _ _ _ _ Herr Hrun). by destruct op.
Qed.

(** The bytes a run of read-side calls returns and a prefix [P] of the
  window it starts from: one is a prefix of the other. *)
Lemma run_ops_prefix rd ops : forall f env (P : bytes) logs f' env',
read (backend f) = Some rd -> read_ok errno_of rd ->
err f = 0 -> mode f = RD -> wf f -> P `prefix_of` window f ->
run_ops errno_of f ops env = Some (logs, f', env') ->
bytes_read logs `prefix_of` P \/ P `prefix_of` bytes_read logs.
Proof.
induction ops as [|op ops IH]; intros f env P logs f' env' Hcap Hrd Herr Hmode Hwf Hpre;
  simpl.
- intros [= <- <- <-]. left. apply prefix_nil.
- destruct op as [n|n].
  + destruct (hread errno_of f n env) as [[[[r out] f1] env1]|] eqn:Hread; [|done].
    simpl. destruct (run_ops errno_of f1 ops env1) as [[[logs1 f2] env2]|] eqn:Hrun;
      [|done].
    simpl. intros [= <- <- <-]. simpl.
    destruct (hread_spec rd f n env r out f1 env1 Hwf Herr Hmode Hcap Hrd Hread)
      as (Hb1 & Hm1 & Hc1 & Hcases).
    destruct Hcases as
      [(Hn & -> & -> & Hw1 & Hwf1 & He1 & -> & Hbs & Ho)
      |(Hn & r0 & got & b' & Hcall & Hbs & Hmiss)].
    * destruct (Nat.le_gt_cases n (length P)) as [Hle|Hgt].
      -- assert (take n (window f) = take n P) as Htake.
         { destruct Hpre as [k ->]. by rewrite take_app_le. }
         rewrite Htake.
         assert (drop n P `prefix_of` window f1) as Hpre1.
         { rewrite Hw1. destruct Hpre as [k ->].
           rewrite drop_app_le by done. by apply prefix_app_r. }
         destruct (IH f1 env (drop n P) logs1 f2 env2 ltac:(congruence) Hrd He1 Hm1 Hwf1
                     Hpre1 Hrun) as [Hl|Hr].
         ++ left. rewrite <- (take_drop n P) at 2. by apply prefix_app.
         ++ right. rewrite <- (take_drop n P) at 1. by apply prefix_app.
      -- right. apply prefix_app_r.
         destruct Hpre as [k ->]. rewrite take_app_ge by lia.
         by apply prefix_app_r.
    * assert (P `prefix_of` window f ++ take (Nat.min (n - length (window f)) (Z.to_nat r0)) got)
        as Hall by (by apply prefix_app_r).
      destruct Hmiss as
        [(_ & _ & _ & _ & -> & _) | [(_ & _ & _ & _ & -> & _) | (_ & _ & -> & He1)]].
      -- right. by apply prefix_app_r.
      -- right. by apply prefix_app_r.
      -- rewrite (run_ops_dead _ _ _ _ _ _ He1 Hrun). left. apply prefix_nil.
  + destruct (hpeek errno_of f n env) as [[[[r out] f1] env1]|] eqn:Hpeek; [|done].
    simpl. destruct (run_ops errno_of f1 ops env1) as [[[logs1 f2] env2]|] eqn:Hrun;
      [|done].
    simpl. intros [= <- <- <-]. simpl.
    destruct (hpeek_spec rd f n env r out f1 env1 Hwf Herr Hmode Hcap Hrd Hpeek)
      as (Hm1 & Hb1 & Ho1 & Hc1 & Hcases).
    destruct Hcases as [(He1 & Hwf1 & Hpre1 & _) | (_ & _ & He1)].
    * eapply (IH f1 env1 P); try done; [congruence | by etrans].
    * rewrite (run_ops_dead _ _ _ _ _ _ He1 Hrun). left. apply prefix_nil.
Qed.

(** C5. [htell] reports the same offset before and after every [hpeek]
  of any run of read-side calls, and the bytes an [hpeek] returned are
  what the [hread] calls after it return first: of those bytes and the
  ones read, the shorter sequence is a prefix of the longer. *)
Theorem hpeek_keeps_offset (f : hFILE Env B) (env : Env) :
(forall rd, read (backend f) = Some rd -> read_ok errno_of rd) -> wf f ->
(forall ops logs f' env',
   run_ops errno_of f ops env = Some (logs, f', env') ->
   Forall (fun l => forall n, lg_op l = Peek n -> lg_tell_after l = lg_tell_before l)
          logs) /\
(forall n k P f1 env1,
   hpeek errno_of f n env = Some (k, P, f1, env1) ->
   htell f1 = htell f /\
   (0 <= k ->
    k = Z.of_nat (length P) /\ (length P <= n)%nat /\ (length P <= capacity f)%nat /\
    forall ops logs f2 env2,
      run_ops errno_of f1 ops env1 = Some (logs, f2, env2) ->
      let R := bytes_read logs in
      ((length P <= length R)%nat -> P `prefix_of` R) /\
      ((length R <= length P)%nat -> R `prefix_of` P))).
Proof.
intros Hrd Hwf. split.
- intros ops. clear Hrd Hwf. revert f env.
  induction ops as [|op ops IH]; intros f env logs f' env'; simpl.
  + intros [= <- <- <-]. constructor.
  + destruct op as [n|n].
    * destruct (hread errno_of f n env) as [[[[r out] f1] env1]|]; [|done].
      simpl. destruct (run_ops errno_of f1 ops env1) as [[[logs1 f2] env2]|] eqn:Hrun;
        [|done].
      simpl. intros [= <- <- <-]. constructor; [done|]. by eapply IH.
    * destruct (hpeek errno_of f n env) as [[[[r out] f1] env1]|] eqn:Hpeek; [|done].
      simpl. destruct (run_ops errno_of f1 ops env1) as [[[logs1 f2] env2]|] eqn:Hrun;
        [|done].
      simpl. intros [= <- <- <-]. constructor; [|by eapply IH].
      simpl. intros _ _. by apply hpeek_htell in Hpeek as [? _].
- intros n k P f1 env1 Hpeek.
  split; [by apply hpeek_htell in Hpeek as [? _]|].
  intros Hk. revert Hpeek. unfold hpeek at 1.
  destruct (err f =? 0) eqn:Herr; simpl; [|intros [= <- <- <- <-]; lia].
  apply Z.eqb_eq in Herr.
  destruct (mode f) eqn:Hmode; [|intros [= <- <- <- <-]; lia].
  destruct (read (backend f)) as [rd|] eqn:Hcap; [|intros [= <- <- <- <-]; lia].
  intros Hpf.
  assert (hpeek errno_of f n env = Some (k, P, f1, env1)) as Hpeek.
  { unfold hpeek. by rewrite Herr, Hmode, Hcap. }
  clear Hpf.
  destruct (hpeek_spec rd f n env k P f1 env1 Hwf Herr Hmode Hcap (Hrd rd eq_refl) Hpeek)
    as (Hm1 & Hb1 & Ho1 & Hc1 & Hcases).
  destruct Hcases as [(He1 & Hwf1 & Hpre1 & -> & ->) | (-> & _)]; [|lia].
  pose proof (window_length f1 Hwf1) as Hwl1.
  assert (length (take (Nat.min n (length (window f1))) (window f1))
          = Nat.min n (length (window f1))) as HlP by (rewrite length_take; lia).
  rewrite HlP. split_and!; [done | lia | unfold wf in Hwf1; lia |].
  intros ops logs f2 env2 Hrun.
  destruct (run_ops_prefix rd ops f1 env1
              (take (Nat.min n (length (window f1))) (window f1)) logs f2 env2
              ltac:(congruence) (Hrd rd eq_refl) He1 Hm1 Hwf1
              (prefix_take (window f1) (Nat.min n (length (window f1)))) Hrun) as [Hl|Hr];
    set (R := bytes_read logs) in *.
  + split; [|done]. intros Hlen.
    assert (R = take (Nat.min n (length (window f1))) (window f1)) as ->; [|done].
    apply prefix_length_eq; [done|]. rewrite HlP. lia.
  + split; [done|]. intros Hlen.
    assert (take (Nat.min n (length (window f1))) (window f1) = R) as ->; [|done].
    apply prefix_length_eq; [done|]. rewrite HlP. lia.
Qed.

End hFILE_facts.

(** ** The file backend under the buffered layer *)

Lemma fd_read_ok : read_ok Fd.fs_errno Fd.fd_read.
Proof.
  intros b n env r out b' env'. unfold Fd.fd_read. intros [= <- <- <- <-].
  split_and!; [|lia|lia].
  rewrite length_take. lia.
Qed.

(** One [hread] on a file: it returns a prefix of what is left, as long
    as asked for or shorter, and an empty one only when nothing is left
    or nothing was asked for. *)
Lemma fd_hread f env path rest n :
  serving f env path rest ->
  exists out f',
    hread Fd.fs_errno f n env = Some (Z.of_nat (length out), out, f', env) /\
    (length out <= n)%nat /\ out = take (length out) rest /\
    ((0 < n)%nat -> rest <> [] -> out <> []) /\
    serving f' env path (drop (length out) rest).
Proof.
  intros (Hmode & Herr & Hwf & Hbk & Hcap & Hpath & Hrest).
  assert (read (backend f) = Some Fd.fd_read) as Hrd by (by rewrite Hbk).
  destruct (hread Fd.fs_errno f n env) as [[[[r out] f'] env']|] eqn:Hread.
  2:{ exfalso. revert Hread. unfold hread, refill. rewrite Herr, Hmode, Hrd. simpl.
      destruct (_ =? n)%nat; [done|]. unfold Fd.fd_read. simpl.
      destruct (0 <? _); simpl; [by destruct (_ <? 0)|].
      destruct (_ =? 0); simpl; [done|]. by destruct (_ <? 0). }
  destruct (hread_spec Fd.fs_errno Fd.fd_read f n env r out f' env' Hwf Herr Hmode Hrd
              fd_read_ok Hread) as (Hb' & Hm' & Hc' & Hcases).
  set (F := default [] (Fd.fs env !! path)) in *.
  destruct Hcases as
    [(Hn & -> & -> & Hw' & Hwf' & He' & -> & Hbs & Ho)
    |(Hn & r0 & got & b' & Hcall & Hbs & Hmiss)].
  - assert (length (take n (window f)) = n) as Hlen by (rewrite length_take; lia).
    exists (take n (window f)), f'. rewrite Hlen. split_and!; try done.
    + rewrite <- Hrest. by rewrite take_app_le.
    + intros Hpos _ Heq. rewrite Heq in Hlen. simpl in Hlen. lia.
    + unfold serving. rewrite Hbs, Hw', Hb', Hc'. split_and!; try done.
      rewrite <- Hrest. by rewrite drop_app_le.
  - unfold Fd.fd_read in Hcall. unfold Fd.content in Hcall. rewrite Hpath in Hcall.
    fold F in Hcall. injection Hcall as <- <- <- <-.
    set (X := drop (Fd.fd_pos (bstate f)) F) in *.
    set (got := take (capacity f) X) in *.
    destruct Hmiss as
      [(Hpos & He' & Hwf' & -> & -> & Hw' & Ho)
      |[(Hz & He' & Hwf' & -> & -> & Hw' & Ho) | (Hneg & _)]]; [| |lia].
    + rewrite Nat2Z.id in *.
      set (k1 := Nat.min (n - length (window f)) (length got)).
      assert (k1 <= length got)%nat as Hk1 by lia.
      assert (0 < k1)%nat as Hk1pos by lia.
      assert (take k1 got = take k1 X) as Htk.
      { unfold got. rewrite take_take. f_equal.
        unfold got in Hk1. rewrite length_take in Hk1. lia. }
      assert (length (window f ++ take k1 got) = length (window f) + k1)%nat as Hlen.
      { rewrite length_app, length_take. lia. }
      exists (window f ++ take k1 got), f'. rewrite Hlen. split_and!; try done.
      * lia.
      * rewrite <- Hrest. rewrite take_app_ge by lia.
        replace (length (window f) + k1 - length (window f))%nat with k1 by lia.
        by rewrite Htk.
      * intros _ _ Heq. rewrite Heq in Hlen. simpl in Hlen. lia.
      * unfold serving. rewrite Hbs, Hw', Hb', Hc'. simpl.
        split_and!; try done.
        rewrite <- Hrest. rewrite drop_app_ge by lia.
        replace (length (window f) + k1 - length (window f))%nat with k1 by lia.
        fold F. fold X. fold k1.
        assert (X = got ++ drop (length got) X) as HX.
        { rewrite <- (take_drop (length got) X) at 1. f_equal.
          unfold got. rewrite length_take.
          destruct (Nat.le_gt_cases (capacity f) (length X));
            [by rewrite Nat.min_l | rewrite Nat.min_r by lia; by rewrite !take_ge by lia]. }
        transitivity (drop k1 (got ++ drop (length got) X)); [|by rewrite <- HX].
        rewrite drop_app_le by done. f_equal.
        unfold X. by rewrite drop_drop.
    + assert (got = []) as Hgot.
      { apply length_zero_iff_nil. lia. }
      assert (X = []) as HX.
      { unfold got in Hgot. apply take_nil_inv in Hgot as [?|?]; [lia|done]. }
      exists (window f), f'. split_and!; try done.
      * lia.
      * rewrite <- Hrest, HX, app_nil_r. by rewrite take_ge.
      * intros _ Hne Heq. apply Hne. by rewrite <- Hrest, HX, app_nil_r.
      * unfold serving. rewrite Hbs, Hw', Hb', Hc'. simpl.
        split_and!; try done.
        rewrite Hgot. simpl. rewrite Nat.add_0_r. fold F. fold X.
        rewrite HX. rewrite <- Hrest, HX, app_nil_r. by rewrite drop_all.
Qed.

Lemma fd_hread_seq ns : forall f env path rest,
  serving f env path rest ->
  exists rs f',
    hread_seq Fd.fs_errno f ns env = Some (rs, f', env) /\
    reads_follow rest ns rs /\
    serving f' env path (drop (length (concat rs.*2)) rest).
Proof.
  induction ns as [|n ns IH]; intros f env path rest Hs; simpl.
  - exists [], f. by rewrite drop_0.
  - destruct (fd_hread f env path rest n Hs) as (out & f1 & -> & Hlen & Hout & Hne & Hs1).
    simpl. destruct (IH f1 env path _ Hs1) as (rs & f2 & -> & Hfol & Hs2).
    simpl. eexists _, f2. split; [done|]. simpl. split; [done|].
    by rewrite length_app, <- drop_drop.
Qed.

(** Reads that follow a byte sequence return a prefix of it, no result
    is negative, and once one of them, asked for at least one byte,
    returns 0, the whole sequence has been returned. *)
Lemma reads_follow_facts ns : forall rest rs,
  reads_follow rest ns rs ->
  concat rs.*2 `prefix_of` rest /\
  Forall (fun ro => ro.1 = Z.of_nat (length ro.2)) rs /\
  (forall i n r out,
     ns !! i = Some n -> rs !! i = Some (r, out) -> (0 < n)%nat -> r = 0 ->
     concat rs.*2 = rest).
Proof.
  induction ns as [|n ns IH]; intros rest [|[r out] rs]; simpl; try done.
  - intros _. split_and!; [apply prefix_nil | constructor | intros i ? ? ? [=]].
  - intros (-> & Hlen & Hout & Hne & Hfol).
    destruct (IH _ _ Hfol) as (Hpre & Hall & Hzero).
    split_and!.
    + rewrite <- (take_drop (length out) rest), <- Hout. by apply prefix_app.
    + by constructor.
    + intros [|i] n' r' out' Hn Hr Hpos Hr0; simpl in *.
      * injection Hn as ->. injection Hr as <- <-.
        assert (out = []) as -> by (apply length_zero_iff_nil; lia).
        destruct rest as [|c rest]. 
        -- simpl in *. by apply prefix_nil_inv in Hpre.
        -- exfalso. by apply Hne.
      * etrans; [|apply (take_drop (length out) rest)].
        f_equal; [done|]. exact (Hzero i n' r' out' Hn Hr Hpos Hr0).
Qed.

Lemma fd_hgetc f env path rest :
  serving f env path rest ->
  exists f',
    hgetc Fd.fs_errno f env
      = Some (match rest with c :: _ => byte_value c | [] => EOF end, f', env) /\
    serving f' env path (drop 1 rest).
Proof.
  intros Hs. unfold hgetc.
  destruct (fd_hread f env path rest 1 Hs) as (out & f1 & -> & Hlen & Hout & Hne & Hs1).
  simpl. destruct out as [|c [|c' out]]; simpl in *; [| |lia].
  - destruct rest as [|c rest]; [|exfalso; apply Hne; [lia|done..]].
    by exists f1.
  - destruct rest as [|c0 rest]; [done|]. simpl in Hout. injection Hout as ->.
    by exists f1.
Qed.

Lemma fd_hgetc_seq k : forall f env path rest,
  serving f env path rest ->
  exists f',
    hgetc_seq Fd.fs_errno f k env
      = Some ((byte_value <$> take k rest) ++ replicate (k - length rest) EOF, f', env).
Proof.
  induction k as [|k IH]; intros f env path rest Hs; simpl.
  - by exists f.
  - destruct (fd_hgetc f env path rest Hs) as (f1 & -> & Hs1). simpl.
    destruct (IH f1 env path _ Hs1) as (f2 & ->). simpl.
    exists f2. destruct rest as [|c rest]; simpl.
    + by rewrite take_nil, Nat.sub_0_r.
    + by rewrite drop_0.
Qed.

Lemma hopen_file_serving cap path F env :
  (0 < cap)%nat -> Fd.fs env !! path = Some F ->
  exists f, Fd.hopen_file cap path RD env = (Some f, env) /\ serving f env path F.
Proof.
  intros Hcap Hf. unfold Fd.hopen_file. cbv zeta.
  eexists. split; [by rewrite Hf|].
  unfold serving, hfile_init, wf, window, capacity.
  simpl in *. rewrite length_replicate. split_and!; try done; try lia.
  by rewrite Hf.
Qed.

(** ** Writing through the buffered layer *)

Section Sink.

Context {Env B : Type}.
Variable errno_of : Env -> Z.
Variable wr : B -> bytes -> Env -> Z * B * Env.
Variable good : B -> Env -> bytes -> Prop.
Hypothesis Hsink : sink_ok wr good.

Implicit Types f : hFILE Env B.

Lemma drain_sink b env W pending fuel :
good b env W -> pending <> [] ->
exists b' env',
  drain (S fuel) wr pending b env = (0, [], b', env') /\ good b' env' (W ++ pending).
Proof.
intros Hgood Hne.
destruct (Hsink b env W pending Hgood Hne) as (b' & env' & Hwr & Hgood').
exists b', env'. split; [|done].
destruct pending as [|c pending]; [done|].
cbn [drain]. rewrite Hwr.
replace (0 <? Z.of_nat (length (c :: pending))) with true
  by (symmetry; apply Z.ltb_lt; simpl; lia).
rewrite Nat2Z.id, drop_all. by destruct fuel.
Qed.

(** Flushing hands the pending bytes to the backend and empties the
  window. *)
Lemma flush_buffer_sink f env W0 :
mode f = WR -> write (backend f) = Some wr -> good (bstate f) env W0 ->
exists f' env',
  flush_buffer errno_of f env = (0, f', env') /\
  mode f' = WR /\ err f' = err f /\ begin f' = 0%nat /\ end_ f' = 0%nat /\
  buffer f' = buffer f /\ backend f' = backend f /\
  good (bstate f') env' (W0 ++ window f).
Proof.
intros Hmode Hwr Hgood. unfold flush_buffer. rewrite Hmode.
destruct (window f) as [|c pending] eqn:Hwin.
- eexists _, _. split; [done|]. rewrite app_nil_r. simpl. by split_and!.
- rewrite Hwr.
  destruct (drain_sink (bstate f) env W0 (c :: pending) (length pending) Hgood
              ltac:(done)) as (b' & env' & Hdr & Hgood').
  change (length (c :: pending)) with (S (length pending)).
  rewrite Hdr. simpl. eexists _, _. split; [done|]. simpl. by split_and!.
Qed.

Lemma stage_staging f c env W :
staging wr good f env W ->
exists f' env',
  stage errno_of f c env = (0, f', env') /\ staging wr good f' env' (W ++ [c]) /\
  capacity f' = capacity f /\ backend f' = backend f.
Proof.
intros (Hmode & Herr & Hbeg & Hend & Hwr & W0 & Hgood & HW).
unfold stage.
set (f1 := with_window f (splice (buffer f) (end_ f) [c]) (begin f) (S (end_ f)) (offset f)).
assert (capacity f1 = capacity f) as Hcap1.
{ unfold f1, capacity. simpl. apply length_splice. simpl. unfold capacity in Hend. lia. }
assert (window f1 = window f ++ [c]) as Hwin1.
{ unfold f1, window. simpl. rewrite Hbeg, !drop_0, !Nat.sub_0_r.
  replace (S (end_ f)) with (end_ f + length [c])%nat by (simpl; lia).
  apply take_splice_end. unfold capacity in Hend. lia. }
destruct (Nat.leb_spec (capacity f1) (end_ f1)) as [Hfull|Hroom].
- destruct (flush_buffer_sink f1 env W0 Hmode Hwr Hgood)
    as (f' & env' & Hfl & Hm' & He' & Hb' & Hen' & Hbuf' & Hbk' & Hgood').
  exists f', env'. split; [done|].
  assert (capacity f' = capacity f) as Hcap' by (unfold capacity in *; congruence).
  split; [|by rewrite Hbk']. unfold staging. rewrite Hm', He', Hb', Hen', Hbk', Hcap'.
  split_and!; try done; [lia|].
  eexists. split; [exact Hgood'|].
  assert (window f' = []) as -> by (unfold window; by rewrite Hb', Hen').
  by rewrite app_nil_r, Hwin1, app_assoc, HW.
- exists f1, env. split; [done|]. split; [|done].
  unfold staging. rewrite Hcap1. unfold f1 at 1 2 3 4 5 6. simpl.
  split_and!; try done; [rewrite Hcap1 in Hroom; unfold f1 in Hroom; simpl in Hroom; lia|].
  exists W0. split; [done|]. by rewrite Hwin1, app_assoc, HW.
Qed.

Lemma stage_all_staging data : forall f env W,
staging wr good f env W ->
exists f' env',
  stage_all errno_of f data env = (0, f', env') /\ staging wr good f' env' (W ++ data) /\
  capacity f' = capacity f /\ backend f' = backend f.
Proof.
induction data as [|c data IH]; intros f env W Hst; simpl.
- exists f, env. by rewrite app_nil_r.
- destruct (stage_staging f c env W Hst) as (f1 & env1 & -> & Hst1 & Hc1 & Hb1).
  simpl. destruct (IH f1 env1 _ Hst1) as (f2 & env2 & -> & Hst2 & Hc2 & Hb2).
  exists f2, env2. rewrite <- app_assoc in Hst2. split_and!; try done; congruence.
Qed.

(** [hwrite] on a healthy write-mode stream over such a backend takes
  all the bytes and returns their number. *)
Lemma hwrite_staging f src env W :
staging wr good f env W ->
exists f' env',
  hwrite errno_of f src env = (Z.of_nat (length src), f', env') /\
  staging wr good f' env' (W ++ src) /\ capacity f' = capacity f /\
  backend f' = backend f.
Proof.
intros Hst. pose proof Hst as (Hmode & Herr & _ & _ & Hwr & _).
unfold hwrite. rewrite Herr, Hmode, Hwr. simpl.
destruct (stage_all_staging src f env W Hst) as (f' & env' & -> & Hst' & Hc' & Hb').
simpl. by exists f', env'.
Qed.

Lemma hputc_seq_staging cs : forall f env W,
staging wr good f env W ->
exists f' env',
  hputc_seq errno_of f cs env = (byte_value <$> cs, f', env') /\
  staging wr good f' env' (W ++ cs) /\ backend f' = backend f.
Proof.
induction cs as [|c cs IH]; intros f env W Hst; simpl.
- exists f, env. by rewrite app_nil_r.
- unfold hputc.
  destruct (hwrite_staging f [c] env W Hst) as (f1 & env1 & -> & Hst1 & _ & Hb1).
  simpl. destruct (IH f1 env1 _ Hst1) as (f2 & env2 & -> & Hst2 & Hb2).
  exists f2, env2. rewrite <- app_assoc in Hst2. split_and!; try done. congruence.
Qed.

Lemma hwrite_seq_staging ds : forall f env W,
staging wr good f env W ->
exists f' env',
  hwrite_seq errno_of f ds env = ((fun d => Z.of_nat (length d)) <$> ds, f', env') /\
  staging wr good f' env' (W ++ concat ds) /\ backend f' = backend f.
Proof.
induction ds as [|d ds IH]; intros f env W Hst; simpl.
- exists f, env. by rewrite app_nil_r.
- destruct (hwrite_staging f d env W Hst) as (f1 & env1 & -> & Hst1 & _ & Hb1).
  destruct (IH f1 env1 _ Hst1) as (f2 & env2 & -> & Hst2 & Hb2).
  exists f2, env2. rewrite <- app_assoc in Hst2. split_and!; try done. congruence.
Qed.

(** Closing such a stream: the flush succeeds, the backend then holds
  everything that was written, and its own close decides the rest. *)
Lemma hclose_staging f env W :
staging wr good f env W ->
exists b' env1,
  good b' env1 W /\
  hclose_parts errno_of f env
    = (0, (close (backend f) b' env1).1, (close (backend f) b' env1).2).
Proof.
intros (Hmode & Herr & Hbeg & Hend & Hwr & W0 & Hgood & HW).
destruct (flush_buffer_sink f env W0 Hmode Hwr Hgood)
  as (f' & env' & Hfl & Hm' & He' & Hb' & Hen' & Hbuf' & Hbk' & Hgood').
rewrite HW in Hgood'. exists (bstate f'), env'. split; [done|].
unfold hclose_parts. rewrite Hfl, Hbk'.
by destruct (close (backend f) (bstate f') env').
Qed.

End Sink.

Lemma fd_sink path : sink_ok Fd.fd_write (fd_stored path).
Proof.
  intros d env W data (Hfs & Hpath & Hpos) Hne.
  eexists _, _. split; [reflexivity|].
  unfold fd_stored, Fd.content; simpl. rewrite Hpath, Hfs, Hpos. simpl.
  rewrite lookup_insert_eq, Nat.sub_diag. simpl. rewrite app_nil_r.
  split_and!; [|done|by rewrite length_app].
  f_equal. unfold splice. rewrite take_ge, drop_ge by lia. by rewrite app_nil_r.
Qed.

Lemma hopen_file_staging cap path env :
  (0 < cap)%nat ->
  exists f env0,
    Fd.hopen_file cap path WR env = (Some f, env0) /\
    staging Fd.fd_write (fd_stored path) f env0 [] /\ backend f = Fd.fd_backend.
Proof.
  intros Hcap. eexists _, _. split; [reflexivity|].
  unfold staging, fd_stored, hfile_init, capacity, window; simpl.
  rewrite length_replicate, lookup_insert_eq.
  split_and!; try done. by exists [].
Qed.

Lemma grow_ge fuel : forall cap needed, (needed <= Mem.grow fuel cap needed)%nat.
Proof.
  induction fuel as [|fuel IH]; intros cap needed; simpl;
    destruct (Nat.leb_spec needed cap); auto.
Qed.

Lemma length_resize block n : length (Mem.resize block n) = n.
Proof.
  unfold Mem.resize. rewrite length_take, length_app, length_replicate. lia.
Qed.

Lemma take_resize block n k :
  (k <= length block)%nat -> (k <= n)%nat -> take k (Mem.resize block n) = take k block.
Proof.
  intros Hk Hn. unfold Mem.resize.
  rewrite take_take, Nat.min_l by done. by rewrite take_app_le.
Qed.

Lemma mem_sink env0 : sink_ok Mem.mem_write (mem_stored env0).
Proof.
  intros b env W data (Hmode & Hpos & Htake & Hcases) Hne.
  assert (0 < length data)%nat as Hdata by (destruct data; [done|simpl; lia]).
  assert (length W <= length (Mem.mbuffer env))%nat as HW.
  { rewrite <- Htake at 1. rewrite length_take. lia. }
  eexists _, _. split; [reflexivity|].
  unfold mem_stored. simpl. rewrite Hpos, length_app.
  destruct (Nat.leb_spec (length W + length data) (Mem.mem_cap b)) as [Hfit|Hgrow].
  - destruct Hcases as [(Hc0 & _) | (HWc & Hcl & Hml)]; [lia|].
    split_and!; try done.
    + rewrite take_splice_end by lia. by rewrite Htake.
    + right. split_and!; [lia| |done].
      rewrite length_splice; [done|lia].
  - set (cap := Mem.grow (length W + length data) (Nat.max 1 (Mem.mem_cap b))
                         (length W + length data)).
    assert (length W + length data <= cap)%nat as Hcap by apply grow_ge.
    split_and!; try done.
    + rewrite take_splice_end by (rewrite length_resize; lia).
      rewrite take_resize by lia. by rewrite Htake.
    + right. split_and!; [lia| |done].
      rewrite length_splice; rewrite length_resize; [done|lia].
Qed.

Lemma hopen_mem_staging cap env0 :
  (0 < cap)%nat ->
  staging Mem.mem_write (mem_stored env0) (Mem.hopen_mem cap WR env0).1 env0 [] /\
  (Mem.hopen_mem cap WR env0).2 = env0.
Proof.
  intros Hcap. split; [|done].
  unfold staging, mem_stored, Mem.hopen_mem, hfile_init, capacity, window; simpl.
  rewrite length_replicate.
  split_and!; try done. exists []. split_and!; try done. by left.
Qed.

Lemma all_bytes_values : byte_value <$> all_bytes = Z.of_nat <$> seq 0 256.
Proof. vm_compute. reflexivity. Qed.




(** C7. After any sequence of [hwrite] calls on a [mem:] stream opened
    for writing, each of which returns the number of bytes it was given,
    the caller's variables are either still untouched or [*pmlength] is
    the size of the block [*pmbuffer] points to; and after [hclose],
    which returns 0, [*pmlength] is the number of bytes written and the
    block starts with exactly those bytes. *)
Theorem mem_write_then_close (cap : nat) (env0 : Mem.Memory) (ds : list bytes) :
  (0 < cap)%nat ->
  exists f env env',
    hwrite_seq Mem.mem_errno (Mem.hopen_mem cap WR env0).1 ds env0
      = ((fun d => Z.of_nat (length d)) <$> ds, f, env) /\
    (env = env0 \/ Mem.mlength env = length (Mem.mbuffer env)) /\
    hclose Mem.mem_errno f env = (0, env') /\
    Mem.mlength env' = length (concat ds) /\
    take (length (concat ds)) (Mem.mbuffer env') = concat ds.
Proof.
  intros Hcap.
  destruct (hopen_mem_staging cap env0 Hcap) as [Hst0 _].
  destruct (hwrite_seq_staging Mem.mem_errno Mem.mem_write (mem_stored env0) (mem_sink env0)
              ds _ env0 [] Hst0) as (f & env & Hseq & Hst & Hbk).
  simpl in Hst.
  destruct (hclose_staging Mem.mem_errno Mem.mem_write (mem_stored env0) (mem_sink env0)
              f env (concat ds) Hst) as (b' & env1 & (Hm & Hpos & Htake & _) & Hparts).
  assert (backend f = Mem.mem_backend) as Hbk' by (by rewrite Hbk).
  exists f, env. eexists. split; [exact Hseq|]. split_and!.
  - destruct Hst as (_ & _ & _ & _ & _ & W0 & (_ & _ & _ & Hcases) & _).
    destruct Hcases as [(_ & -> & _) | (Hle & Hcl & Hml)]; [by left|].
    right. congruence.
  - unfold hclose. rewrite Hparts, Hbk'. simpl. unfold Mem.mem_close. rewrite Hm.
    simpl. reflexivity.
  - simpl. done.
  - simpl. done.
Qed.

Lemma mem_write_then_close_witness :
  exists f env env',
    hwrite_seq Mem.mem_errno (Mem.hopen_mem 4 WR Sample.caller).1 [Sample.hello]
      Sample.caller = ([14], f, env) /\
    hclose Mem.mem_errno f env = (0, env') /\
    Mem.mlength env' = 14%nat /\
    take 14 (Mem.mbuffer env') = Sample.hello.
Proof.
  destruct (mem_write_then_close 4 Sample.caller [Sample.hello] ltac:(lia))
    as (f & env & env' & Hseq & _ & Hclose & Hlen & Htake).
  exists f, env, env'.
  split_and!; [exact Hseq | exact Hclose | exact Hlen | exact Htake].
Defined.

(** ** The network backend under the buffered layer *)

Section NetBackend.

Context {Net : Type}.
Variable connect : Net -> request -> session * Net.
Variable NDEBUG : bool.

(** C10. The record of the network backend has no [write] and no
  [flush], and its [close] returns 0 whatever the state of the
  session; so [hwrite] and [hflush] on an HTTP stream fail, as
  unsupported when the stream was healthy, and the status of [hclose]
  is that of the flush of the buffered layer alone. *)
Theorem net_backend_capabilities (f : hFILE (World Net) CurlStreamBox)
  (src : bytes) (w : World Net) :
backend f = net_backend Net connect NDEBUG ->
write (backend f) = None /\ flush (backend f) = None /\
(forall netfp w0, close (backend f) netfp w0 = (0, w0)) /\
(err f = 0 ->
   hwrite (errno Net) f src w = (-1, with_err f ENOTSUP, w) /\
   hflush (errno Net) f w = (EOF, with_err f ENOTSUP, w)) /\
(err f <> 0 ->
   hwrite (errno Net) f src w = (-1, f, w) /\
   hflush (errno Net) f w = (EOF, f, w)) /\
(let '(r1, r2, _) := hclose_parts (errno Net) f w in
 r2 = 0 /\
 (hclose (errno Net) f w).1 = (if r1 <? 0 then EOF else 0) /\
 ((hclose (errno Net) f w).1 <> 0 -> r1 < 0)).
Proof.
intros Hbk. split_and!.
- by rewrite Hbk.
- by rewrite Hbk.
- intros netfp w0. by rewrite Hbk.
- intros Herr. unfold hwrite, hflush. rewrite Herr, Hbk. simpl.
  by destruct (mode f).
- intros Herr. apply Z.eqb_neq in Herr. unfold hwrite, hflush. by rewrite Herr.
- unfold hclose, hclose_parts.
  destruct (flush_buffer (errno Net) f w) as [[r1 f1] w1] eqn:Hfl.
  assert (backend f1 = backend f) as Hb1.
  { revert Hfl. unfold flush_buffer.
    destruct (mode f); [by intros [= <- <- <-]|].
    destruct (window f); [by intros [= <- <- <-]|].
    rewrite Hbk. simpl. by intros [= <- <- <-]. }
  rewrite Hb1, Hbk. simpl. rewrite orb_false_r.
  split_and!; [done | done |].
  destruct (Z.ltb_spec r1 0); [done|]. by intros [].
Qed.

End NetBackend.

Lemma net_backend_capabilities_witness :
  let f := hfile_init 4 RD (net_backend Httpd_net Sample.connect false) (Sample.box_at 0) in
  let w := Sample.world Sample.httpd in
  hwrite (errno Httpd_net) f Sample.hello w = (-1, with_err f ENOTSUP, w) /\
  hflush (errno Httpd_net) f w = (EOF, with_err f ENOTSUP, w) /\
  hclose (errno Httpd_net) f w = (0, w).
Proof.
  intros f w.
  destruct (net_backend_capabilities Sample.connect false f Sample.hello w eq_refl)
    as (_ & _ & _ & Hok & _ & _).
  destruct (Hok eq_refl) as [Hw Hf].
  split_and!; [exact Hw | exact Hf | reflexivity].
Defined.

Lemma hpeek_keeps_offset_witness :
  let f1 := with_bstate (with_window Sample.file_stream [x41; x42; x43; x44] 0 4 0)
                        {| Fd.fd_path := "f"; Fd.fd_pos := 4 |} in
  hpeek Fd.fs_errno Sample.file_stream 3 Sample.files
    = Some (3, [x41; x42; x43], f1, Sample.files) /\
  htell f1 = htell Sample.file_stream /\
  forall ops logs f2 env2,
    run_ops Fd.fs_errno f1 ops Sample.files = Some (logs, f2, env2) ->
    (3 <= length (bytes_read logs))%nat ->
    [x41; x42; x43] `prefix_of` bytes_read logs.
Proof.
  intros f1.
  assert (hpeek Fd.fs_errno Sample.file_stream 3 Sample.files
          = Some (3, [x41; x42; x43], f1, Sample.files)) as Hpk by reflexivity.
  destruct (hpeek_keeps_offset Fd.fs_errno Sample.file_stream Sample.files) as [_ Hpeek].
  { intros rd [= <-]. apply fd_read_ok. }
  { unfold wf. simpl. lia. }
  destruct (Hpeek 3%nat 3 [x41; x42; x43] f1 Sample.files Hpk) as [Htell Hpre].
  split; [exact Hpk|]. split; [exact Htell|].
  intros ops logs f2 env2 Hrun Hlen.
  destruct (Hpre ltac:(done)) as (_ & _ & _ & Hafter).
  exact (proj1 (Hafter ops logs f2 env2 Hrun) Hlen).
Defined.

(** * Further properties of the HTTP reader *)

(** ** The response body queue *)

Lemma size_concat (q : FifoBuffer.t) : FifoBuffer.size q = length (concat q).
Proof.
  unfold FifoBuffer.size.
  induction q as [|c q IH]; simpl; [done|].
  by rewrite length_app, IH.
Qed.

Lemma readsome_concat (q : FifoBuffer.t) (n : nat) :
  (FifoBuffer.readsome q n).1.2 ++ concat (FifoBuffer.readsome q n).2 = concat q /\
  length (FifoBuffer.readsome q n).1.2 = (FifoBuffer.readsome q n).1.1.
Proof.
  unfold FifoBuffer.readsome.
  destruct q as [|front rest]; [done|].
  destruct (n =? 0)%nat; [done|]. cbv zeta. cbn [fst snd].
  split; [|rewrite length_take; lia].
  destruct (Nat.ltb_spec (Nat.min (length front) n) (length front)) as [Hlt|Hge].
  - rewrite (proj2 (Nat.ltb_lt _ _)) by (rewrite length_drop; lia).
    simpl. by rewrite app_assoc, take_drop.
  - simpl. rewrite take_ge by lia. done.
Qed.

(** X1. The queue is first in, first out, and loses nothing: whatever the
    interleaving of [write] and [readsome] calls on a queue that starts
    empty, the bytes read so far followed by the bytes still queued are
    the bytes written, in the order they were written. *)
Theorem fifo_run_order (ops : list fifo_op) :
  (fifo_run [] ops).1 ++ concat (fifo_run [] ops).2 = fifo_written ops.
Proof.
  change (fifo_written ops) with (concat (@nil bytes) ++ fifo_written ops).
  generalize (@nil bytes) as q.
  induction ops as [|[s|n] ops IH]; intros q; simpl.
  - by rewrite app_nil_r.
  - rewrite IH, concat_write. by rewrite app_assoc.
  - destruct (readsome_concat q n) as [Hcat _].
    destruct (FifoBuffer.readsome q n) as [[k out] q1]. simpl in Hcat.
    specialize (IH q1). destruct (fifo_run q1 ops) as [outs q2]. simpl in *.
    by rewrite <- app_assoc, IH, app_assoc, Hcat.
Qed.

Lemma fifo_run_ok (ops : list fifo_op) : forall q,
  fifo_ok q -> fifo_ok (fifo_run q ops).2.
Proof.
  induction ops as [|[s|n] ops IH]; intros q Hq; simpl; [done| |].
  - by apply IH, fifo_ok_write.
  - pose proof (readsome_fifo_ok q n Hq) as Hq1.
    destruct (FifoBuffer.readsome q n) as [[k out] q1]. simpl in Hq1.
    specialize (IH q1 Hq1). by destruct (fifo_run q1 ops).
Qed.

(** X2. A queue that started empty never holds an empty chunk, whatever was
    written to it ([write] drops a chunk of no bytes) and read from it.
    So [empty()] tells whether bytes are queued, and a [readsome] of at
    least one byte on a queue that is not empty returns at least one
    byte. *)
Theorem fifo_run_empty (ops : list fifo_op) (n : nat) :
  let q := (fifo_run [] ops).2 in
  (FifoBuffer.empty q = true <-> FifoBuffer.size q = 0%nat) /\
  (FifoBuffer.empty q = false ->
   (0 < n)%nat -> (0 < (FifoBuffer.readsome q n).1.1 <= n)%nat).
Proof.
  intros q. assert (fifo_ok q) as Hq by (apply fifo_run_ok; constructor).
  clearbody q. split.
  - destruct q as [|c q]; simpl; [done|].
    apply Forall_cons in Hq as [Hc _].
    destruct c; [done|]. simpl. split; [done | lia].
  - intros He Hn. apply readsome_progress; [done | | done].
    by destruct q.
Qed.

(** X3. [readsome] takes from the first chunk only: it returns
    [min(n, size of the first chunk)] bytes, the start of that chunk,
    even when more bytes are queued behind it, and the queue shrinks by
    exactly the bytes returned. *)
Theorem readsome_first_chunk (front : bytes) (rest : FifoBuffer.t) (n : nat) :
  let '(neff, out, q') := FifoBuffer.readsome (front :: rest) n in
  neff = Nat.min n (length front) /\
  out = take neff front /\
  concat q' = drop neff front ++ concat rest /\
  (FifoBuffer.size q' + neff = FifoBuffer.size (front :: rest))%nat.
Proof.
  pose proof (readsome_concat (front :: rest) n) as [Hcat Hlen].
  pose proof (size_concat (FifoBuffer.readsome (front :: rest) n).2) as Hsz.
  rewrite (size_concat (front :: rest)).
  unfold FifoBuffer.readsome in *.
  destruct (Nat.eqb_spec n 0) as [Hn|Hn].
  - subst n. simpl. split_and!; try done. rewrite length_app.
    pose proof (size_concat rest) as Hr. unfold FifoBuffer.size in *. lia.
  - cbv zeta in *. cbn [fst snd] in *.
    rewrite Hsz. split_and!; [lia | done | |].
    + simpl in Hcat.
      apply (app_inv_head (take (length front `min` n) front)).
      rewrite Hcat. by rewrite app_assoc, take_drop.
    + rewrite <- Hcat, length_app, Hlen. lia.
Qed.

(** ** Response headers *)

Lemma string_app_cons (a : ascii) (l x : string) : String a l +:+ x = String a (l +:+ x).
Proof. reflexivity. Qed.

Lemma string_app_nil (x : string) : "" +:+ x = x.
Proof. reflexivity. Qed.

Ltac string_simpl := simpl; rewrite ?string_app_cons, ?string_app_nil.

Lemma ltrim_spec (s : string) :
  exists l, s = l +:+ ltrim s /\ all_space l = true /\ head_space (ltrim s) = false.
Proof.
  induction s as [|a s (l & Hs & Hl & Hh)]; string_simpl.
  - by exists "".
  - destruct (Str.is_space a) eqn:Ha.
    + exists (String a l). string_simpl. rewrite Ha, Hl.
      split_and!; [by f_equal | done | done].
    + exists "". string_simpl. by rewrite Ha.
Qed.

Lemma rtrim_spec (s : string) :
  exists r, s = rtrim s +:+ r /\ all_space r = true /\ last_space (rtrim s) = false.
Proof.
  induction s as [|a s (r & Hs & Hr & Hlast)]; string_simpl.
  - by exists "".
  - destruct (rtrim s) as [|b t] eqn:Ht.
    + destruct (Str.is_space a) eqn:Ha.
      * exists (String a r). simpl in *; rewrite ?string_app_cons, ?string_app_nil in *. rewrite Ha, Hr.
        split_and!; [by f_equal | done | done].
      * exists r. simpl in *; rewrite ?string_app_cons, ?string_app_nil in *. rewrite Ha.
        split_and!; [by f_equal | done | done].
    + exists r. rewrite string_app_cons. split_and!; [by f_equal | done | done].
Qed.

Lemma ltrim_last_space (s : string) :
  last_space s = false -> last_space (ltrim s) = false.
Proof.
  induction s as [|a s IH]; string_simpl; [done|].
  destruct (Str.is_space a) eqn:Ha; [|intros H; simpl; by rewrite Ha].
  destruct s; [done | exact IH].
Qed.

Lemma ltrim_fix (s : string) : head_space s = false -> ltrim s = s.
Proof. destruct s; string_simpl; [done|]. by intros ->. Qed.

Lemma rtrim_fix (s : string) : last_space s = false -> rtrim s = s.
Proof.
  induction s as [|a s IH]; [done|].
  destruct s as [|b t].
  - string_simpl. by intros ->.
  - intros Hl.
    change (rtrim (String a (String b t)))
      with (match rtrim (String b t) with
            | "" => if Str.is_space a then "" else String a ""
            | String c r' => String a (String c r')
            end).
    by rewrite (IH Hl).
Qed.

Lemma trim_ends (s : string) :
  head_space (trim s) = false /\ last_space (trim s) = false.
Proof.
  unfold trim.
  destruct (rtrim_spec s) as (r & _ & _ & Hlast).
  destruct (ltrim_spec (rtrim s)) as (l & _ & _ & Hhead).
  split; [done | by apply ltrim_last_space].
Qed.

Lemma trim_idemp (s : string) : trim (trim s) = trim s.
Proof.
  destruct (trim_ends s) as [Hhead Hlast].
  unfold trim at 1. by rewrite (rtrim_fix _ Hlast), (ltrim_fix _ Hhead).
Qed.

(** X4. [trim] removes whitespace only, from both ends, and all of it: the
    string is its trimmed form between two runs of whitespace, and the
    trimmed form neither begins nor ends with whitespace; trimming
    again changes nothing. *)
Theorem trim_strips (s : string) :
  (exists l r, s = l +:+ trim s +:+ r /\ all_space l = true /\ all_space r = true) /\
  head_space (trim s) = false /\ last_space (trim s) = false /\
  trim (trim s) = trim s.
Proof.
  split; [|split_and!; [apply trim_ends | apply trim_ends | apply trim_idemp]].
  unfold trim.
  destruct (rtrim_spec s) as (r & Hs & Hr & _).
  destruct (ltrim_spec (rtrim s)) as (l & Hrs & Hl & _).
  exists l, r. split; [|done].
  rewrite Hs at 1. rewrite Hrs at 1.
  clear. induction l as [|a l IH]; [done|].
  rewrite !string_app_cons. by rewrite IH.
Qed.

Lemma string_app_assoc (a b c : string) : (a +:+ b) +:+ c = a +:+ b +:+ c.
Proof. induction a as [|x a IH]; string_simpl; [done | by rewrite IH]. Qed.

Lemma length_string_app (a b : string) :
  String.length (a +:+ b) = (String.length a + String.length b)%nat.
Proof. induction a as [|x a IH]; string_simpl; [done | by rewrite IH]. Qed.

Lemma find_app_l (c : ascii) (k rest : string) :
  Str.find c k = None ->
  Str.find c (k +:+ String c rest) = Some (String.length k).
Proof.
  induction k as [|a k IH]; string_simpl.
  - by rewrite Ascii.eqb_refl.
  - destruct (Ascii.eqb a c); [done|].
    destruct (Str.find c k); [done|]. intros _. by rewrite IH.
Qed.

Lemma find_app_none (c : ascii) (a b : string) :
  Str.find c a = None -> Str.find c b = None -> Str.find c (a +:+ b) = None.
Proof.
  induction a as [|x a IH]; string_simpl; [done|].
  destruct (Ascii.eqb x c); [done|].
  destruct (Str.find c a); [done|]. intros _ Hb. by rewrite IH.
Qed.

Lemma find_all_space (s : string) : all_space s = true -> Str.find ":" s = None.
Proof.
  induction s as [|a s IH]; string_simpl; [done|].
  intros [Ha Hs]%andb_true_iff. rewrite (IH Hs).
  destruct (Ascii.eqb_spec a ":") as [->|]; [discriminate Ha | done].
Qed.

Lemma substring_prefix (k rest : string) :
  String.substring 0 (String.length k) (k +:+ rest) = k.
Proof.
  induction k as [|a k IH]; string_simpl; [by destruct rest | by rewrite IH].
Qed.

Lemma substring_suffix (k rest : string) :
  String.substring (String.length k) (String.length rest) (k +:+ rest) = rest.
Proof.
  induction k as [|a k IH]; string_simpl; [|done].
  induction rest as [|b rest IH]; string_simpl; [done | by rewrite IH].
Qed.

Lemma rtrim_all_space (r : string) : all_space r = true -> rtrim r = "".
Proof.
  induction r as [|a r IH]; string_simpl; [done|].
  intros [Ha Hr]%andb_true_iff. by rewrite (IH Hr), Ha.
Qed.

Lemma rtrim_app_space (y r : string) :
  all_space r = true -> rtrim (y +:+ r) = rtrim y.
Proof.
  intros Hr. induction y as [|a y IH]; string_simpl.
  - by apply rtrim_all_space.
  - by rewrite IH.
Qed.

Lemma rtrim_app_fix (l x : string) :
  x <> "" -> rtrim x = x -> rtrim (l +:+ x) = l +:+ x.
Proof.
  intros Hx Hfix. induction l as [|a l IH]; string_simpl; [done|].
  rewrite IH. destruct (l +:+ x) eqn:Hlx; [|done].
  destruct l; simpl in Hlx; [done | discriminate].
Qed.

Lemma ltrim_app_space (l x : string) :
  all_space l = true -> ltrim (l +:+ x) = ltrim x.
Proof.
  induction l as [|a l IH]; string_simpl; [done|].
  intros [Ha Hl]%andb_true_iff. rewrite Ha. by apply IH.
Qed.

Lemma trim_padded (l x r : string) :
  all_space l = true -> all_space r = true ->
  trim x = x -> x <> "" -> trim (l +:+ x +:+ r) = x.
Proof.
  intros Hl Hr Hx Hne.
  destruct (trim_ends x) as (Hh & Hlast). rewrite Hx in Hh, Hlast.
  unfold trim. rewrite <- string_app_assoc, (rtrim_app_space _ _ Hr).
  rewrite rtrim_app_fix by (by try apply rtrim_fix).
  rewrite ltrim_app_space by done. by apply ltrim_fix.
Qed.

(** What a line with a colon does to the header map. *)
Lemma headerfunction_split (k v : string) (h : headers) :
  Str.find ":" k = None ->
  headerfunction (k +:+ String ":" v) h =
    (Z.of_nat (String.length (k +:+ String ":" v)),
     if (0 <? String.length (trim k))%nat && (0 <? String.length (trim v))%nat
     then <[lowercase (trim k) := trim v]> h else h).
Proof.
  intros Hk. unfold headerfunction.
  rewrite (find_app_l _ _ _ Hk). cbv [default from_option id].
  rewrite substring_prefix, length_string_app. cbn [String.length].
  replace (String.length k + S (String.length v) - String.length k - 1)%nat
    with (String.length v) by lia.
  assert (String.substring (String.length k + 1) (String.length v)
            (k +:+ String ":" v) = v) as ->.
  { pose proof (substring_suffix (k +:+ ":") v) as Hsuf.
    rewrite length_string_app, string_app_assoc in Hsuf. exact Hsuf. }
  f_equal.
  destruct (0 <? String.length (trim k))%nat; [|done]. simpl.
  destruct v as [|b v].
  - string_simpl. replace (String.length k <? String.length k + 1 - 1)%nat with false
      by (symmetry; apply Nat.ltb_ge; lia). done.
  - replace (String.length k <? String.length k + S (String.length (String b v)) - 1)%nat
      with true by (symmetry; apply Nat.ltb_lt; string_simpl; lia). done.
Qed.

(** X5. A header field is stored under its name in lower case, with the
    whitespace around the name and around the value removed: for a name
    without colon and a value, both trimmed and not empty, the line
    [name ":" value] with any whitespace around the two stores [value]
    under the lower-case name, replacing what was there, and the whole
    line is reported as consumed. *)
Theorem headerfunction_field (name value pad1 pad2 pad3 pad4 : string) (h : headers) :
  Str.find ":" name = None -> trim name = name -> name <> "" ->
  trim value = value -> value <> "" ->
  all_space pad1 = true -> all_space pad2 = true ->
  all_space pad3 = true -> all_space pad4 = true ->
  let line := pad1 +:+ name +:+ pad2 +:+ ":" +:+ pad3 +:+ value +:+ pad4 in
  headerfunction line h
    = (Z.of_nat (String.length line), <[lowercase name := value]> h).
Proof.
  intros Hcolon Hname Hne Hvalue Hve H1 H2 H3 H4 line.
  assert (line = (pad1 +:+ name +:+ pad2) +:+ String ":" (pad3 +:+ value +:+ pad4)) as ->.
  { unfold line. by rewrite !string_app_assoc. }
  rewrite headerfunction_split.
  2:{ apply find_app_none; [by apply find_all_space|].
      apply find_app_none; [done | by apply find_all_space]. }
  rewrite !trim_padded by done.
  destruct name; [done|]. destruct value; [done|]. done.
Qed.

(** X6. Lines that store nothing.  A line without a colon (the status
    line, the blank line that ends the headers) leaves the header map
    as it is, and so does a line whose name or whose value is empty or
    whitespace only.  Every line is reported to libcurl as consumed in
    full, so that the header callback never makes a transfer fail. *)
Theorem headerfunction_ignores (ptr : string) (h : headers) :
  (headerfunction ptr h).1 = Z.of_nat (String.length ptr) /\
  (Str.find ":" ptr = None -> (headerfunction ptr h).2 = h) /\
  (forall k v, ptr = k +:+ String ":" v -> Str.find ":" k = None ->
     all_space k = true \/ all_space v = true ->
     (headerfunction ptr h).2 = h).
Proof.
  split; [done|]. split.
  - intros Hnone. unfold headerfunction. rewrite Hnone. simpl.
    replace (String.length ptr <? String.length ptr - 1)%nat with false
      by (symmetry; apply Nat.ltb_ge; lia).
    by rewrite andb_false_r.
  - intros k v -> Hk Hblank. rewrite headerfunction_split by done. cbn [snd].
    assert (forall x, all_space x = true -> trim x = "") as Htrim.
    { intros x Hx. unfold trim. by rewrite rtrim_all_space. }
    destruct Hblank as [Hb | Hb]; rewrite (Htrim _ Hb); simpl; [done|].
    by rewrite andb_false_r.
Qed.

Lemma tolower_idemp (a : ascii) : tolower (tolower a) = tolower a.
Proof. by destruct a as [[] [] [] [] [] [] [] []]. Qed.

Lemma lowercase_idemp (s : string) : lowercase (lowercase s) = lowercase s.
Proof.
  induction s as [|a s IH]; string_simpl; [done|]. by rewrite tolower_idemp, IH.
Qed.

Lemma headerfunction_ok (ptr : string) (h : headers) :
  headers_ok h -> headers_ok (headerfunction ptr h).2.
Proof.
  intros Hh. unfold headerfunction. cbn [snd].
  set (k := trim (String.substring 0 _ ptr)).
  set (v := trim (String.substring _ _ ptr)).
  destruct ((0 <? String.length k)%nat && _) eqn:Hk; [|done].
  apply andb_true_iff in Hk as [Hk _].
  destruct (0 <? String.length v)%nat eqn:Hv; [|done].
  intros k' v' Hlook.
  destruct (decide (lowercase k = k')) as [<-|Hne].
  - rewrite lookup_insert_eq in Hlook. injection Hlook as <-.
    split_and!.
    + apply lowercase_idemp.
    + by destruct k.
    + apply trim_idemp.
    + by destruct v.
  - rewrite lookup_insert_ne in Hlook by done. by apply Hh.
Qed.

(** X7. Whatever header lines a response is made of, the map that
    [headerfunction] builds from an empty one holds only keys in lower
    case and values without surrounding whitespace, none of them
    empty. *)
Theorem headerfunction_keys_lowercase (lines : list string) :
  headers_ok (foldl (fun h line => (headerfunction line h).2) ∅ lines).
Proof.
  assert (headers_ok ∅) as H0 by (intros k v Hl; by rewrite lookup_empty in Hl).
  revert H0. generalize (∅ : headers) as h.
  induction lines as [|line lines IH]; intros h Hh; simpl; [done|].
  by apply IH, headerfunction_ok.
Qed.

(** The line [Content-Length : 42], ended by CR LF. *)
Lemma headerfunction_field_witness :
  headerfunction ("Content-Length : 42" +:+ String "013" (String "010" "")) ∅
    = (21, <[ "content-length"%string := "42"%string ]> (∅ : headers)).
Proof.
  exact (headerfunction_field "Content-Length" "42" "" " " " "
           (String "013" (String "010" "")) ∅
           eq_refl eq_refl ltac:(discriminate) eq_refl ltac:(discriminate)
           eq_refl eq_refl eq_refl eq_refl).
Defined.

(** ** The range header, from the reader to the mock server *)

Lemma digit_of_pretty_N_char (d : N) :
  (d < 10)%N -> Str.digit_of (pretty_N_char d) = Some (Z.of_N d).
Proof.
  intros Hd.
  assert (d = 0 \/ d = 1 \/ d = 2 \/ d = 3 \/ d = 4 \/ d = 5 \/ d = 6 \/ d = 7
          \/ d = 8 \/ d = 9)%N as Hc by lia.
  repeat destruct Hc as [-> | Hc]; try subst d; reflexivity.
Qed.

Lemma pretty_N_char_plain (d : N) :
  Str.is_space (pretty_N_char d) = false /\
  Ascii.eqb (pretty_N_char d) "-" = false /\
  pretty_N_char d <> "-"%char /\ pretty_N_char d <> "+"%char.
Proof. unfold pretty_N_char. repeat case_match; done. Qed.

(** Reading back the decimal digits that [operator<<] wrote. *)
Lemma digits_pretty_N_go (x : N) : forall s,
  exists p, forall acc,
    Str.digits acc (pretty_N_go x s) = Str.digits (acc * p + Z.of_N x) s.
Proof.
  induction (N.lt_wf_0 x) as [x _ IH]; intros s.
  destruct (decide (x = 0)%N) as [->|Hx].
  - exists 1. intros acc. rewrite pretty_N_go_0. f_equal. lia.
  - rewrite pretty_N_go_step by lia.
    destruct (IH (x `div` 10)%N ltac:(apply N.div_lt; lia)
                 (String (pretty_N_char (x `mod` 10)) s)) as [p Hp].
    exists (10 * p). intros acc. rewrite Hp. simpl.
    rewrite digit_of_pretty_N_char by (apply N.mod_lt; lia).
    f_equal. rewrite (N.div_mod x 10) at 3 by lia. lia.
Qed.

Lemma pretty_N_go_app (x : N) : forall s r,
  pretty_N_go x s +:+ r = pretty_N_go x (s +:+ r).
Proof.
  induction (N.lt_wf_0 x) as [x _ IH]; intros s r.
  destruct (decide (x = 0)%N) as [->|Hx].
  - by rewrite !pretty_N_go_0.
  - rewrite (pretty_N_go_step x s), (pretty_N_go_step x (s +:+ r)) by lia.
    by rewrite IH by (apply N.div_lt; lia).
Qed.

Lemma pretty_N_go_head (x : N) : forall s,
  (0 < x)%N -> exists d t, pretty_N_go x s = String (pretty_N_char d) t.
Proof.
  induction (N.lt_wf_0 x) as [x _ IH]; intros s Hx.
  rewrite pretty_N_go_step by done.
  destruct (decide (x `div` 10 = 0)%N) as [Hz|Hz].
  - rewrite Hz, pretty_N_go_0. by eexists _, _.
  - apply IH; [apply N.div_lt; lia | by apply N.neq_0_lt_0].
Qed.

Lemma find_pretty_N_go (x : N) : forall s,
  Str.find "-" s = None -> Str.find "-" (pretty_N_go x s) = None.
Proof.
  induction (N.lt_wf_0 x) as [x _ IH]; intros s Hs.
  destruct (decide (x = 0)%N) as [->|Hx].
  - by rewrite pretty_N_go_0.
  - rewrite pretty_N_go_step by lia.
    apply IH; [apply N.div_lt; lia|]. simpl.
    destruct (pretty_N_char_plain (x `mod` 10)) as (_ & -> & _). by rewrite Hs.
Qed.

Lemma strtoull_plain (c : ascii) (s : string) :
  Str.is_space c = false -> c <> "-"%char -> c <> "+"%char ->
  Str.strtoull (String c s)
  = let v := Str.digits 0 (String c s) in
    if ULLONG_MAX <? v then ULLONG_MAX else v.
Proof.
  intros Hsp Hdash Hplus. unfold Str.strtoull. cbn [Str.skip_space]. rewrite Hsp.
  destruct c as [[] [] [] [] [] [] [] []]; first [reflexivity | congruence].
Qed.

(** The decimal form of a number that is not negative: it is not
    empty, holds no dash, and [strtoull] reads the number back from it,
    also when a dash follows. *)
Lemma pretty_Z_decimal (z : Z) :
  0 <= z ->
  exists c t, pretty z = String c t /\
    Str.find "-" (pretty z) = None /\
    forall rest, (rest = "" \/ exists r, rest = String "-" r) -> z <= ULLONG_MAX ->
      Str.strtoull (pretty z +:+ rest) = z.
Proof.
  intros Hz. destruct z as [|x|x]; [| |lia].
  - exists "0"%char, "". split_and!; try done.
    intros rest [-> | [r ->]] _; reflexivity.
  - change (pretty (Z.pos x)) with (pretty_N_go (N.pos x) "").
    destruct (pretty_N_go_head (N.pos x) "" ltac:(lia)) as (d & t & Hhead).
    exists (pretty_N_char d), t. split; [done|].
    split; [by apply find_pretty_N_go|].
    intros rest Hrest Hmax.
    destruct (digits_pretty_N_go (N.pos x) rest) as [p Hp].
    rewrite pretty_N_go_app, string_app_nil.
    assert (Str.digits (Z.pos x) rest = Z.pos x) as Hd.
    { destruct Hrest as [-> | [r ->]]; reflexivity. }
    pose proof (pretty_N_go_app (N.pos x) "" rest) as Happ.
    rewrite string_app_nil, Hhead, string_app_cons in Happ.
    destruct (pretty_N_char_plain d) as (Hsp & _ & Hdash & Hplus).
    rewrite <- Happ, (strtoull_plain _ _ Hsp Hdash Hplus), Happ, Hp. cbv zeta.
    replace (0 * p + Z.of_N (N.pos x)) with (Z.pos x) by lia.
    by rewrite Hd, (proj2 (Z.ltb_ge _ _) Hmax).
Qed.

Lemma rfind_none (c : ascii) (s : string) :
  Str.find c s = None -> Str.rfind c s = None.
Proof.
  induction s as [|a s IH]; simpl; [done|].
  destruct (Ascii.eqb a c); [done|].
  destruct (Str.find c s); [done|]. intros _. by rewrite IH.
Qed.

Lemma rfind_app_l (c : ascii) (k v : string) :
  Str.rfind c v = None ->
  Str.rfind c (k +:+ String c v) = Some (String.length k).
Proof.
  intros Hv. induction k as [|a k IH]; rewrite ?string_app_cons, ?string_app_nil; simpl.
  - by rewrite Hv, Ascii.eqb_refl.
  - by rewrite IH.
Qed.

Lemma substring_skip (a rest : string) (m : nat) :
  String.substring (String.length a) m (a +:+ rest) = String.substring 0 m rest.
Proof. induction a as [|x a IH]; [done|]. by rewrite string_app_cons. Qed.

(** The header [bytes=lo-] or [bytes=lo-hi] as the server reads it. *)
Lemma string_app_nil_r (x : string) : x +:+ "" = x.
Proof. induction x as [|a x IH]; [done|]. by rewrite string_app_cons, IH. Qed.

Lemma get_range_header_decimal (lo sz : Z) (tail : string) :
  0 <= lo <= ULLONG_MAX -> Str.find "-" tail = None ->
  get_range_header {[ "range"%string := "bytes=" +:+ pretty lo +:+ "-" +:+ tail ]} sz
  = match tail with
    | "" => Some (lo, to_size_t (sz - 1))
    | _ => let hi := Str.strtoull tail in
           if lo <=? hi then Some (lo, hi) else None
    end.
Proof.
  intros Hlo Htail.
  destruct (pretty_Z_decimal lo ltac:(lia)) as (c & t & Hhead & Hdash & Hback).
  pose proof (Hback "" (or_introl eq_refl) ltac:(lia)) as Hlo'.
  rewrite string_app_nil_r in Hlo'.
  unfold get_range_header. rewrite lookup_singleton_eq. cbn [mbind option_bind].
  remember ("bytes=" +:+ pretty lo +:+ "-" +:+ tail) as hdr eqn:Hhdr.
  set (n := String.length (pretty lo)).
  assert (0 < n)%nat as Hpos by (unfold n; rewrite Hhead; simpl; lia).
  assert (String.length hdr = (6 + n + 1 + String.length tail)%nat) as Hlen.
  { rewrite Hhdr, !length_string_app. simpl. unfold n. lia. }
  assert (String.substring 0 6 hdr = "bytes=") as Hsub1.
  { rewrite Hhdr. apply (substring_prefix "bytes="). }
  assert (Str.find "-" hdr = Some (6 + n)%nat) as Hfind.
  { rewrite Hhdr, <- string_app_assoc.
    rewrite (find_app_l "-" ("bytes=" +:+ pretty lo) tail).
    - by rewrite length_string_app.
    - apply find_app_none; [done | exact Hdash]. }
  assert (Str.rfind "-" hdr = Some (6 + n)%nat) as Hrfind.
  { rewrite Hhdr, <- string_app_assoc.
    rewrite (rfind_app_l "-" ("bytes=" +:+ pretty lo) tail (rfind_none _ _ Htail)).
    by rewrite length_string_app. }
  assert (String.substring 6 n hdr = pretty lo) as Hsub2.
  { rewrite Hhdr, (substring_skip "bytes=" _ _). apply substring_prefix. }
  assert (Str.substr_from (6 + n + 1) hdr = tail) as Hsub3.
  { unfold Str.substr_from. rewrite Hlen.
    replace (6 + n + 1 + String.length tail - (6 + n + 1))%nat
      with (String.length tail) by lia.
    replace (6 + n + 1)%nat with (String.length ("bytes=" +:+ pretty lo +:+ "-")).
    2:{ rewrite !length_string_app. simpl. unfold n. lia. }
    replace hdr with (("bytes=" +:+ pretty lo +:+ "-") +:+ tail)
      by (by rewrite Hhdr, !string_app_assoc).
    rewrite substring_skip.
    pose proof (substring_prefix tail "") as Hp.
    by rewrite string_app_nil_r in Hp. }
  rewrite Hlen, Hsub1, Hfind. cbn [mbind option_bind]. rewrite Hrfind.
  replace (6 + n + 1 + String.length tail <? 8)%nat with false
    by (symmetry; apply Nat.ltb_ge; lia).
  rewrite bool_decide_eq_true_2 by done.
  replace (6 + n <? 7)%nat with false by (symmetry; apply Nat.ltb_ge; lia).
  replace (6 + n - 6)%nat with n by lia.
  rewrite Hsub2, Hlo', Hsub3.
  change (negb (String.eqb "bytes=" "bytes=")) with false.
  cbn [orb negb].
  destruct tail as [|b tail].
  - replace (_ <? _)%nat with false by (symmetry; apply Nat.ltb_ge; simpl; lia).
    done.
  - replace (_ <? _)%nat with true by (symmetry; apply Nat.ltb_lt; simpl; lia).
    done.
Qed.

Lemma get_range_header_request (u : string) (o sz : Z) :
  0 < o < 2 ^ 63 ->
  get_range_header (rq_headers (request_at u o)) sz = Some (o, to_size_t (sz - 1)).
Proof.
  intros Ho. unfold request_at. cbn [rq_headers].
  replace (o =? 0) with false by (symmetry; apply Z.eqb_neq; lia).
  exact (get_range_header_decimal o sz "" ltac:(unfold ULLONG_MAX; lia) eq_refl).
Qed.

(** X8. The server understands the range header the reader sends.  A
    session opened at an offset above zero announces it as
    [range: bytes=<ofs>-], from which [get_range_header] recovers the
    offset as the lower bound and the last byte of the file as the upper
    one.  The request at offset zero carries no range header, and the
    header written for a negative offset, [bytes=-<n>-], is not taken as
    a range: both are requests for the whole file. *)
Theorem range_request_understood (u : string) (o sz : Z) :
  o < 2 ^ 63 ->
  get_range_header (rq_headers (request_at u o)) sz
  = if 0 <? o then Some (o, to_size_t (sz - 1)) else None.
Proof.
  intros Ho. unfold request_at. cbn [rq_headers].
  destruct o as [|x|x].
  - done.
  - change (Z.pos x =? 0) with false. change (0 <? Z.pos x) with true. cbv iota.
    exact (get_range_header_decimal (Z.pos x) sz ""
             ltac:(unfold ULLONG_MAX; lia) eq_refl).
  - change (Z.neg x =? 0) with false. change (0 <? Z.neg x) with false. cbv iota.
    unfold get_range_header. rewrite lookup_singleton_eq. cbn [mbind option_bind].
    destruct (_ || _); [done|].
    change (pretty (Z.neg x)) with ("-" +:+ pretty x).
    change ("bytes=" +:+ ("-" +:+ pretty x) +:+ "-")
      with ("bytes=" +:+ String "-" (pretty x +:+ "-")).
    rewrite (find_app_l "-" "bytes=" _ eq_refl). cbn [mbind option_bind].
    by rewrite orb_true_r.
Qed.

(** X9. A range with both bounds is accepted exactly when the bounds are in
    order: [bytes=lo-hi] yields [(lo, hi)] if [lo <= hi] and is turned
    down as no range at all otherwise, so that the file is then served
    whole. *)
Theorem get_range_header_bounds (lo hi sz : Z) :
  0 <= lo <= ULLONG_MAX -> 0 <= hi <= ULLONG_MAX ->
  get_range_header
    {[ "range"%string := "bytes=" +:+ pretty lo +:+ "-" +:+ pretty hi ]} sz
  = if lo <=? hi then Some (lo, hi) else None.
Proof.
  intros Hlo Hhi.
  destruct (pretty_Z_decimal hi ltac:(lia)) as (c & t & Hhead & Hdash & Hback).
  rewrite get_range_header_decimal by done.
  rewrite Hhead. rewrite <- Hhead. cbv zeta.
  pose proof (Hback "" (or_introl eq_refl) ltac:(lia)) as Hhi'.
  rewrite string_app_nil_r in Hhi'. by rewrite Hhi'.
Qed.

(** ** The mock server *)

Lemma to_size_t_range (z : Z) : 0 <= to_size_t z < 2 ^ 64.
Proof. unfold to_size_t. by apply Z.mod_pos_bound. Qed.

Lemma to_size_t_small (z : Z) : 0 <= z < 2 ^ 64 -> to_size_t z = z.
Proof. unfold to_size_t. apply Z.mod_small. Qed.

(** X10. What a request can do to the server.  The configuration is never
    changed.  The answer is 200 or 206 with a body no longer than the
    length announced, and then a pending truncation is used up; or it
    is 404 or 416 with nothing announced and no body, and the server is
    left exactly as it was, a pending truncation included; or it is 500,
    likewise empty, one of the failures asked for by
    [FailNextRequests] is used up and a pending truncation stays. *)
Theorem OnRequest_outcomes (d : TestHTTPd) (path : string) (h : headers) :
  let r := (OnRequest d path h).1 in
  let d' := (OnRequest d path h).2 in
  files_ d' = files_ d /\ disk d' = disk d /\
  ((rs_code r = 200 \/ rs_code r = 206) /\
     Z.of_nat (length (rs_body r)) <= rs_declared r /\
     requests_to_fail_ d = 0%nat /\ requests_to_fail_ d' = 0%nat /\
     truncate_response_ d' = -1
   \/ (rs_code r = 404 \/ rs_code r = 416) /\
     r = empty_response (rs_code r) /\ d' = d /\ requests_to_fail_ d = 0%nat
   \/ rs_code r = 500 /\ r = empty_response 500 /\
     requests_to_fail_ d = S (requests_to_fail_ d') /\
     truncate_response_ d' = truncate_response_ d).
Proof.
  unfold OnRequest.
  destruct (requests_to_fail_ d) as [|k] eqn:Hfail; cbn zeta.
  2:{ simpl. split_and!; try done. right. right. done. }
  destruct (files_ d !! path ≫= _) as [content|].
  2:{ simpl. split_and!; try done. right. left. split_and!; auto. }
  destruct (get_range_header h _) as [[lo hi]|].
  - destruct (lo <? _).
    + simpl. split_and!; try done. left. split_and!; auto.
      rewrite length_take.
      pose proof (to_size_t_range (hi - lo + 1)).
      destruct (0 <=? truncate_response_ d); cbv iota; lia.
    + simpl. split_and!; try done. right. left. split_and!; auto.
  - simpl. split_and!; try done. left. split_and!; auto.
    rewrite length_take. destruct (0 <=? truncate_response_ d); cbv iota; lia.
Qed.

(** X11. [FailNextRequests(n)] makes exactly the next [n] requests fail:
    each of them is answered with 500 and an empty body, whatever it
    asks for, and the server is then as if no failure had been asked
    for. *)
Theorem FailNextRequests_fails (d : TestHTTPd) (reqs : list (string * headers)) :
  serve (FailNextRequests d (length reqs)) reqs
  = (replicate (length reqs) (empty_response 500), FailNextRequests d 0).
Proof.
  induction reqs as [|[path h] reqs IH]; simpl; [done|].
  change {| files_ := files_ d; disk := disk d; requests_to_fail_ := length reqs;
            truncate_response_ := truncate_response_ d |}
    with (FailNextRequests d (length reqs)).
  by rewrite IH.
Qed.

(** The answer to a request the reader makes for a file the server
    holds, as [OnRequest] computes it. *)
Lemma OnRequest_tail_raw (d : TestHTTPd) (path file u : string) (F : bytes) (o : Z) :
  files_ d !! path = Some file -> disk d !! file = Some F ->
  requests_to_fail_ d = 0%nat ->
  o = 0 \/ 0 < o < Z.of_nat (length F) -> Z.of_nat (length F) < 2 ^ 63 ->
  truncate_response_ d < 2 ^ 63 ->
  let t := truncate_response_ d in
  let r := (OnRequest d path (rq_headers (request_at u o))).1 in
  let d' := (OnRequest d path (rq_headers (request_at u o))).2 in
  rs_code r = (if o =? 0 then 200 else 206) /\
  rs_declared r = Z.of_nat (length F) - o /\
  rs_body r = take (Z.to_nat (if 0 <=? t then Z.min t (Z.of_nat (length F) - o)
                              else Z.of_nat (length F) - o))
                   (drop (Z.to_nat o) F) /\
  truncate_response_ d' = -1 /\ requests_to_fail_ d' = 0%nat.
Proof.
  intros Hf Hd Hfail Ho HF Ht t r d'.
  unfold r, d', OnRequest. rewrite Hfail, Hf. cbn [mbind option_bind]. rewrite Hd.
  destruct (Z.eqb_spec o 0) as [->|Hne].
  - assert (get_range_header (rq_headers (request_at u 0)) (Z.of_nat (length F))
            = None) as -> by done.
    cbn [fst snd rs_code rs_declared rs_body truncate_response_ requests_to_fail_].
    rewrite Z.sub_0_r. fold t. split_and!; try done.
  - rewrite get_range_header_request by lia.
    replace (o <? Z.of_nat (length F)) with true by (symmetry; apply Z.ltb_lt; lia).
    assert (to_size_t (Z.of_nat (length F) - 1) = Z.of_nat (length F) - 1) as ->.
    { apply to_size_t_small. lia. }
    assert (to_size_t (Z.of_nat (length F) - 1 - o + 1) = Z.of_nat (length F) - o) as ->.
    { rewrite to_size_t_small; lia. }
    cbn [fst snd rs_code rs_declared rs_body truncate_response_ requests_to_fail_].
    fold t. split_and!; try done.
    destruct (Z.leb_spec 0 t) as [Hge|Hlt]; [|done].
    assert (to_size_t t = t) as -> by (apply to_size_t_small; unfold t; lia).
    done.
Qed.

(** X12. A request the reader makes for a file the server holds, from the
    start or at an offset inside the file: the answer is 200 at offset
    zero and 206 above, it announces the bytes from the offset to the
    end of the file, and its body is those bytes, cut to the first [t]
    of them when a truncation at [t] is pending; libcurl will report a
    partial file exactly when the cut removed something.  The
    truncation is used up. *)
Theorem OnRequest_serves_tail (d : TestHTTPd) (path file u : string) (F : bytes)
    (o : Z) :
  files_ d !! path = Some file -> disk d !! file = Some F ->
  requests_to_fail_ d = 0%nat ->
  o = 0 \/ 0 < o < Z.of_nat (length F) -> Z.of_nat (length F) < 2 ^ 63 ->
  truncate_response_ d < 2 ^ 63 ->
  let t := truncate_response_ d in
  let r := (OnRequest d path (rq_headers (request_at u o))).1 in
  let d' := (OnRequest d path (rq_headers (request_at u o))).2 in
  rs_code r = (if o =? 0 then 200 else 206) /\
  rs_declared r = Z.of_nat (length F) - o /\
  rs_body r = (if 0 <=? t then take (Z.to_nat t) (drop (Z.to_nat o) F)
               else drop (Z.to_nat o) F) /\
  transfer_result r = (if (0 <=? t) && (t <? Z.of_nat (length F) - o)
                       then CURLE_PARTIAL_FILE else CURLE_OK) /\
  truncate_response_ d' = -1 /\ requests_to_fail_ d' = 0%nat.
Proof.
  intros Hf Hd Hfail Ho HF Ht t r d'.
  destruct (OnRequest_tail_raw d path file u F o Hf Hd Hfail Ho HF Ht)
    as (Hcode & Hdecl & Hbody & Htr & Hrf).
  fold t r d' in Hcode, Hdecl, Hbody, Htr, Hrf.
  assert (length (drop (Z.to_nat o) F) = Z.to_nat (Z.of_nat (length F) - o)) as Hlen.
  { rewrite length_drop. lia. }
  split_and!; try done.
  - rewrite Hbody. destruct (Z.leb_spec 0 t) as [Hge|Hlt].
    + destruct (Z.le_ge_cases t (Z.of_nat (length F) - o)).
      * by rewrite Z.min_l.
      * rewrite Z.min_r by done. rewrite !take_ge by lia. done.
    + by rewrite take_ge by lia.
  - unfold transfer_result. rewrite Hbody, Hdecl, length_take, Hlen.
    destruct (Z.leb_spec 0 t) as [Hge|Hlt]; cbn [andb].
    + destruct (Z.ltb_spec t (Z.of_nat (length F) - o)).
      * rewrite Z.min_l by lia.
        replace (_ =? _) with false by (symmetry; apply Z.eqb_neq; lia). done.
      * rewrite Z.min_r by lia.
        replace (_ =? _) with true by (symmetry; apply Z.eqb_eq; lia). done.
    + replace (_ =? _) with true by (symmetry; apply Z.eqb_eq; lia). done.
Qed.

Lemma OnRequest_not_found (d : TestHTTPd) (path : string) (h : headers) :
  requests_to_fail_ d = 0%nat -> files_ d !! path = None ->
  OnRequest d path h = (empty_response 404, d).
Proof. intros Hfail Hnone. unfold OnRequest. by rewrite Hfail, Hnone. Qed.

Lemma OnRequest_beyond_end (d : TestHTTPd) (path file u : string) (F : bytes) (o : Z) :
  requests_to_fail_ d = 0%nat ->
  files_ d !! path = Some file -> disk d !! file = Some F ->
  0 < o < 2 ^ 63 -> Z.of_nat (length F) <= o ->
  OnRequest d path (rq_headers (request_at u o)) = (empty_response 416, d).
Proof.
  intros Hfail Hf Hd Ho Hlen. unfold OnRequest.
  rewrite Hfail, Hf. cbn [mbind option_bind]. rewrite Hd.
  rewrite get_range_header_request by lia.
  by replace (o <? Z.of_nat (length F)) with false
    by (symmetry; apply Z.ltb_ge; lia).
Qed.

(** X13. Requests that cannot be served leave the server as it is: a path
    the server does not hold is answered with 404, and an offset at or
    beyond the end of the file with 416, both with an empty body; a
    pending truncation is not used up by them. *)
Theorem OnRequest_refuses (d : TestHTTPd) (path u : string) (o : Z) :
  requests_to_fail_ d = 0%nat ->
  (files_ d !! path = None ->
   OnRequest d path (rq_headers (request_at u o)) = (empty_response 404, d)) /\
  (forall file F,
     files_ d !! path = Some file -> disk d !! file = Some F ->
     0 < o < 2 ^ 63 -> Z.of_nat (length F) <= o ->
     OnRequest d path (rq_headers (request_at u o)) = (empty_response 416, d)).
Proof.
  intros Hfail. split.
  - intros Hnone. by apply OnRequest_not_found.
  - intros file F Hf Hd Ho Hlen. by apply (OnRequest_beyond_end d path file u F o).
Qed.

Lemma OnRequest_serves_tail_witness :
  let d := TruncateNextResponse Sample.httpd 2 in
  let r := (OnRequest d "/f" (rq_headers (request_at Sample.url_f 5))).1 in
  rs_code r = 206 /\ rs_declared r = 3 /\ rs_body r = [x46; x47] /\
  transfer_result r = CURLE_PARTIAL_FILE.
Proof.
  intros d r.
  destruct (OnRequest_serves_tail d "/f" "data/f" Sample.url_f Sample.F8 5
              eq_refl eq_refl eq_refl ltac:(right; split; reflexivity)
              ltac:(reflexivity) ltac:(reflexivity)) as (Hc & Hd & Hb & Hr & _).
  split_and!; [exact Hc | exact Hd | exact Hb | exact Hr].
Defined.

Lemma OnRequest_refuses_witness :
  OnRequest Sample.httpd "/g" (rq_headers (request_at Sample.url_f 0))
    = (empty_response 404, Sample.httpd) /\
  OnRequest Sample.httpd "/f" (rq_headers (request_at Sample.url_f 8))
    = (empty_response 416, Sample.httpd).
Proof.
  split.
  - exact (proj1 (OnRequest_refuses Sample.httpd "/g" Sample.url_f 0 eq_refl) eq_refl).
  - exact (proj2 (OnRequest_refuses Sample.httpd "/f" Sample.url_f 8 eq_refl)
             "data/f"%string Sample.F8 eq_refl eq_refl
             ltac:(split; reflexivity) ltac:(discriminate)).
Defined.

(** ** The content reader *)

Lemma send_body_from (content : bytes) (ofs len size : Z) :
  0 <= ofs -> 0 <= len <= size ->
  ofs + len <= Z.of_nat (length content) -> Z.of_nat (length content) < 2 ^ 63 ->
  forall rooms pos,
    0 <= pos <= len ->
    Forall (fun max => 1 <= max <= INT_MAX) rooms ->
    (Z.to_nat (len - pos) < length rooms)%nat ->
    send_body (TestHTTPd_Response.new content ofs len) size pos rooms
    = take (Z.to_nat (len - pos)) (drop (Z.to_nat (ofs + pos)) content).
Proof.
  intros Hofs Hlen Hwin Hsz.
  induction rooms as [|max rooms IH]; intros pos Hpos Hrooms Hcount;
    [simpl in Hcount; lia|].
  apply Forall_cons in Hrooms as [Hmax Hrooms].
  cbn [send_body]. unfold TestHTTPd_Response.ContentReaderCallback.
  cbn [TestHTTPd_Response.new TestHTTPd_Response.fd_ TestHTTPd_Response.ofs_
       TestHTTPd_Response.len_].
  destruct (Z.leb_spec size pos) as [Hge|Hlt].
  { replace (len - pos) with 0 by lia. done. }
  destruct (Z.leb_spec len pos) as [Hge'|Hlt'].
  { cbn. replace (len - pos) with 0 by lia. done. }
  rewrite (to_size_t_small (ofs + pos)) by lia.
  rewrite to_off_t_small by lia.
  replace (ofs + pos <? 0) with false by (symmetry; apply Z.ltb_ge; lia).
  cbv zeta.
  set (count := Z.min (len - pos) max).
  assert (1 <= count <= len - pos) as Hc by (unfold count; lia).
  assert (length (take (Z.to_nat count) (drop (Z.to_nat (ofs + pos)) content))
          = Z.to_nat count) as Hl.
  { rewrite length_take, length_drop. lia. }
  rewrite Hl, Z2Nat.id by lia.
  rewrite to_int_small by (unfold count, INT_MAX in *; lia).
  replace (count <? 0) with false by (symmetry; apply Z.ltb_ge; lia).
  rewrite IH by (simpl in Hcount; try done; lia).
  replace (Z.to_nat (len - pos)) with (Z.to_nat count + Z.to_nat (len - (pos + count)))%nat
    by lia.
  replace (Z.to_nat (ofs + (pos + count)))
    with (Z.to_nat (ofs + pos) + Z.to_nat count)%nat by lia.
  rewrite <- drop_drop. by rewrite take_take_drop.
Qed.

(** X14. The content reader hands out exactly the part of the file it was
    created for.  Called as libmicrohttpd calls it, at the position
    reached and with whatever room is offered, it delivers the [len]
    bytes of the file from [ofs] on, in order, when they lie inside the
    file; and asked for the byte after them, it ends the response with
    an error, which is how a response announced with more than [len]
    bytes comes out truncated. *)
Theorem send_body_window (content : bytes) (ofs len size : Z) (rooms : list Z) :
  0 <= ofs -> 0 <= len <= size ->
  ofs + len <= Z.of_nat (length content) -> Z.of_nat (length content) < 2 ^ 63 ->
  Forall (fun max => 1 <= max <= INT_MAX) rooms ->
  (Z.to_nat len < length rooms)%nat ->
  let r := TestHTTPd_Response.new content ofs len in
  send_body r size 0 rooms = take (Z.to_nat len) (drop (Z.to_nat ofs) content) /\
  forall max,
    TestHTTPd_Response.ContentReaderCallback r len max
    = (MHD_CONTENT_READER_END_WITH_ERROR, []).
Proof.
  intros Hofs Hlen Hwin Hsz Hrooms Hcount r. split.
  - unfold r. rewrite (send_body_from content ofs len size) by (try done; lia).
    by rewrite Z.sub_0_r, Z.add_0_r.
  - intros max. unfold TestHTTPd_Response.ContentReaderCallback.
    cbn [r TestHTTPd_Response.new TestHTTPd_Response.len_].
    by rewrite Z.leb_refl.
Qed.

(** The file "ABCDEFGH" served from offset 2 and cut after 3 bytes, the
    rooms offered being 2, 2 and 4 bytes. *)
Lemma send_body_window_witness :
  send_body (TestHTTPd_Response.new Sample.F8 2 3) 6 0 [2; 2; 4; 4]
    = [x43; x44; x45] /\
  forall max,
    TestHTTPd_Response.ContentReaderCallback (TestHTTPd_Response.new Sample.F8 2 3) 3 max
    = (MHD_CONTENT_READER_END_WITH_ERROR, []).
Proof.
  apply (send_body_window Sample.F8 2 3 6 [2; 2; 4; 4]); try (simpl; lia);
    try reflexivity.
  repeat constructor; discriminate.
Defined.

(** ** The stream over its life *)

Lemma perform_handles st :
  h_ (perform st).2 = h_ st /\ m_ (perform st).2 = m_ st.
Proof. unfold perform. by repeat case_match. Qed.

Lemma block_handles st :
  h_ (block st).2 = h_ st /\ m_ (block st).2 = m_ st.
Proof. unfold block. by repeat case_match. Qed.

Lemma drive_handles cond t st :
  h_ (drive cond t st).2 = h_ st /\ m_ (drive cond t st).2 = m_ st.
Proof.
  apply (drive_preserves (fun s => h_ s = h_ st /\ m_ s = m_ st)); [| |done].
  - intros s [Hh Hm]. destruct (block_handles s) as [-> ->]. done.
  - intros s [Hh Hm]. destruct (perform_handles s) as [-> ->]. done.
Qed.

Lemma CurlStream_read_handles st n :
  h_ (CurlStream_read st n).2 = h_ st /\ m_ (CurlStream_read st n).2 = m_ st.
Proof.
  unfold CurlStream_read.
  destruct (final_read_rc_ st <=? 0); [done|].
  destruct (negb (h_ st)); [done|].
  destruct (_ || _); [done|].
  pose proof (perform_handles st) as Hp.
  destruct (perform st) as [s1 st1]. simpl in Hp.
  pose proof (drive_handles awaiting_body (wire_ st1) st1) as Hd.
  destruct (drive awaiting_body (wire_ st1) st1) as [s2 st2]. simpl in Hd.
  destruct (FifoBuffer.readsome (buf_ st) n) as [[k1 o1] q1].
  destruct (FifoBuffer.readsome (buf_ st2) n) as [[k2 o2] q2].
  destruct Hp as [Hp1 Hp2], Hd as [Hd1 Hd2].
  repeat case_match; simplify_eq; simpl; split; congruence.
Qed.

Lemma CurlStream_reads_handles ns : forall st,
  h_ (CurlStream_reads st ns) = h_ st /\ m_ (CurlStream_reads st ns) = m_ st.
Proof.
  induction ns as [|n ns IH]; intros st; simpl; [done|].
  destruct (IH (CurlStream_read st n).2) as [-> ->].
  apply CurlStream_read_handles.
Qed.

Section StreamLife.

Context {Net : Type}.
Variable connect : Net -> request -> session * Net.
Variable NDEBUG : bool.

(** The handles an [open] on a new stream leaves: the easy handle is
  never there without the multi handle, and both are there after a
  success. *)
Lemma CurlStream_open_handles u o (w : World Net) c st w1 :
CurlStream_open Net connect NDEBUG CurlStream_new u o w = Some (c, st, w1) ->
(h_ st = true -> m_ st = true) /\ (c = 0 -> h_ st = true /\ m_ st = true).
Proof.
unfold CurlStream_open. cbn [CurlStream_new m_ h_ orb].
destruct (ensure_curl_init Net w) as [rc w0].
destruct (negb (rc =? CURLE_OK)); [by intros [= <- <- <-]|].
destruct (connect _ _) as [ss nt].
destruct (negb (s_multi_init ss)); [by intros [= <- <- <-]|].
destruct (negb (s_easy_init ss)); [by intros [= <- <- <-]|].
destruct (negb (s_add_handle ss)); [by intros [= <- <- <-]|].
destruct (first_setopt_fails ss); [by intros [= <- <- <-]|].
destruct (later_setopt_fails ss); [by intros [= <- <- <-]|].
match goal with |- context [perform ?x] =>
  pose proof (perform_handles x) as Hp; destruct (perform x) as [s3 st3] end.
cbn [snd] in Hp. destruct Hp as [Hp1 Hp2]. cbn [h_ m_ set_request_headers set_wire set_handles] in Hp1, Hp2.
destruct (bad s3) eqn:Hb3.
{ intros [= <- <- <-]. split; [congruence|]. intros ->. done. }
pose proof (drive_handles awaiting_code (wire_ st3) st3) as [Hd1 Hd2].
destruct (drive awaiting_code (wire_ st3) st3) as [s4 st4]. cbn [snd] in Hd1, Hd2.
destruct (bad s4) eqn:Hb4.
{ intros [= <- <- <-]. split; [congruence|]. intros ->. done. }
match goal with |- context [if bad ?x then _ else _] => destruct (bad x) eqn:Hb5 end.
{ intros [= <- <- <-]. simpl. split; [congruence|].
  intros Hc. by rewrite Hc in Hb5. }
destruct (_ && _); [done|].
intros [= <- <- <-]. split; [congruence|]. intros _. split; congruence.
Qed.

(** X15. A stream that has been opened cannot be opened again: after a
  successful [open], and whatever has been read from the stream since,
  a second [open] returns -2, sends nothing and changes nothing. *)
Theorem CurlStream_open_once (u : string) (o : Z) (w : World Net)
  (st : CurlStream) (w1 : World Net) :
CurlStream_open Net connect NDEBUG CurlStream_new u o w = Some (0, st, w1) ->
forall ns u' o' w2,
  CurlStream_open Net connect NDEBUG (CurlStream_reads st ns) u' o' w2
  = Some (-2, CurlStream_reads st ns, w2).
Proof.
intros Hopen ns u' o' w2.
apply CurlStream_open_handles in Hopen as [_ Hboth].
destruct (Hboth eq_refl) as [Hh Hm].
destruct (CurlStream_reads_handles ns st) as [Hh' Hm'].
unfold CurlStream_open. by rewrite Hm', Hm.
Qed.

(** X16. The destructor's assertion never fails: whatever an [open] on a
  new stream returned, and whatever was read from the stream
  afterwards, the easy handle is not there without the multi handle,
  so that destroying the stream does not abort the process, also in a
  build with assertions. *)
Theorem CurlStream_delete_safe (u : string) (o : Z) (w : World Net) (c : Z)
  (st : CurlStream) (w1 : World Net) :
CurlStream_open Net connect NDEBUG CurlStream_new u o w = Some (c, st, w1) ->
forall ns, CurlStream_delete false (CurlStream_reads st ns) = Some tt.
Proof.
intros Hopen ns.
apply CurlStream_open_handles in Hopen as [Hinv _].
destruct (CurlStream_reads_handles ns st) as [Hh' Hm'].
unfold CurlStream_delete. rewrite Hh', Hm'.
destruct (h_ st); [by rewrite Hinv | done].
Qed.

(** X17. [curl_global_init] is called once in the life of the process, by
  the first [open], and its failure is not remembered: that [open]
  fails with -1 before anything is sent, and every later [open] finds
  the library marked as initialised and goes on to make its request. *)
Theorem curl_global_init_once (stm0 : CurlStream) (u : string) (o : Z)
  (w : World Net) (c : Z) (st : CurlStream) (w1 : World Net) :
CurlStream_open Net connect NDEBUG stm0 u o w = Some (c, st, w1) ->
m_ stm0 || h_ stm0 = false ->
need_init Net w1 = false /\
ensure_curl_init Net w1 = (CURLE_OK, w1) /\
(need_init Net w = true -> global_init Net w <> CURLE_OK ->
   c = -1 /\ st = stm0 /\ net Net w1 = net Net w).
Proof.
intros Hopen Hfresh.
assert (need_init Net w1 = false /\
        (need_init Net w = true -> global_init Net w <> CURLE_OK ->
           c = -1 /\ st = stm0 /\ net Net w1 = net Net w)) as [Hni Hfail].
{ revert Hopen. unfold CurlStream_open. rewrite Hfresh.
  unfold ensure_curl_init.
  destruct (need_init Net w) eqn:Hn.
  - destruct (global_init Net w =? CURLE_OK) eqn:Hg; simpl.
    + apply Z.eqb_eq in Hg.
      cbn [net]. destruct (connect _ _) as [ss nt].
      intros Hopen. split; [|by intros _ []].
      revert Hopen. repeat case_match; intros; simplify_eq; done.
    + intros [= <- <- <-]. done.
  - replace (negb (CURLE_OK =? CURLE_OK)) with false by done.
    destruct (connect _ _) as [ss nt].
    intros Hopen. split; [|done].
    revert Hopen. repeat case_match; intros; simplify_eq; done. }
split_and!; [done | | done].
unfold ensure_curl_init. by rewrite Hni.
Qed.

End StreamLife.

(** ** Reading a response to its end *)

Lemma readsome_any q n :
  fifo_ok q -> q <> [] ->
  exists k q',
    FifoBuffer.readsome q n = (k, take k (concat q), q') /\
    (k <= n)%nat /\ ((0 < n)%nat -> (0 < k)%nat) /\
    concat q' = drop k (concat q) /\ fifo_ok q'.
Proof.
  intros Hq Hne. destruct (Nat.eq_dec n 0%nat) as [->|Hn].
  - exists 0%nat, q. destruct q; [done|]. simpl. split_and!; try done.
  - destruct (readsome_spec q n Hq Hne ltac:(lia)) as (k & q' & Hrs & Hk & _ & Hcat & Hq').
    exists k, q'. split_and!; try done; lia.
Qed.

(** One read from a stream that is receiving a 2xx response: the next
    bytes of the body while there are any, the final status once there
    are none. *)
Lemma CurlStream_read_step st code rem res n :
  receiving st code rem res -> response_code_ st = code ->
  200 <= code <= 299 -> h_ st = true -> 0 < final_read_rc_ st ->
  Z.of_nat n < 2 ^ 63 ->
  exists st',
    (rem = [] /\ CurlStream_read st n = (end_status res, [], st') /\
     final_read_rc_ st' = end_status res) \/
    (rem <> [] /\ exists k, (k <= n)%nat /\ ((0 < n)%nat -> (0 < k)%nat) /\
       CurlStream_read st n = (Z.of_nat k, take k rem, st') /\
       receiving st' code (drop k rem) res /\ response_code_ st' = code /\
       h_ st' = true /\ final_read_rc_ st' = final_read_rc_ st).
Proof.
  intros Hrec Hcode H2xx Hh Hrc Hb.
  assert (code <> 0) as Hc0 by lia.
  assert (Hserve : forall s, receiving s code rem res -> response_code_ s = code ->
            h_ s = true -> final_read_rc_ s = final_read_rc_ st -> buf_ s <> [] ->
            rem <> [] /\ exists k, (k <= n)%nat /\ ((0 < n)%nat -> (0 < k)%nat) /\
              (let '(neff, out, q) := FifoBuffer.readsome (buf_ s) n in
               (to_ssize_t (Z.of_nat neff), out, set_buf s q))
              = (Z.of_nat k, take k rem, set_buf s (FifoBuffer.readsome (buf_ s) n).2) /\
              receiving (set_buf s (FifoBuffer.readsome (buf_ s) n).2)
                        code (drop k rem) res).
  { intros s (Hq & Hw & Hm) Hsc Hsh Hsr Hne.
    destruct (readsome_any (buf_ s) n Hq Hne) as (k & q' & Hrs & Hk & Hk0 & Hcat & Hq').
    rewrite Hrs. simpl.
    assert (concat (buf_ s) <> []) as Hcne.
    { destruct (buf_ s) as [|c q]; [done|]. apply Forall_cons in Hq as [Hc _].
      destruct c; [done|]. done. }
    assert (k <= length (concat (buf_ s)))%nat as Hkl.
    { destruct (le_lt_dec k (length (concat (buf_ s)))) as [|Hgt]; [done|].
      assert (length (concat q') = 0%nat) as Hz by (rewrite Hcat, length_drop; lia).
      destruct q' as [|c q']; [|apply Forall_cons in Hq' as [Hc _]; destruct c;
        [done | simpl in Hz; lia]].
      pose proof (readsome_concat (buf_ s) n) as [Hsum Hlen].
      rewrite Hrs in Hsum, Hlen. simpl in Hsum, Hlen.
      rewrite app_nil_r in Hsum. rewrite <- Hlen, Hsum. reflexivity. }
    destruct (final_msg_ s) as [r|] eqn:Hfm.
    - destruct Hm as (-> & _ & ->). split; [done|].
      exists k. split_and!; try done.
      + rewrite to_ssize_t_small by lia. done.
      + unfold receiving; simpl. rewrite Hfm. split_and!; done.
    - destruct Hm as (Hcd & b' & Hcar & ->). split.
      { intros Heq. apply app_eq_nil in Heq as [? _]. done. }
      exists k. split_and!; try done.
      + rewrite to_ssize_t_small by lia. by rewrite take_app_le.
      + unfold receiving; simpl. rewrite Hfm. split_and!; try done.
        exists b'. split; [done|]. by rewrite drop_app_le, Hcat. }
  unfold CurlStream_read.
  rewrite (proj2 (Z.leb_gt _ _) Hrc), Hh, Hcode. simpl.
  replace ((code <? 200) || (299 <? code)) with false
    by (symmetry; apply orb_false_iff; split; [apply Z.ltb_ge | apply Z.ltb_ge]; lia).
  destruct (FifoBuffer.empty (buf_ st)) eqn:Hempty.
  - destruct (perform_receiving _ _ _ _ Hrec Hc0) as (Hp & Hrec1 & Hh1 & Hr1 & _).
    pose proof (perform_response_code st code Hc0 Hcode) as Hc1.
    destruct (perform st) as [s1 st1]; simpl in *. subst s1. simpl.
    destruct (drive_receiving awaiting_body code rem res Hc0 (wire_ st1) st1 eq_refl Hrec1)
      as (Hd & Hrec2 & Hh2 & Hr2 & Hend).
    pose proof (drive_preserves (fun s => response_code_ s = code)
                  (fun s => block_response_code s code)
                  (fun s => perform_response_code s code Hc0)
                  awaiting_body (wire_ st1) st1 Hc1) as Hc2.
    destruct (drive awaiting_body (wire_ st1) st1) as [s2 st2]; simpl in *.
    subst s2. simpl.
    destruct (FifoBuffer.empty (buf_ st2)) eqn:Hempty2.
    + assert (buf_ st2 = []) as Hnil by (by destruct (buf_ st2)).
      destruct Hend as [Hfin | Hcond]; [|unfold awaiting_body in Hcond; congruence].
      destruct Hrec2 as (_ & _ & Hm).
      destruct (final_msg_ st2) as [r|] eqn:Hfm; [|done].
      destruct Hm as (-> & _ & ->). rewrite Hnil.
      eexists. left. split; [done|].
      unfold final_status, end_status. rewrite Hfm. done.
    + assert (buf_ st2 <> []) as Hne by (by destruct (buf_ st2)).
      destruct (Hserve st2 Hrec2 Hc2 ltac:(congruence) ltac:(congruence) Hne)
        as (Hrem & k & Hk & Hk0 & Heq & Hrec3).
      eexists. right. split; [done|]. exists k.
      split; [done|]. split; [done|]. split; [exact Heq|].
      split_and!; simpl; try done; congruence.
  - assert (buf_ st <> []) as Hne by (by destruct (buf_ st)).
    destruct (Hserve st Hrec Hcode Hh eq_refl Hne) as (Hrem & k & Hk & Hk0 & Heq & Hrec3).
    eexists. right. split; [done|]. exists k.
    split; [done|]. split; [done|]. split; [exact Heq|].
    split_and!; simpl; done.
Qed.

(** X18. A read of no bytes is not an end of stream.  On a stream that is
    receiving a 2xx response and still has body bytes to hand out,
    [read] with [n = 0] returns 0 and delivers nothing (after waiting
    for data, if none is queued), but it records no final status and
    loses nothing: the bytes are all still to come, and the next read of
    at least one byte returns at least one of them. *)
Theorem CurlStream_read_zero (st : CurlStream) (code : Z) (rem : bytes) (res : Z)
    (n : nat) :
  receiving st code rem res -> response_code_ st = code ->
  200 <= code <= 299 -> h_ st = true -> 0 < final_read_rc_ st ->
  rem <> [] -> (0 < n)%nat -> Z.of_nat n < 2 ^ 63 ->
  exists st' k st'',
    CurlStream_read st 0 = (0, [], st') /\
    receiving st' code rem res /\ final_read_rc_ st' = final_read_rc_ st /\
    CurlStream_read st' n = (Z.of_nat k, take k rem, st'') /\ (0 < k <= n)%nat.
Proof.
  intros Hrec Hcode H2xx Hh Hrc Hrem Hn Hb.
  destruct (CurlStream_read_step st code rem res 0 Hrec Hcode H2xx Hh Hrc ltac:(lia))
    as (st' & [(-> & _) | (_ & k & Hk & _ & Hread & Hrec' & Hc' & Hh' & Hr')]); [done|].
  assert (k = 0%nat) as -> by lia. rewrite drop_0 in Hrec'. simpl in Hread.
  destruct (CurlStream_read_step st' code rem res n Hrec' Hc' H2xx Hh'
              ltac:(lia) Hb)
    as (st'' & [(-> & _) | (_ & k & Hk2 & Hk0 & Hread2 & _)]); [done|].
  exists st', k, st''.
  split_and!; [exact Hread | exact Hrec' | exact Hr' | exact Hread2
               | by apply Hk0 | done].
Qed.

Section ReadToEnd.

Context {Net : Type}.
Variable connect : Net -> request -> session * Net.
Variable NDEBUG : bool.

(** Reading to the end of a 2xx response that is being received: all
  the bytes of the body, then the final status of the transfer, and
  nothing more is asked of the network. *)
Lemma read_all_step code res n u o :
200 <= code <= 299 -> (0 < n)%nat -> Z.of_nat n < 2 ^ 31 ->
forall fuel st rem (w : World Net),
  receiving st code rem res -> response_code_ st = code ->
  h_ st = true -> 0 < final_read_rc_ st ->
  (length rem < fuel)%nat ->
  exists st' w',
    read_all Net connect NDEBUG fuel {| url := u; ofs := o; stm := Some st |} n w
      = Some (end_status res, rem, {| url := u; ofs := o; stm := Some st' |}, w') /\
    net Net w' = net Net w /\
    (res <> CURLE_OK \/ rem <> [] -> errno Net w' = EIO) /\
    (res = CURLE_OK -> rem = [] -> errno Net w' = errno Net w).
Proof.
intros H2xx Hn Hb.
induction fuel as [|fuel IH]; intros st rem w Hrec Hcode Hh Hrc Hfuel; [lia|].
simpl. unfold net_read, curlstream_read; simpl. unfold read_stream.
destruct (CurlStream_read_step st code rem res n Hrec Hcode H2xx Hh Hrc ltac:(lia))
  as (st' & [(-> & Hread & _) | (Hne & k & Hk & Hk0 & Hread & Hrec' & Hc' & Hh' & Hr')]).
- rewrite Hread. simpl. unfold end_status.
  destruct (res =? CURLE_OK) eqn:Hres.
  + apply Z.eqb_eq in Hres. simpl.
    eexists _, _. split; [done|]. split_and!; try done. by intros [? | ?].
  + apply Z.eqb_neq in Hres. simpl.
    eexists _, _. split; [done|]. split_and!; try done.
- specialize (Hk0 Hn). rewrite Hread. simpl. rewrite to_int_small by lia.
  replace (0 <? Z.of_nat k) with true by (symmetry; apply Z.ltb_lt; lia).
  replace (Z.of_nat k =? 0) with false by (symmetry; apply Z.eqb_neq; lia).
  assert (length (drop k rem) < fuel)%nat as Hlen.
  { rewrite length_drop. destruct rem; [done|]. simpl in *. lia. }
  destruct (IH st' (drop k rem) (set_errno Net w EIO) Hrec' Hc' Hh' ltac:(lia) Hlen)
    as (st'' & w'' & Hall & Hnet & He1 & He2).
  rewrite Hall. simpl. rewrite take_drop.
  eexists _, _. split; [done|]. split_and!; try done.
  intros _. destruct (decide (res = CURLE_OK)) as [Hres|Hres]; [|by apply He1; left].
  destruct (decide (drop k rem = [])) as [Hd|Hd]; [|by apply He1; right].
  by rewrite (He2 Hres Hd).
Qed.

(** A read-to-the-end that has to open the session first goes on as on
  the session opened. *)
Lemma read_all_reopen fuel u o n (w : World Net) st w1 :
CurlStream_open Net connect NDEBUG CurlStream_new u o w = Some (0, st, w1) ->
read_all Net connect NDEBUG (S fuel) {| url := u; ofs := o; stm := None |} n w
= read_all Net connect NDEBUG (S fuel) {| url := u; ofs := o; stm := Some st |} n w1.
Proof.
intros Hopen. cbn [read_all]. unfold net_read.
rewrite curlstream_read_reopen, Hopen. cbn [mbind option_bind].
change (0 =? 0) with true. cbv iota. unfold curlstream_read. cbn [stm]. done.
Qed.

(** An open that is answered with an empty response of a status
  outside 200..299 fails with -4, the status recorded. *)
Lemma CurlStream_open_refused u o (w : World Net) t nt code :
(ensure_curl_init Net w).1 = CURLE_OK ->
connect (net Net w) (request_at u o) = (fresh_session t, nt) ->
carries t code [] CURLE_OK -> code <> 0 -> ~ 200 <= code <= 299 ->
exists st w1,
  CurlStream_open Net connect NDEBUG CurlStream_new u o w = Some (-4, st, w1) /\
  net Net w1 = nt /\ errno Net w1 = errno Net w /\ response_code_ st = code.
Proof.
intros Hinit Hconn Hcar Hcode Hnot.
destruct (CurlStream_open_receiving connect NDEBUG u o w t nt code [] CURLE_OK
            Hinit Hconn Hcar Hcode)
  as (c & st & w1 & Hopen & Hnet & Herr & [(_ & ?) | (-> & _ & Hc & _)]); [done|].
exists st, w1. split_and!; try done. rewrite Hopen. do 3 f_equal.
unfold check_response_code.
destruct (Z.ltb_spec code 200); [done|].
destruct (Z.ltb_spec 299 code); [done|]. lia.
Qed.

End ReadToEnd.

Section AgainstMockServer.

Variable pace : response -> transfer.
Variable NDEBUG : bool.

Hypothesis pace_carries :
forall r, carries (pace r) (rs_code r) (rs_body r) (transfer_result r).

Lemma connect_httpd_request (w : World Httpd_net) path o :
connect_httpd pace (net Httpd_net w) (request_at (TEST_HTTPD_URL +:+ path) o)
= (fresh_session
     (pace (OnRequest (server (net Httpd_net w)) path
              (rq_headers (request_at (TEST_HTTPD_URL +:+ path) o))).1),
   {| server := (OnRequest (server (net Httpd_net w)) path
                   (rq_headers (request_at (TEST_HTTPD_URL +:+ path) o))).2;
      requests := requests (net Httpd_net w)
                    ++ [request_at (TEST_HTTPD_URL +:+ path) o] |}).
Proof.
unfold connect_httpd. cbn [rq_url request_at]. rewrite strip_prefix_app.
by destruct (OnRequest _ _ _).
Qed.

(** A request that the server answers with an empty response of a
  status outside 200..299: the read that made it fails with -4 and the
  errno of the status, and the box is left without a session. *)
Lemma curlstream_read_refused (w : World Httpd_net) path o n code d' :
(ensure_curl_init Httpd_net w).1 = CURLE_OK ->
OnRequest (server (net Httpd_net w)) path
  (rq_headers (request_at (TEST_HTTPD_URL +:+ path) o)) = (empty_response code, d') ->
code <> 0 -> ~ 200 <= code <= 299 ->
exists w',
  curlstream_read Httpd_net (connect_httpd pace) NDEBUG
    {| url := TEST_HTTPD_URL +:+ path; ofs := o; stm := None |} n w
  = Some (-4, [], {| url := TEST_HTTPD_URL +:+ path; ofs := o; stm := None |}, w') /\
  errno Httpd_net w' = errno_of_response code /\
  net Httpd_net w'
  = {| server := d';
       requests := requests (net Httpd_net w)
                     ++ [request_at (TEST_HTTPD_URL +:+ path) o] |}.
Proof.
intros Hinit Hreq Hcode Hnot.
pose proof (connect_httpd_request w path o) as Hconn. rewrite Hreq in Hconn.
pose proof (pace_carries (empty_response code)) as Hcar.
destruct (CurlStream_open_refused (connect_httpd pace) NDEBUG _ o w _ _ code
            Hinit Hconn Hcar Hcode Hnot) as (st & w1 & Hopen & Hnet & Herr & Hc).
rewrite curlstream_read_reopen, Hopen. cbn [mbind option_bind].
change (-4 =? 0) with false. cbv iota.
eexists. split; [done|]. rewrite Hc. split; [done|]. exact Hnet.
Qed.

(** X19. Reading a file from an offset to its end.  The server holds the
  file [F] and is asked for nothing special (no failure, and no
  truncation that would cut the part asked for).  A stream of the
  network backend is positioned with [net_seek] at [o], the start of
  the file or an offset inside it, which returns [o] and sends
  nothing, and is then read to the end with [net_read]: one request is
  sent, the one for offset [o]; the reads deliver the bytes of [F] from
  [o] on and then 0, the end of the stream. *)
Theorem read_all_delivers_tail (d : TestHTTPd) (path file : string) (F : bytes)
  (o : Z) (n : nat) (b : CurlStreamBox) (w : World Httpd_net) :
files_ d !! path = Some file -> disk d !! file = Some F ->
requests_to_fail_ d = 0%nat ->
truncate_response_ d < 0 \/
  Z.of_nat (length F) - o <= truncate_response_ d < 2 ^ 63 ->
o = 0 \/ 0 < o < Z.of_nat (length F) -> Z.of_nat (length F) < 2 ^ 63 ->
(0 < n)%nat -> Z.of_nat n < 2 ^ 31 ->
(ensure_curl_init Httpd_net w).1 = CURLE_OK -> server (net Httpd_net w) = d ->
let u := (TEST_HTTPD_URL +:+ path)%string in
url b = u ->
exists box,
  net_seek Httpd_net b o SEEK_SET w = (o, box, w) /\
  forall fuel, (length F - Z.to_nat o < fuel)%nat ->
    exists box' w2,
      read_all Httpd_net (connect_httpd pace) NDEBUG fuel box n w
      = Some (0, drop (Z.to_nat o) F, box', w2) /\
      url box' = u /\ ofs box' = o /\
      requests (net Httpd_net w2) = requests (net Httpd_net w) ++ [request_at u o].
Proof.
intros Hf Hd Hfail Ht Ho HF Hn Hb Hinit Hsrv u Hurl.
exists {| url := u; ofs := o; stm := None |}. split.
{ unfold net_seek, curlstream_seek. change (SEEK_SET =? SEEK_SET) with true.
  cbv iota. by rewrite Hurl. }
intros fuel Hfuel.
destruct (OnRequest_tail_raw d path file u F o Hf Hd Hfail Ho HF ltac:(lia))
  as (Hcode & Hdecl & Hbody & _).
pose proof (connect_httpd_request w path o) as Hconn. rewrite Hsrv in Hconn.
fold u in Hconn.
set (r := (OnRequest d path (rq_headers (request_at u o))).1) in *.
pose proof (pace_carries r) as Hcar.
assert (rs_body r = drop (Z.to_nat o) F) as Hbody'.
{ rewrite Hbody. apply take_ge. rewrite length_drop.
  destruct (Z.leb_spec 0 (truncate_response_ d)); lia. }
assert (transfer_result r = CURLE_OK) as Hres'.
{ unfold transfer_result. rewrite Hbody', Hdecl, length_drop.
  replace (_ =? _) with true by (symmetry; apply Z.eqb_eq; lia). done. }
rewrite Hbody', Hres' in Hcar.
assert (200 <= rs_code r <= 299 /\ check_response_code o (rs_code r) = 0) as [H2xx Hchk].
{ rewrite Hcode. destruct Ho as [-> | Ho]; [done|].
  replace (o =? 0) with false by (symmetry; apply Z.eqb_neq; lia).
  unfold check_response_code. simpl.
  by destruct (0 <? o). }
destruct (CurlStream_open_receiving (connect_httpd pace) NDEBUG u o w _ _ _ _ _
            Hinit Hconn Hcar ltac:(lia))
  as (c & st & w1 & Hopen & Hnet & Herr & [(_ & ?) | (-> & Hrec & Hc & Hh & Hrc & _)]);
  [done|].
rewrite Hchk in Hopen.
destruct fuel as [|fuel]; [lia|].
rewrite (read_all_reopen _ _ _ _ _ _ _ _ _ Hopen).
destruct (read_all_step (connect_httpd pace) NDEBUG (rs_code r) CURLE_OK n u o
            H2xx Hn Hb (S fuel) st _ w1 Hrec Hc Hh ltac:(lia)
            ltac:(rewrite length_drop; lia))
  as (st' & w2 & Hall & Hnet2 & _).
rewrite Hall. eexists _, _. split; [done|]. cbn [url ofs].
split_and!; try done. by rewrite Hnet2, Hnet.
Qed.

(** X20. Opening a URL the server holds and reading it to the end.
  [hopen_net] sends one request, without a range header, whatever mode
  was asked for, and returns a stream of the network backend; reading
  from that backend to the end delivers the whole file and then 0, and
  no further request is made. *)
Theorem hopen_net_reads_file (d : TestHTTPd) (path file : string) (F : bytes)
  (cap n : nat) (m : hmode) (w : World Httpd_net) :
files_ d !! path = Some file -> disk d !! file = Some F ->
requests_to_fail_ d = 0%nat ->
truncate_response_ d < 0 \/
  Z.of_nat (length F) <= truncate_response_ d < 2 ^ 63 ->
Z.of_nat (length F) < 2 ^ 63 ->
(0 < n)%nat -> Z.of_nat n < 2 ^ 31 ->
(ensure_curl_init Httpd_net w).1 = CURLE_OK -> server (net Httpd_net w) = d ->
let u := (TEST_HTTPD_URL +:+ path)%string in
exists f w1,
  hopen_net Httpd_net (connect_httpd pace) NDEBUG cap u m w = Some (Some f, w1) /\
  backend f = net_backend Httpd_net (connect_httpd pace) NDEBUG /\
  requests (net Httpd_net w1) = requests (net Httpd_net w) ++ [request_at u 0] /\
  forall fuel, (length F < fuel)%nat ->
    exists box' w2,
      read_all Httpd_net (connect_httpd pace) NDEBUG fuel (bstate f) n w1
      = Some (0, F, box', w2) /\
      net Httpd_net w2 = net Httpd_net w1.
Proof.
intros Hf Hd Hfail Ht HF Hn Hb Hinit Hsrv u.
destruct (OnRequest_tail_raw d path file u F 0 Hf Hd Hfail ltac:(by left) HF ltac:(lia))
  as (Hcode & Hdecl & Hbody & _).
pose proof (connect_httpd_request w path 0) as Hconn. rewrite Hsrv in Hconn.
fold u in Hconn.
set (r := (OnRequest d path (rq_headers (request_at u 0))).1) in *.
pose proof (pace_carries r) as Hcar.
assert (rs_body r = F) as Hbody'.
{ rewrite Hbody. rewrite drop_0. apply take_ge.
  destruct (Z.leb_spec 0 (truncate_response_ d)); lia. }
assert (transfer_result r = CURLE_OK) as Hres'.
{ unfold transfer_result. rewrite Hbody', Hdecl.
  replace (_ =? _) with true by (symmetry; apply Z.eqb_eq; lia). done. }
rewrite Hbody', Hres' in Hcar. change (0 =? 0) with true in Hcode. cbv iota in Hcode.
destruct (CurlStream_open_receiving (connect_httpd pace) NDEBUG u 0 w _ _ _ _ _
            Hinit Hconn Hcar ltac:(lia))
  as (c & st & w1 & Hopen & Hnet & Herr & [(_ & ?) | (-> & Hrec & Hc & Hh & Hrc & _)]);
  [done|].
rewrite Hcode in Hopen. change (check_response_code 0 200) with 0 in Hopen.
unfold hopen_net, curlstream_open, open_helper. cbn [url ofs].
rewrite Hopen. cbn [mbind option_bind]. change (0 =? 0) with true. cbv iota.
cbn [mbind option_bind]. change (0 =? 0) with true. cbv iota.
cbn [mbind option_bind].
eexists _, _. split; [done|].
split_and!; [reflexivity | by rewrite Hnet |].
intros fuel Hfuel. cbn [bstate hfile_init].
destruct (read_all_step (connect_httpd pace) NDEBUG (rs_code r) CURLE_OK n u 0
            ltac:(lia) Hn Hb fuel st _ w1 Hrec Hc Hh ltac:(lia) Hfuel)
  as (st' & w2 & Hall & Hnet2 & _).
rewrite Hall. by eexists _, _.
Qed.

(** X21. Reading at or beyond the end of the file.  The request for an
  offset that is not inside the file is answered with 416; the read
  that made it returns -4, not the 0 of an end of stream, with errno
  EINVAL; the box is left without a session and the server as it
  was. *)
Theorem curlstream_read_past_end (d : TestHTTPd) (path file : string) (F : bytes)
  (o : Z) (n : nat) (w : World Httpd_net) :
files_ d !! path = Some file -> disk d !! file = Some F ->
requests_to_fail_ d = 0%nat ->
0 < o < 2 ^ 63 -> Z.of_nat (length F) <= o ->
(ensure_curl_init Httpd_net w).1 = CURLE_OK -> server (net Httpd_net w) = d ->
let box := {| url := TEST_HTTPD_URL +:+ path; ofs := o; stm := None |} in
exists w',
  curlstream_read Httpd_net (connect_httpd pace) NDEBUG box n w
    = Some (-4, [], box, w') /\
  errno Httpd_net w' = EINVAL /\ server (net Httpd_net w') = d.
Proof.
intros Hf Hd Hfail Ho Hlen Hinit Hsrv box.
destruct (curlstream_read_refused w path o n 416 d Hinit) as (w' & Hread & Herr & Hnet);
  [|done|lia|].
{ rewrite Hsrv. by apply (OnRequest_beyond_end d path file _ F o). }
exists w'. split_and!; [done | done | by rewrite Hnet].
Qed.

(** X22. Opening a URL the server does not hold.  The request is answered
  with 404, and [hopen_net] returns no stream, with errno ENOENT,
  whatever mode was asked for. *)
Theorem hopen_net_not_found (d : TestHTTPd) (path : string) (cap : nat) (m : hmode)
  (w : World Httpd_net) :
files_ d !! path = None -> requests_to_fail_ d = 0%nat ->
(ensure_curl_init Httpd_net w).1 = CURLE_OK -> server (net Httpd_net w) = d ->
exists w',
  hopen_net Httpd_net (connect_httpd pace) NDEBUG cap (TEST_HTTPD_URL +:+ path) m w
    = Some (None, w') /\
  errno Httpd_net w' = ENOENT /\ server (net Httpd_net w') = d.
Proof.
intros Hnone Hfail Hinit Hsrv.
pose proof (connect_httpd_request w path 0) as Hconn. rewrite Hsrv in Hconn.
rewrite (OnRequest_not_found d path _ Hfail Hnone) in Hconn.
pose proof (pace_carries (empty_response 404)) as Hcar.
destruct (CurlStream_open_refused (connect_httpd pace) NDEBUG _ 0 w _ _ 404
            Hinit Hconn Hcar ltac:(done) ltac:(lia))
  as (st & w1 & Hopen & Hnet & Herr & Hc).
unfold hopen_net, curlstream_open, open_helper. cbn [url ofs].
rewrite Hopen. cbn [mbind option_bind]. change (-4 =? 0) with false. cbv iota.
cbn [mbind option_bind]. change (-4 =? 0) with false. cbv iota.
cbn [mbind option_bind].
eexists. split; [done|]. rewrite Hc. split; [done|].
cbn [net set_errno]. by rewrite Hnet.
Qed.

(** X23. A server told to fail.  While failures asked for by
  [FailNextRequests] are left, a read on a box without a session
  returns -4 with errno EIO, sends one request, uses up one failure
  and leaves the box without a session, so that the next read tries
  again. *)
Theorem curlstream_read_server_failure (d : TestHTTPd) (k : nat) (path : string)
  (o : Z) (n : nat) (w : World Httpd_net) :
requests_to_fail_ d = S k ->
(ensure_curl_init Httpd_net w).1 = CURLE_OK -> server (net Httpd_net w) = d ->
let box := {| url := TEST_HTTPD_URL +:+ path; ofs := o; stm := None |} in
exists w',
  curlstream_read Httpd_net (connect_httpd pace) NDEBUG box n w
    = Some (-4, [], box, w') /\
  errno Httpd_net w' = EIO /\
  server (net Httpd_net w') = FailNextRequests d k /\
  requests (net Httpd_net w')
  = requests (net Httpd_net w) ++ [request_at (TEST_HTTPD_URL +:+ path) o].
Proof.
intros Hfail Hinit Hsrv box.
destruct (curlstream_read_refused w path o n 500 (FailNextRequests d k) Hinit)
  as (w' & Hread & Herr & Hnet); [|done|lia|].
{ rewrite Hsrv. unfold OnRequest. by rewrite Hfail. }
exists w'. split_and!; [done | done | by rewrite Hnet | by rewrite Hnet].
Qed.

End AgainstMockServer.

(** ** What the C API reports *)

Lemma readsome_le (q : FifoBuffer.t) (n : nat) :
  ((FifoBuffer.readsome q n).1.1 <= n)%nat.
Proof.
  unfold FifoBuffer.readsome. destruct q as [|front rest]; simpl; [lia|].
  destruct (n =? 0)%nat; simpl; lia.
Qed.

(** The result of one read of the stream and the bytes it delivers. *)
Lemma CurlStream_read_count st n r out st' :
  CurlStream_read st n = (r, out, st') ->
  -1 <= final_read_rc_ st <= 1 -> Z.of_nat n < 2 ^ 63 ->
  (r = Z.of_nat (length out) /\ (length out <= n)%nat
   \/ (r = -1 \/ r = -2) /\ out = []) /\
  -1 <= final_read_rc_ st' <= 1.
Proof.
  intros Hread Hrc Hn. revert Hread.
  assert (Hsome : forall s, -1 <= final_read_rc_ s <= 1 ->
            (let '(neff, o, q) := FifoBuffer.readsome (buf_ s) n in
             (to_ssize_t (Z.of_nat neff), o, set_buf s q)) = (r, out, st') ->
            (r = Z.of_nat (length out) /\ (length out <= n)%nat
             \/ (r = -1 \/ r = -2) /\ out = []) /\
            -1 <= final_read_rc_ st' <= 1).
  { intros s Hs.
    pose proof (readsome_le (buf_ s) n) as Hle.
    pose proof (readsome_concat (buf_ s) n) as [_ Hlen].
    destruct (FifoBuffer.readsome (buf_ s) n) as [[neff o] q]. simpl in Hle, Hlen.
    intros [= <- <- <-]. simpl. split; [|done]. left.
    rewrite to_ssize_t_small by lia. split; [by rewrite Hlen | lia]. }
  unfold CurlStream_read.
  destruct (final_read_rc_ st <=? 0) eqn:Hlatch.
  { intros [= <- <- <-]. apply Z.leb_le in Hlatch. split; [|done].
    assert (final_read_rc_ st = 0 \/ final_read_rc_ st = -1) as [->| ->] by lia.
    - left. split; [done | simpl; lia].
    - right. auto. }
  destruct (negb (h_ st)); [intros [= <- <- <-]; split; [right; auto | done]|].
  destruct (_ || _); [intros [= <- <- <-]; split; [right; auto | done]|].
  destruct (FifoBuffer.empty (buf_ st)); [|by apply Hsome].
  pose proof (perform_status st) as Hps.
  pose proof (perform_final_read_rc st _ eq_refl) as Hprc.
  destruct (perform st) as [s1 st1]. cbn [fst snd] in Hps, Hprc.
  destruct Hps as [-> | ->]; cbn [bad Z.eqb negb];
    [|intros [= <- <- <-]; split; [right; auto | lia]].
  pose proof (drive_status awaiting_body (wire_ st1) st1) as Hds.
  pose proof (drive_preserves (fun s => final_read_rc_ s = final_read_rc_ st)
                (fun s => block_final_read_rc s _)
                (fun s => perform_final_read_rc s _)
                awaiting_body (wire_ st1) st1 Hprc) as Hdrc.
  destruct (drive awaiting_body (wire_ st1) st1) as [s2 st2]. cbn [fst snd] in Hds, Hdrc.
  destruct Hds as [-> | ->]; cbn [bad Z.eqb negb];
    [|intros [= <- <- <-]; split; [right; auto | lia]].
  destruct (FifoBuffer.empty (buf_ st2)); [|apply Hsome; lia].
  intros [= <- <- <-]. cbn [final_read_rc_ set_final_read_rc].
  assert (final_status st2 = 0 \/ final_status st2 = -1) as [-> | ->].
  { unfold final_status. repeat case_match; auto. }
  - split; [left; split; [done | simpl; lia] | lia].
  - split; [right; auto | lia].
Qed.

Section Counts.

Context {Net : Type}.
Variable connect : Net -> request -> session * Net.
Variable NDEBUG : bool.

Lemma CurlStream_open_final_read_rc u o (w : World Net) st w1 :
CurlStream_open Net connect NDEBUG CurlStream_new u o w = Some (0, st, w1) ->
final_read_rc_ st = 1.
Proof.
unfold CurlStream_open. cbn [CurlStream_new m_ h_ orb].
destruct (ensure_curl_init Net w) as [rc w0].
destruct (negb (rc =? CURLE_OK)); [done|].
destruct (connect _ _) as [ss nt].
destruct (negb (s_multi_init ss)); [done|].
destruct (negb (s_easy_init ss)); [done|].
destruct (negb (s_add_handle ss)); [done|].
destruct (first_setopt_fails ss); [done|].
destruct (later_setopt_fails ss); [done|].
match goal with |- context [perform ?x] =>
  pose proof (perform_status x) as Hps;
  pose proof (perform_final_read_rc x 1 eq_refl) as Hp;
  destruct (perform x) as [s3 st3] end.
cbn [fst snd] in Hps, Hp.
destruct Hps as [-> | ->]; cbn [bad Z.eqb negb]; [|done].
pose proof (drive_status awaiting_code (wire_ st3) st3) as Hds.
pose proof (drive_preserves (fun s => final_read_rc_ s = 1)
              (fun s => block_final_read_rc s 1)
              (fun s => perform_final_read_rc s 1)
              awaiting_code (wire_ st3) st3 Hp) as Hd.
destruct (drive awaiting_code (wire_ st3) st3) as [s4 st4]. cbn [fst snd] in Hds, Hd.
destruct Hds as [-> | ->]; cbn [bad Z.eqb negb]; [|done].
match goal with |- context [if bad ?x then _ else _] => destruct (bad x) eqn:Hb5 end.
{ intros [= Hc _ _]. by rewrite Hc in Hb5. }
destruct (_ && _); [done|].
by intros [= _ <- _].
Qed.

(** X24. The count [curlstream_read] returns is the number of bytes it
  stored.  For a request of at most [INT_MAX] bytes, the result is
  either the number of bytes delivered, which is at most the number
  asked for, or one of the error values -1, -2, -4 and -8 with nothing
  delivered.  (The recorded final status stays one of 1, 0 and -1,
  as it is on every stream that [open] made.) *)
Theorem curlstream_read_count (s : CurlStreamBox) (n : nat) (w : World Net)
  (c : Z) (out : bytes) (s' : CurlStreamBox) (w' : World Net) :
curlstream_read Net connect NDEBUG s n w = Some (c, out, s', w') ->
Z.of_nat n <= INT_MAX ->
(forall st, stm s = Some st -> -1 <= final_read_rc_ st <= 1) ->
(c = Z.of_nat (length out) /\ (length out <= n)%nat
 \/ (c = -1 \/ c = -2 \/ c = -4 \/ c = -8) /\ out = []) /\
(forall st', stm s' = Some st' -> -1 <= final_read_rc_ st' <= 1).
Proof.
intros Hread Hn Hinv.
assert (Hrs : forall b st (w0 : World Net),
          -1 <= final_read_rc_ st <= 1 ->
          read_stream Net b st n w0 = (c, out, s', w') ->
          (c = Z.of_nat (length out) /\ (length out <= n)%nat
           \/ (c = -1 \/ c = -2 \/ c = -4 \/ c = -8) /\ out = []) /\
          (forall st', stm s' = Some st' -> -1 <= final_read_rc_ st' <= 1)).
{ intros b st w0 Hst. unfold read_stream.
  destruct (CurlStream_read st n) as [[r o1] st1] eqn:Hr.
  apply CurlStream_read_count in Hr as [Hr Hst1]; [|done|unfold INT_MAX in Hn; lia].
  intros [= <- <- <- <-]. cbn [stm]. split.
  - unfold INT_MAX in Hn.
    destruct Hr as [[-> Hle] | [[-> | ->] ->]].
    + left. rewrite to_int_small by lia. done.
    + right. auto.
    + right. auto.
  - by intros st' [= <-]. }
destruct s as [u o [st|]].
- unfold curlstream_read in Hread. cbn [stm] in Hread.
  injection Hread as Hread.
  exact (Hrs _ st w (Hinv st eq_refl) Hread).
- rewrite curlstream_read_reopen in Hread.
  destruct (CurlStream_open _ _ _ _ _ _ _) as [[[c' st] w1]|] eqn:Hopen; [|done].
  cbn [mbind option_bind] in Hread.
  destruct (Z.eqb_spec c' 0) as [-> | Hne].
  + injection Hread as Hread.
    apply CurlStream_open_final_read_rc in Hopen.
    exact (Hrs _ st w1 ltac:(lia) Hread).
  + apply CurlStream_open_codes in Hopen as (Hc & _); [|done].
    injection Hread as <- <- <- <-. cbn [stm]. split; [|done].
    right. split; [lia | done].
Qed.

(** X25. Reads do not move the offset the box records: after a read,
  whatever it returned, the box still holds the URL and the offset of
  the last seek (or of the open), so that a seek with SEEK_CUR is
  relative to that offset and not to the position reached by
  reading. *)
Theorem curlstream_read_keeps_offset (s : CurlStreamBox) (n : nat) (w : World Net)
  (c : Z) (out : bytes) (s' : CurlStreamBox) (w' : World Net) :
curlstream_read Net connect NDEBUG s n w = Some (c, out, s', w') ->
url s' = url s /\ ofs s' = ofs s /\
forall delta w2,
  (curlstream_seek Net s' delta SEEK_CUR w2).1.1 = to_off_t (ofs s + delta).
Proof.
intros Hread.
assert (url s' = url s /\ ofs s' = ofs s) as [Hu Ho].
{ destruct s as [u o [st|]].
  - unfold curlstream_read in Hread. cbn [stm] in Hread. injection Hread as Hread.
    pose proof (read_stream_frame {| url := u; ofs := o; stm := Some st |} st n w)
      as (_ & Hu & Ho).
    rewrite Hread in Hu, Ho. done.
  - rewrite curlstream_read_reopen in Hread.
    destruct (CurlStream_open _ _ _ _ _ _ _) as [[[c' st] w1]|]; [|done].
    cbn [mbind option_bind] in Hread. destruct (c' =? 0).
    + injection Hread as Hread.
      pose proof (read_stream_frame {| url := u; ofs := o; stm := Some st |} st n w1)
        as (_ & Hu & Ho).
      rewrite Hread in Hu, Ho. done.
    + by injection Hread as <- <- <- <-. }
split_and!; [done | done |].
intros delta w2. unfold curlstream_seek.
change (SEEK_CUR =? SEEK_SET) with false. change (SEEK_CUR =? SEEK_CUR) with true.
cbv iota. cbn [fst]. by rewrite Ho.
Qed.

End Counts.

(** ** The response code, and the request headers read back *)

Lemma CurlStream_read_response_code st n :
  response_code_ st <> 0 ->
  response_code_ (CurlStream_read st n).2 = response_code_ st.
Proof.
  intros Hc. unfold CurlStream_read.
  destruct (final_read_rc_ st <=? 0); [done|].
  destruct (negb (h_ st)); [done|].
  destruct (_ || _); [done|].
  pose proof (perform_response_code st _ Hc eq_refl) as Hp.
  destruct (perform st) as [s1 st1]. cbn [snd] in Hp.
  pose proof (drive_preserves (fun s => response_code_ s = response_code_ st)
                (fun s => block_response_code s _)
                (fun s => perform_response_code s _ Hc)
                awaiting_body (wire_ st1) st1 Hp) as Hd.
  destruct (drive awaiting_body (wire_ st1) st1) as [s2 st2]. cbn [snd] in Hd.
  destruct (FifoBuffer.readsome (buf_ st) n) as [[k1 o1] q1].
  destruct (FifoBuffer.readsome (buf_ st2) n) as [[k2 o2] q2].
  repeat case_match; simplify_eq; simpl; congruence.
Qed.

(** X26. The response code is recorded once.  As soon as libcurl has
    reported a status other than 0, [response_code_] keeps it whatever
    libcurl reports later (after a redirect, say): no read changes
    it, however many follow. *)
Theorem response_code_recorded_once (st : CurlStream) (ns : list nat) :
  response_code_ st <> 0 ->
  response_code_ (CurlStream_reads st ns) = response_code_ st.
Proof.
  intros Hc. revert st Hc.
  induction ns as [|n ns IH]; intros st Hc; simpl; [done|].
  pose proof (CurlStream_read_response_code st n Hc) as Hr.
  rewrite IH by congruence. done.
Qed.

Lemma foldl_insert_to_map (l : list (string * string)) :
  NoDup l.*1 ->
  foldl (fun (acc : headers) kv => <[kv.1 := kv.2]> acc) ∅ l = list_to_map l.
Proof.
  intros Hnd.
  assert (forall (acc : headers),
            foldl (fun (acc : headers) kv => <[kv.1 := kv.2]> acc) acc l
            = list_to_map (reverse l) ∪ acc) as Hgen.
  { clear Hnd. induction l as [|[k v] l IH]; intros acc; simpl.
    - by rewrite (left_id_L ∅ (∪)).
    - rewrite IH, reverse_cons, list_to_map_app. simpl.
      rewrite insert_empty, <- (assoc_L (∪)). f_equal.
      by rewrite <- insert_union_singleton_l. }
  rewrite Hgen, (right_id_L ∅ (∪)).
  apply list_to_map_proper; [|by rewrite reverse_Permutation].
  by rewrite fmap_reverse, reverse_Permutation.
Qed.

(** X27. The request header lines read back.  The lines that
    [RequestHeadersHelper::Init] writes for a header map, "key: value"
    for each entry, are turned back into the same map by
    [headerfunction], provided the map is of the kind [headerfunction]
    produces (keys in lower case, keys and values without surrounding
    whitespace and not empty) and no key holds a colon. *)
Theorem header_lines_read_back (h : headers) :
  headers_ok h ->
  (forall k v, h !! k = Some v -> Str.find ":" k = None /\ trim k = k) ->
  foldl (fun acc line => (headerfunction line acc).2) ∅ (header_lines h) = h.
Proof.
  intros Hok Hkey.
  rewrite <- (list_to_map_to_list h) at 2.
  rewrite <- foldl_insert_to_map by apply NoDup_fst_map_to_list.
  unfold header_lines.
  assert (forall kv, kv ∈ map_to_list h ->
            forall acc, (headerfunction (kv.1 +:+ ": " +:+ kv.2) acc).2
                        = <[kv.1 := kv.2]> acc) as Hline.
  { intros [k v] Hin acc. apply elem_of_map_to_list in Hin.
    destruct (Hok k v Hin) as (Hlow & Hkne & Hv & Hvne).
    destruct (Hkey k v Hin) as (Hcolon & Hk).
    cbn [fst snd].
    change (k +:+ ": " +:+ v) with (k +:+ String ":" (" " +:+ v)).
    rewrite headerfunction_split by done. cbn [snd].
    rewrite Hk.
    assert (trim (" " +:+ v) = v) as ->.
    { pose proof (trim_padded " " v "" eq_refl eq_refl Hv Hvne) as Hp.
      by rewrite string_app_nil_r in Hp. }
    rewrite Hlow.
    destruct k; [done|]. destruct v; [done|]. done. }
  revert Hline. generalize (∅ : headers) as acc. generalize (map_to_list h) as l.
  induction l as [|kv l IH]; intros acc Hline; [done|].
  cbn [fmap list_fmap foldl].
  rewrite Hline by apply list_elem_of_here.
  apply IH. intros kv' Hin. apply Hline. by apply list_elem_of_further.
Qed.

(** ** The wait, and what the server accepts as a range *)

(** X28. The wait of [block] is bounded.  The timeout handed to [select] is
    a valid [timeval] of less than two seconds: it is the time libcurl
    asks for when that is below 2000 ms (so a request for 1000 to 1999
    ms is not cut to one second), and one second in every other case,
    also when libcurl suggests no timeout. *)
Theorem block_timeout_bounds (curl_timeo : Z) :
  let '(tv_sec, tv_usec) := block_timeout curl_timeo in
  0 <= tv_sec <= 1 /\ 0 <= tv_usec < 1000000 /\
  (0 <= curl_timeo < 2000 -> tv_sec * 1000000 + tv_usec = curl_timeo * 1000) /\
  (curl_timeo < 0 \/ 2000 <= curl_timeo -> tv_sec = 1 /\ tv_usec = 0).
Proof.
  unfold block_timeout. cbv zeta.
  destruct (Z.leb_spec 0 curl_timeo) as [Hge|Hlt]; [|lia].
  pose proof (Z.div_mod curl_timeo 1000 ltac:(lia)) as Hdm.
  pose proof (Z.mod_pos_bound curl_timeo 1000 ltac:(lia)) as Hm.
  destruct (Z.ltb_spec 1 (curl_timeo / 1000)) as [Hbig|Hsmall].
  - split_and!; try lia.
  - assert (0 <= curl_timeo / 1000) by (apply Z.div_pos; lia).
    split_and!; try lia.
Qed.

Lemma digits_nonneg (s : string) : forall acc, 0 <= acc -> 0 <= Str.digits acc s.
Proof.
  induction s as [|a s IH]; intros acc Hacc; simpl; [done|].
  unfold Str.digit_of. destruct (_ && _) eqn:Hd; [|done].
  apply IH. lia.
Qed.

Lemma strtoull_range (s : string) : 0 <= Str.strtoull s <= ULLONG_MAX.
Proof.
  assert (forall t, 0 <= (if ULLONG_MAX <? Str.digits 0 t then ULLONG_MAX
                          else Str.digits 0 t) <= ULLONG_MAX) as Hpos.
  { intros t. pose proof (digits_nonneg t 0 ltac:(lia)) as Hv.
    destruct (Z.ltb_spec ULLONG_MAX (Str.digits 0 t)); [unfold ULLONG_MAX|]; lia. }
  assert (forall t, 0 <= (if ULLONG_MAX <? Str.digits 0 t then ULLONG_MAX
                          else to_size_t (- Str.digits 0 t)) <= ULLONG_MAX) as Hneg.
  { intros t. pose proof (to_size_t_range (- Str.digits 0 t)).
    destruct (Z.ltb_spec ULLONG_MAX (Str.digits 0 t)); unfold ULLONG_MAX; lia. }
  unfold Str.strtoull.
  destruct (Str.skip_space s) as [|a t]; [apply Hpos|].
  destruct a as [[] [] [] [] [] [] [] []]; cbv beta iota zeta;
    first [apply Hpos | apply Hneg].
Qed.

(** X29. What the server accepts as a range.  [get_range_header] reports a
    range only for a request that has a range header of at least 8
    characters beginning with [bytes=]; the bounds it reports fit a
    [size_t], and either the upper bound was given and is not below the
    lower one, or it is the last byte of the file, [sz - 1] (computed
    as a [size_t], so that it wraps for an empty file). *)
Theorem get_range_header_sound (h : headers) (sz lo hi : Z) :
  get_range_header h sz = Some (lo, hi) ->
  (exists hdr, h !! "range"%string = Some hdr /\
     (8 <= String.length hdr)%nat /\ String.substring 0 6 hdr = "bytes=") /\
  0 <= lo <= ULLONG_MAX /\ 0 <= hi <= ULLONG_MAX /\
  (lo <= hi \/ hi = to_size_t (sz - 1)).
Proof.
  unfold get_range_header.
  destruct (h !! "range"%string) as [hdr|] eqn:Hh; [|done].
  cbn [mbind option_bind].
  destruct (Nat.ltb_spec (String.length hdr) 8) as [|Hlen]; [done|].
  destruct (String.eqb_spec (String.substring 0 6 hdr) "bytes=") as [Hpre|]; [|done].
  cbn [negb orb].
  destruct (Str.find "-" hdr) as [dashpos|]; [|done].
  cbn [mbind option_bind].
  destruct (_ || _); [done|].
  pose proof (strtoull_range (String.substring 6 (dashpos - 6) hdr)) as Hlo.
  destruct (dashpos <? String.length hdr - 1)%nat.
  - pose proof (strtoull_range (Str.substr_from (dashpos + 1) hdr)) as Hhi.
    destruct (Z.leb_spec (Str.strtoull (String.substring 6 (dashpos - 6) hdr))
                (Str.strtoull (Str.substr_from (dashpos + 1) hdr))); [|done].
    intros [= <- <-].
    split; [by exists hdr|]. split; [lia|]. split; [lia|]. by left.
  - intros [= <- <-]. pose proof (to_size_t_range (sz - 1)).
    split; [by exists hdr|]. split; [lia|].
    split; [unfold ULLONG_MAX; lia|]. by right.
Qed.

Lemma get_range_header_sound_witness :
  (exists hdr, ({[ "range"%string := "bytes=2-5"%string ]} : headers) !! "range"%string
               = Some hdr /\
     (8 <= String.length hdr)%nat /\ String.substring 0 6 hdr = "bytes=") /\
  0 <= 2 <= ULLONG_MAX /\ 0 <= 5 <= ULLONG_MAX /\
  (2 <= 5 \/ 5 = to_size_t (8 - 1)).
Proof.
  apply (get_range_header_sound {[ "range"%string := "bytes=2-5"%string ]} 8 2 5).
  vm_compute. reflexivity.
Defined.

(** ** Concrete runs of the further properties *)

Lemma range_request_understood_witness :
  get_range_header (rq_headers (request_at Sample.url_f 5)) 8 = Some (5, 7).
Proof.
  exact (range_request_understood Sample.url_f 5 8 eq_refl).
Defined.

Lemma get_range_header_bounds_witness :
  get_range_header {[ "range"%string := "bytes=2-5"%string ]} 8 = Some (2, 5).
Proof.
  exact (get_range_header_bounds 2 5 8 ltac:(split; discriminate)
           ltac:(split; discriminate)).
Defined.

Lemma CurlStream_open_once_witness :
  exists st w1,
    CurlStream_open Httpd_net Sample.connect false CurlStream_new Sample.url_f 0
      (Sample.world Sample.httpd) = Some (0, st, w1) /\
    CurlStream_open Httpd_net Sample.connect false (CurlStream_reads st [3%nat])
      Sample.url_f 0 w1
    = Some (-2, CurlStream_reads st [3%nat], w1).
Proof.
  eexists _, _. split; [vm_compute; reflexivity|].
  eapply (CurlStream_open_once Sample.connect false Sample.url_f 0
            (Sample.world Sample.httpd)).
  vm_compute. reflexivity.
Defined.

Lemma CurlStream_delete_safe_witness :
  exists st w1,
    CurlStream_open Httpd_net Sample.connect false CurlStream_new Sample.url_f 8
      (Sample.world Sample.httpd) = Some (-4, st, w1) /\
    CurlStream_delete false (CurlStream_reads st [3%nat]) = Some tt.
Proof.
  eexists _, _. split; [vm_compute; reflexivity|].
  eapply (CurlStream_delete_safe Sample.connect false Sample.url_f 8
            (Sample.world Sample.httpd)).
  vm_compute. reflexivity.
Defined.

Lemma curl_global_init_once_witness :
  exists w1,
    CurlStream_open Httpd_net Sample.connect false CurlStream_new Sample.url_f 0
      uninitialised_world = Some (-1, CurlStream_new, w1) /\
    need_init Httpd_net w1 = false /\
    ensure_curl_init Httpd_net w1 = (CURLE_OK, w1) /\
    net Httpd_net w1 = net Httpd_net uninitialised_world.
Proof.
  eexists. split; [vm_compute; reflexivity|].
  edestruct (curl_global_init_once Sample.connect false CurlStream_new Sample.url_f 0
               uninitialised_world) as (Hni & Hinit & Hfail).
  { vm_compute. reflexivity. }
  { reflexivity. }
  split; [exact Hni|]. split; [exact Hinit|].
  apply Hfail; [reflexivity | discriminate].
Defined.

Lemma CurlStream_read_zero_witness :
  exists st' k st'',
    CurlStream_read buffered_stream 0 = (0, [], st') /\
    receiving st' 200 [x41; x42] CURLE_OK /\
    final_read_rc_ st' = final_read_rc_ buffered_stream /\
    CurlStream_read st' 100 = (Z.of_nat k, take k [x41; x42], st'') /\
    (0 < k <= 100)%nat.
Proof.
  apply (CurlStream_read_zero buffered_stream 200 [x41; x42] CURLE_OK 100);
    try reflexivity; try discriminate; try (simpl; lia).
  unfold receiving. simpl. split_and!; try done.
  repeat constructor; discriminate.
Defined.

Lemma read_all_delivers_tail_witness :
  exists box,
    net_seek Httpd_net (Sample.box_at 0) 5 SEEK_SET (Sample.world Sample.httpd)
      = (5, box, Sample.world Sample.httpd) /\
    forall fuel, (8 - 5 < fuel)%nat ->
      exists box' w2,
        read_all Httpd_net Sample.connect false fuel box 100 (Sample.world Sample.httpd)
        = Some (0, [x46; x47; x48], box', w2) /\
        url box' = Sample.url_f /\ ofs box' = 5 /\
        requests (net Httpd_net w2) = [request_at Sample.url_f 5].
Proof.
  apply (read_all_delivers_tail (steady 1) false (steady_carries 1) Sample.httpd
           "/f" "data/f" Sample.F8 5 100 (Sample.box_at 0) (Sample.world Sample.httpd));
    try reflexivity; try (simpl; lia).
Defined.

Lemma hopen_net_reads_file_witness :
  exists f w1,
    hopen_net Httpd_net Sample.connect false 4 Sample.url_f RD
      (Sample.world Sample.httpd) = Some (Some f, w1) /\
    backend f = net_backend Httpd_net Sample.connect false /\
    requests (net Httpd_net w1) = [request_at Sample.url_f 0] /\
    forall fuel, (8 < fuel)%nat ->
      exists box' w2,
        read_all Httpd_net Sample.connect false fuel (bstate f) 100 w1
        = Some (0, Sample.F8, box', w2) /\
        net Httpd_net w2 = net Httpd_net w1.
Proof.
  apply (hopen_net_reads_file (steady 1) false (steady_carries 1) Sample.httpd
           "/f" "data/f" Sample.F8 4 100 RD (Sample.world Sample.httpd));
    try reflexivity; try (simpl; lia).
Defined.

Lemma curlstream_read_past_end_witness :
  exists w',
    curlstream_read Httpd_net Sample.connect false (Sample.box_at 9) 100
      (Sample.world Sample.httpd)
    = Some (-4, [], Sample.box_at 9, w') /\
    errno Httpd_net w' = EINVAL /\ server (net Httpd_net w') = Sample.httpd.
Proof.
  apply (curlstream_read_past_end (steady 1) false (steady_carries 1) Sample.httpd
           "/f" "data/f" Sample.F8 9 100 (Sample.world Sample.httpd));
    try reflexivity; try (simpl; lia).
Defined.

Lemma hopen_net_not_found_witness :
  exists w',
    hopen_net Httpd_net Sample.connect false 4 "http://localhost:8378/g" RD
      (Sample.world Sample.httpd) = Some (None, w') /\
    errno Httpd_net w' = ENOENT /\ server (net Httpd_net w') = Sample.httpd.
Proof.
  apply (hopen_net_not_found (steady 1) false (steady_carries 1) Sample.httpd "/g" 4 RD
           (Sample.world Sample.httpd)); reflexivity.
Defined.

Lemma curlstream_read_server_failure_witness :
  let w := Sample.world (FailNextRequests Sample.httpd 2) in
  exists w',
    curlstream_read Httpd_net Sample.connect false (Sample.box_at 0) 100 w
    = Some (-4, [], Sample.box_at 0, w') /\
    errno Httpd_net w' = EIO /\
    server (net Httpd_net w') = FailNextRequests (FailNextRequests Sample.httpd 2) 1 /\
    requests (net Httpd_net w') = [request_at Sample.url_f 0].
Proof.
  intros w.
  apply (curlstream_read_server_failure (steady 1) false (steady_carries 1)
           (FailNextRequests Sample.httpd 2) 1 "/f" 0 100 w); reflexivity.
Defined.

Lemma curlstream_read_count_witness :
  exists c out s' w',
    curlstream_read Httpd_net Sample.connect false (Sample.box_at 0) 100
      (Sample.world Sample.httpd) = Some (c, out, s', w') /\
    (c = Z.of_nat (length out) /\ (length out <= 100)%nat
     \/ (c = -1 \/ c = -2 \/ c = -4 \/ c = -8) /\ out = []).
Proof.
  eexists _, _, _, _. split; [vm_compute; reflexivity|].
  eapply (curlstream_read_count Sample.connect false (Sample.box_at 0) 100
            (Sample.world Sample.httpd)).
  - vm_compute. reflexivity.
  - discriminate.
  - intros st [=].
Defined.

Lemma curlstream_read_keeps_offset_witness :
  exists c out s' w',
    curlstream_read Httpd_net Sample.connect false (Sample.box_at 3) 100
      (Sample.world Sample.httpd) = Some (c, out, s', w') /\
    c = 2 /\ ofs s' = 3 /\
    (curlstream_seek Httpd_net s' 1 SEEK_CUR w').1.1 = 4.
Proof.
  eexists _, _, _, _. split; [vm_compute; reflexivity|].
  split; [reflexivity|].
  edestruct (curlstream_read_keeps_offset Sample.connect false (Sample.box_at 3) 100
               (Sample.world Sample.httpd)) as (_ & Ho & Hseek).
  { vm_compute. reflexivity. }
  split; [exact Ho|]. exact (Hseek 1 _).
Defined.

Lemma response_code_recorded_once_witness :
  response_code_ (CurlStream_reads buffered_stream [1; 1; 1]%nat) = 200.
Proof.
  exact (response_code_recorded_once buffered_stream [1; 1; 1]%nat ltac:(discriminate)).
Defined.

Lemma header_lines_read_back_witness :
  let h : headers := {[ "range"%string := "bytes=5-"%string ]} in
  foldl (fun acc line => (headerfunction line acc).2) ∅ (header_lines h) = h.
Proof.
  intros h. apply (header_lines_read_back h).
  - intros k v [<- <-]%lookup_singleton_Some. split_and!; done.
  - intros k v [<- <-]%lookup_singleton_Some. split; reflexivity.
Defined.
